(** * mmdbconvert: the streaming merge engine, embedded in Rocq

    The development follows the Go packages of the repository:

    - [Netip]: the part of [net/netip] and [go4.org/netipx] the engine
      calls (addresses, prefixes, range to CIDR decomposition);
    - [Network]: [internal/network] (adjacency, both revisions found in the
      tree);
    - [Split]: [internal/writer/split.go];
    - [Merger]: [internal/merger] (accumulator, IP-version validation,
      record walker, driver);
    - [MMDBWriter]: the nested-output builder of [internal/writer/mmdb.go],
      once over immutable trees and once over a store of map objects. *)

From stdpp Require Import gmap strings list fin_maps.
From Stdlib Require Import ZArith Lia.
From Stdlib.Strings Require Byte.

(** ** [net/netip] and [go4.org/netipx] *)

Module Netip.

Local Open Scope Z_scope.

(** *** [netip.Addr]

    [netip.Addr] is a struct of a 128-bit unsigned integer [addr] and a zone
    pointer [z].  [z] is [z0] for the zero [Addr], [z4] for an IPv4 address,
    [z6noz] for an IPv6 address without zone, and a pointer to the interned
    zone name otherwise.  An IPv4 address a.b.c.d is stored as the 128-bit
    value of ::ffff:a.b.c.d. *)

Inductive zone :=
| z0
| z4
| z6noz
| z6zone (name : string).

#[global] Instance zone_eq_dec : EqDecision zone.
Proof. solve_decision. Defined.

Record Addr := mkAddr { addr : Z; z : zone }.

#[global] Instance Addr_eq_dec : EqDecision Addr.
Proof. solve_decision. Defined.

Definition two128 : Z := 2 ^ 128.
Definition two32 : Z := 2 ^ 32.
Definition v4base : Z := 0xffff00000000.

(** The zero value [netip.Addr{}]. *)
Definition zeroAddr : Addr := mkAddr 0 z0.

(** [netip.AddrFrom4] on the big-endian number [v] of the four bytes. *)
Definition AddrFrom4 (v : Z) : Addr := mkAddr (Z.lor v4base v) z4.

(** [netip.AddrFrom16] on the big-endian number [v] of the sixteen bytes. *)
Definition AddrFrom16 (v : Z) : Addr := mkAddr v z6noz.

Definition Is4 (ip : Addr) : bool := bool_decide (z ip = z4).
Definition IsValid (ip : Addr) : bool := negb (bool_decide (z ip = z0)).
Definition Is6 (ip : Addr) : bool :=
  negb (bool_decide (z ip = z0)) && negb (bool_decide (z ip = z4)).

(** [Is4In6]: an IPv6 address whose upper 96 bits are ::ffff. *)
Definition Is4In6 (ip : Addr) : bool :=
  Is6 ip && (Z.shiftr (addr ip) 32 =? 0xffff).

Definition BitLen (ip : Addr) : Z :=
  match z ip with
  | z0 => 0
  | z4 => 32
  | _ => 128
  end.

(** [uint32(ip.addr.lo)]: the low 32 bits. *)
Definition lo32 (ip : Addr) : Z := addr ip mod two32.

(** [Addr.Next]: the address after [ip], the zero [Addr] on overflow. *)
Definition Next (ip : Addr) : Addr :=
  let ip' := mkAddr ((addr ip + 1) mod two128) (z ip) in
  if Is4 ip' then
    if lo32 ip' =? 0 then zeroAddr else ip'
  else
    if addr ip' =? 0 then zeroAddr else ip'.

(** [Addr.Unmap]: an IPv4-mapped IPv6 address becomes the IPv4 address. *)
Definition Unmap (ip : Addr) : Addr :=
  if Is4In6 ip then mkAddr (addr ip) z4 else ip.

(** The values the [netip] constructors can build. *)
Definition wfAddr (ip : Addr) : Prop :=
  match z ip with
  | z0 => addr ip = 0
  | z4 => v4base <= addr ip < v4base + two32
  | z6noz => 0 <= addr ip < two128
  | z6zone name => 0 <= addr ip < two128 /\ name <> ""%string
  end.

(** The number an address stands for in its own address space. *)
Definition value (ip : Addr) : Z :=
  if Is4 ip then lo32 ip else addr ip.

(** The largest number of the address space of [ip]. *)
Definition maxValue (ip : Addr) : Z := 2 ^ BitLen ip - 1.

(** *** [netip.Prefix] *)

Record Prefix := mkPrefix { ip : Addr; bits : Z }.

#[global] Instance Prefix_eq_dec : EqDecision Prefix.
Proof. solve_decision. Defined.

Definition PrefixAddr (p : Prefix) : Addr := ip p.
Definition PrefixBits (p : Prefix) : Z := bits p.

(** [Prefix.IsValid]: a valid address and a length within its bit length
    (an invalid [Prefix] has length -1). *)
Definition PrefixIsValid (p : Prefix) : bool :=
  IsValid (ip p) && (0 <=? bits p) && (bits p <=? BitLen (ip p)).

(** *** [go4.org/netipx]: last address of a prefix, range to prefixes *)

(** [netipx.PrefixLastIP]: the host bits set to one; the zero [Addr] for an
    invalid prefix.  An IPv4 result is unmapped, an IPv6 one is not. *)
Definition PrefixLastIP (p : Prefix) : Addr :=
  if negb (PrefixIsValid p) then zeroAddr
  else
    let span := if Is4 (ip p) then 32 else 128 in
    let a16 := Z.lor (addr (ip p)) (Z.ones (span - bits p)) in
    if Is4 (ip p) then Unmap (AddrFrom16 a16) else AddrFrom16 a16.

(** [Addr.Zone]: the zone name, empty when there is none. *)
Definition Zone (a : Addr) : string :=
  match z a with
  | z6zone name => name
  | _ => ""%string
  end.

(** [IPRange.IsValid]: valid ends of one bit length and zone, in order. *)
Definition IPRangeIsValid (from to : Addr) : bool :=
  IsValid from && (BitLen from =? BitLen to)
  && bool_decide (Zone from = Zone to)
  && negb (addr to <? addr from).

(** [bits.Len] on 128 bits and [uint128.commonPrefixLen]. *)
Definition bitLength (x : Z) : Z := if x =? 0 then 0 else Z.log2 x + 1.

Definition commonPrefixLen (a b : Z) : Z := 128 - bitLength (Z.lxor a b).

(** [mask6[n]]: the upper [n] of 128 bits set. *)
Definition mask6 (n : Z) : Z := Z.shiftl (Z.ones n) (128 - n).

Definition not128 (x : Z) : Z := Z.lxor x (Z.ones 128).

Definition bitsSetFrom (u bit : Z) : Z := Z.lor u (not128 (mask6 bit)).
Definition bitsClearedFrom (u bit : Z) : Z := Z.land u (mask6 bit).

(** [comparePrefixes]: the length of the common prefix of [a] and [b], and
    whether after it [a] is all zeros and [b] all ones. *)
Definition comparePrefixes (a b : Z) : Z * bool :=
  let common := commonPrefixLen a b in
  if common =? 128 then (common, true)
  else
    let m := mask6 common in
    (common,
     (Z.lxor a (Z.land a m) =? 0) && (Z.lor b m =? Z.ones 128)).

(** [appendRangePrefixes] recurses on two halves whose common prefix is
    longer by at least one bit; [fuel] bounds the depth, and 129 is enough
    for 128-bit numbers (see [appendRangePrefixes_fuel]).  A block is the
    128-bit number of its first address and its length in 128 bits. *)
Fixpoint appendRangePrefixes (fuel : nat) (a b : Z) : list (Z * Z) :=
  match fuel with
  | O => []
  | S fuel' =>
    let '(common, ok) := comparePrefixes a b in
    if ok then [(a, common)]
    else
      appendRangePrefixes fuel' a (bitsSetFrom a (common + 1))
      ++ appendRangePrefixes fuel' (bitsClearedFrom b (common + 1)) b
  end.

(** [IPRange.prefixFrom128AndBits]. *)
Definition prefixFrom128AndBits (from : Addr) (blk : Z * Z) : Prefix :=
  if Is4 from then mkPrefix (mkAddr (fst blk) z4) (snd blk - 96)
  else mkPrefix (mkAddr (fst blk) z6noz) (snd blk).

(** [netipx.IPRangeFrom(from, to).Prefixes()]: nothing for an invalid
    range. *)
Definition Prefixes (from to : Addr) : list Prefix :=
  if IPRangeIsValid from to
  then prefixFrom128AndBits from <$> appendRangePrefixes 129 (addr from) (addr to)
  else [].

End Netip.

(** ** [internal/network]

    The tree holds two revisions of the package.  [Network] is the one that
    follows [split.go] in [src/internal/writer/split.go]; [Network005] is
    [src/unnamed/part_005]. *)

Module Network.
Import Netip.
Local Open Scope Z_scope.

(** [IPv4ToUint32] panics on an address that is not IPv4: [None]. *)
Definition IPv4ToUint32 (a : Addr) : option Z :=
  if Is4 a then Some (lo32 a) else None.

(** [IsAdjacent]: the IPv4 branch adds one in [uint32], which wraps. *)
Definition IsAdjacent (endIP startIP : Addr) : bool :=
  if negb (eqb (Is4 endIP) (Is4 startIP)) then false
  else if Is4 endIP then
    match IPv4ToUint32 endIP, IPv4ToUint32 startIP with
    | Some e, Some s => (e + 1) mod two32 =? s
    | _, _ => false
    end
  else bool_decide (Next endIP = startIP).

(** [SmallestNetwork]: the prefix with more bits; the first on a tie. *)
Definition SmallestNetwork (a b : Prefix) : Prefix :=
  if PrefixBits b <=? PrefixBits a then a else b.

End Network.

Module Network005.
Import Netip.
Local Open Scope Z_scope.

Definition IPv4ToUint32 (a : Addr) : option Z :=
  if Is4 a then Some (lo32 a) else None.

(** [IsAdjacent]: one comparison with [Addr.Next] for both versions. *)
Definition IsAdjacent (endIP startIP : Addr) : bool :=
  if negb (eqb (Is4 endIP) (Is4 startIP)) then false
  else bool_decide (Next endIP = startIP).

Definition SmallestNetwork (a b : Prefix) : Prefix :=
  if PrefixBits b <=? PrefixBits a then a else b.

End Network005.

(** ** What the specification calls adjacency *)

Module AdjacencySpec.
Import Netip.
Local Open Scope Z_scope.

(** The immediate successor of [a] in its address space: the same version
    and zone, the number one larger; none for the last address. *)
Definition successor (a : Addr) : option Addr :=
  if IsValid a && (value a <? maxValue a)
  then Some (mkAddr (addr a + 1) (z a))
  else None.

Definition sameVersion (a b : Addr) : bool :=
  IsValid a && IsValid b && eqb (Is4 a) (Is4 b).

Definition v4 (a b c d : Z) : Addr :=
  AddrFrom4 (a * 2 ^ 24 + b * 2 ^ 16 + c * 2 ^ 8 + d).

End AdjacencySpec.

(** ** Errors

    Go errors are values; [fmt.Errorf] with the verb for wrapping keeps the
    error it wraps.  Every message the modelled code builds has a
    constructor that carries the values its format prints; [Opaque] is an
    error that comes from a collaborator (a sink, a reader, a decoder). *)

Module Errors.
Import Netip.

Inductive error :=
| Opaque (msg : string)
(* internal/writer/split.go *)
| NoIPv4Writer
| NoIPv6Writer
| WritingIPv4Range (err : error)
| WritingIPv4CIDR (cidr : Prefix) (err : error)
| WritingIPv6Range (err : error)
| WritingIPv6CIDR (cidr : Prefix) (err : error)
(* internal/merger/accumulator.go *)
| WritingRange (start last : Addr) (err : error)
| WritingRow (cidr : Prefix) (err : error)
(* internal/merger/merger.go *)
| NoDatabasesConfigured
| DatabaseNotFound (db : string)
| DatabaseNotFoundForColumn (db column : string)
| NormalizingPath (column : string) (err : error)
| IteratingFirstDatabase (err : error)
| IteratingDatabaseWithin (within : Prefix) (err : error)
| DecodingPath (column : string) (err : error)
| DecodingDatabase (index : nat) (db : string) (err : error)
| FlushingAccumulator (err : error)
| UnsupportedIPVersions (reported : list (string * Z))
| MixedIPVersions (ipv4Only ipv6Capable : list string)
(* walkPath *)
| ExpectedMap (walked : nat) (key : string) (found : string)
| ExpectedSlice (walked : nat) (index : Z) (found : string)
| UnsupportedSegmentType (walked : nat)
(* internal/mmdb/extractor.go *)
| PathIndexOutOfRange (index : Z)
| UnsupportedPathSegment
(* internal/writer/mmdb.go *)
| InvalidIPVersion (version : Z)
| CreatingMMDBTree (err : error)
| BuildingNestedData (err : error)
| Inserting (cidr : Prefix) (err : error)
| SettingColumn (column : string) (err : error)
| NonMapAtRoot (got : string)
| NonStringKey
| PathConflict (key : string) (got : string)
| NonStringFinalKey
| MergeMapIntoNonMap (existing : string)
| FieldConflict (key : string) (destType sourceType : string).

(** [errors.Is]-like: the innermost error of a chain of wraps. *)
Fixpoint cause (e : error) : error :=
  match e with
  | WritingIPv4Range e' | WritingIPv4CIDR _ e'
  | WritingIPv6Range e' | WritingIPv6CIDR _ e'
  | WritingRange _ _ e' | WritingRow _ e'
  | NormalizingPath _ e' | IteratingFirstDatabase e'
  | IteratingDatabaseWithin _ e' | DecodingPath _ e'
  | DecodingDatabase _ _ e' | FlushingAccumulator e'
  | CreatingMMDBTree e' | BuildingNestedData e' | Inserting _ e'
  | SettingColumn _ e' => cause e'
  | _ => e
  end.

End Errors.

(** ** Sinks

    A sink is an object outside the engine.  [W] is the state of everything
    outside (the sinks, and the store when rows are passed by reference); a
    method takes the state and returns the new state and its error, [None]
    for [nil].  [WriteRange] and [Flush] are optional methods: a type
    assertion to the interface succeeds when the field is [Some]. *)

Module Sink.
Import Netip Errors.

Record RowWriter (W D : Type) := mkRowWriter {
  WriteRow : Prefix -> D -> W -> W * option error;
  WriteRange : option (Addr -> Addr -> D -> W -> W * option error);
  Flush : option (W -> W * option error)
}.
Arguments mkRowWriter {W D}.
Arguments WriteRow {W D}.
Arguments WriteRange {W D}.
Arguments Flush {W D}.

(** [for _, cidr := range cidrs { if err := w.WriteRow(cidr, data); err !=
    nil { return wrap(cidr, err) } }]: stops at the first error. *)
Fixpoint writeRows {W D} (wr : RowWriter W D) (wrap : Prefix -> error -> error)
    (cidrs : list Prefix) (data : D) (w : W) : W * option error :=
  match cidrs with
  | [] => (w, None)
  | cidr :: rest =>
    match WriteRow wr cidr data w with
    | (w', Some err) => (w', Some (wrap cidr err))
    | (w', None) => writeRows wr wrap rest data w'
    end
  end.

(** What a sink is asked to do. *)
Inductive call (D : Type) :=
| CallWriteRow (cidr : Prefix) (data : D)
| CallWriteRange (start last : Addr) (data : D).
Arguments CallWriteRow {D}.
Arguments CallWriteRange {D}.

(** A sink that has only [WriteRow], keeps what it is asked and never
    fails. *)
Definition rowRecorder {D} : RowWriter (list (call D)) D :=
  mkRowWriter (fun cidr data log => (log ++ [CallWriteRow cidr data], None))
    None None.

(** A sink that has [WriteRange] too. *)
Definition rangeRecorder {D} : RowWriter (list (call D)) D :=
  mkRowWriter (fun cidr data log => (log ++ [CallWriteRow cidr data], None))
    (Some (fun s e data log => (log ++ [CallWriteRange s e data], None)))
    None.


Definition failingRangeRecorder {D} (err : error) : RowWriter (list (call D)) D :=
  mkRowWriter (fun cidr data log => (log ++ [CallWriteRow cidr data], Some err))
    (Some (fun s e data log => (log ++ [CallWriteRange s e data], Some err)))
    None.

(** Two recording sinks side by side, as the tests of [SplitRowWriter] have
    them: the state outside is the pair of what the IPv4 sink and what the
    IPv6 sink were asked.  [ranged] gives the sink a [WriteRange]. *)
Definition ipv4Recorder {D} (ranged : bool)
    : RowWriter (list (call D) * list (call D)) D :=
  mkRowWriter
    (fun cidr data w => ((fst w ++ [CallWriteRow cidr data], snd w), None))
    (if ranged
     then Some (fun s e data w => ((fst w ++ [CallWriteRange s e data], snd w), None))
     else None)
    None.

Definition ipv6Recorder {D} (ranged : bool)
    : RowWriter (list (call D) * list (call D)) D :=
  mkRowWriter
    (fun cidr data w => ((fst w, snd w ++ [CallWriteRow cidr data]), None))
    (if ranged
     then Some (fun s e data w => ((fst w, snd w ++ [CallWriteRange s e data]), None))
     else None)
    None.

End Sink.

(** ** [internal/writer/split.go] *)

Module Split.
Import Netip Errors Sink.

Section SplitRowWriter.
Context {W D : Type}.

(** The two sinks; [None] is a [nil] interface. *)
Record SplitRowWriter := NewSplitRowWriter {
  ipv4 : option (RowWriter W D);
  ipv6 : option (RowWriter W D)
}.

Definition SplitWriteRow (s : SplitRowWriter) (prefix : Prefix) (data : D)
    (w : W) : W * option error :=
  if Is4 (PrefixAddr prefix) then
    match ipv4 s with
    | None => (w, Some NoIPv4Writer)
    | Some v4w => WriteRow v4w prefix data w
    end
  else
    match ipv6 s with
    | None => (w, Some NoIPv6Writer)
    | Some v6w => WriteRow v6w prefix data w
    end.

Definition SplitWriteRange (s : SplitRowWriter) (start last : Addr) (data : D)
    (w : W) : W * option error :=
  if Is4 start then
    match ipv4 s with
    | None => (w, Some NoIPv4Writer)
    | Some v4w =>
      match WriteRange v4w with
      | Some writeRange =>
        match writeRange start last data w with
        | (w', Some err) => (w', Some (WritingIPv4Range err))
        | (w', None) => (w', None)
        end
      | None => writeRows v4w WritingIPv4CIDR (Prefixes start last) data w
      end
    end
  else
    match ipv6 s with
    | None => (w, Some NoIPv6Writer)
    | Some v6w =>
      match WriteRange v6w with
      | Some writeRange =>
        match writeRange start last data w with
        | (w', Some err) => (w', Some (WritingIPv6Range err))
        | (w', None) => (w', None)
        end
      | None => writeRows v6w WritingIPv6CIDR (Prefixes start last) data w
      end
    end.

End SplitRowWriter.
Arguments SplitRowWriter : clear implicits.

End Split.

(** ** [mmdbtype]: the decoded record tree

    [mmdbtype.DataType] is an interface with one implementation per MMDB
    type.  Integers are kept as [Z]; a float is kept as the [Z] of its IEEE
    bit pattern, so that [==] on floats can be written out.  [Map] is a Go
    map from [mmdbtype.String] to [DataType]. *)

Module Mmdbtype.
Local Open Scope Z_scope.

#[global] Instance byte_eq_dec : EqDecision Byte.byte :=
  Strings.Byte.byte_eq_dec.

(** The types without parts. *)
Inductive Scalar :=
| Bool (b : bool)
| Bytes (bs : list Byte.byte)
| Float32 (pattern : Z)
| Float64 (pattern : Z)
| Int32 (n : Z)
| Pointer (n : Z)
| String (s : string)
| Uint16 (n : Z)
| Uint32 (n : Z)
| Uint64 (n : Z)
| Uint128 (n : Z).

#[warnings="-register-all"]
Inductive DataType :=
| Leaf (s : Scalar)
| Slice (l : list DataType)
| Map (m : gmap string DataType).

Coercion Leaf : Scalar >-> DataType.

Abbreviation MapT := (gmap string DataType).

(** What the verb for types prints. *)
Definition scalarTypeName (s : Scalar) : string :=
  match s with
  | Bool _ => "mmdbtype.Bool"
  | Bytes _ => "mmdbtype.Bytes"
  | Float32 _ => "mmdbtype.Float32"
  | Float64 _ => "mmdbtype.Float64"
  | Int32 _ => "mmdbtype.Int32"
  | Pointer _ => "mmdbtype.Pointer"
  | String _ => "mmdbtype.String"
  | Uint16 _ => "mmdbtype.Uint16"
  | Uint32 _ => "mmdbtype.Uint32"
  | Uint64 _ => "mmdbtype.Uint64"
  | Uint128 _ => "mmdbtype.Uint128"
  end.

Definition typeName (d : DataType) : string :=
  match d with
  | Leaf s => scalarTypeName s
  | Slice _ => "mmdbtype.Slice"
  | Map _ => "mmdbtype.Map"
  end.

(** [==] of IEEE floats on bit patterns with [e] exponent and [m] mantissa
    bits: a NaN equals nothing, the two zeros are equal. *)
Definition isNaN (e m pattern : Z) : bool :=
  ((pattern / 2 ^ m) mod 2 ^ e =? 2 ^ e - 1) && negb (pattern mod 2 ^ m =? 0).

Definition floatEq (e m a b : Z) : bool :=
  negb (isNaN e m a) && negb (isNaN e m b)
  && ((a =? b) || ((a mod 2 ^ (e + m) =? 0) && (b mod 2 ^ (e + m) =? 0))).

(** [Equal] of the types without parts: the same type and [==]. *)
Definition scalarEqual (t other : Scalar) : bool :=
  match t, other with
  | Bool a, Bool b => eqb a b
  | Bytes a, Bytes b => bool_decide (a = b)
  | Float32 a, Float32 b => floatEq 8 23 a b
  | Float64 a, Float64 b => floatEq 11 52 a b
  | Int32 a, Int32 b => a =? b
  | Pointer a, Pointer b => a =? b
  | String a, String b => bool_decide (a = b)
  | Uint16 a, Uint16 b => a =? b
  | Uint32 a, Uint32 b => a =? b
  | Uint64 a, Uint64 b => a =? b
  | Uint128 a, Uint128 b => a =? b
  | _, _ => false
  end.

(** [DataType.Equal].  [Slice.Equal] compares the lengths and the elements
    in order; [Map.Equal] compares the lengths and then looks up every key
    of the receiver in the other map. *)
Fixpoint Equal (t other : DataType) {struct t} : bool :=
  match t, other with
  | Leaf a, Leaf b => scalarEqual a b
  | Slice a, Slice b =>
    (fix go (xs ys : list DataType) : bool :=
       match xs, ys with
       | [], [] => true
       | x :: xs', y :: ys' => Equal x y && go xs' ys'
       | _, _ => false
       end) a b
  | Map a, Map b =>
    bool_decide (size a = size b)
    && map_fold (fun k v acc =>
         acc && match b !! k with
                | Some ov => Equal v ov
                | None => false
                end) true a
  | _, _ => false
  end.

Definition MapEqual (a b : MapT) : bool := Equal (Map a) (Map b).

End Mmdbtype.

(** ** [internal/merger/accumulator.go] *)

Module Accumulator.
Import Netip Errors Sink.

Section Accumulator.
Context {W D : Type}.
(** [len(data) == 0] and [a.Equal(b)] on the row data; they read the state
    outside when rows are references into a store. *)
Variable isEmpty : W -> D -> bool.
Variable dataEquals : W -> D -> D -> bool.
(** [network.IsAdjacent]. *)
Variable IsAdjacent : Addr -> Addr -> bool.

Record AccumulatedRange := mkRange {
  StartIP : Addr;
  EndIP : Addr;
  Data : D
}.

Record Accumulator := mkAccumulator {
  current : option AccumulatedRange;
  writer : RowWriter W D;
  includeEmptyRows : bool
}.

Definition NewAccumulator (wr : RowWriter W D) (includeEmpty : bool)
    : Accumulator :=
  mkAccumulator None wr includeEmpty.

Definition setCurrent (a : Accumulator) (c : option AccumulatedRange)
    : Accumulator :=
  mkAccumulator c (writer a) (includeEmptyRows a).

(** [Flush]: an error returns before [a.current = nil]. *)
Definition Flush (a : Accumulator) (w : W) : Accumulator * W * option error :=
  match current a with
  | None => (a, w, None)
  | Some cur =>
    match WriteRange (writer a) with
    | Some writeRange =>
      match writeRange (StartIP cur) (EndIP cur) (Data cur) w with
      | (w', Some err) =>
        (a, w', Some (WritingRange (StartIP cur) (EndIP cur) err))
      | (w', None) => (setCurrent a None, w', None)
      end
    | None =>
      let cidrs := Prefixes (StartIP cur) (EndIP cur) in
      match writeRows (writer a) WritingRow cidrs (Data cur) w with
      | (w', Some err) => (a, w', Some err)
      | (w', None) => (setCurrent a None, w', None)
      end
    end
  end.

Definition Process (a : Accumulator) (prefix : Prefix) (data : D) (w : W)
    : Accumulator * W * option error :=
  if negb (includeEmptyRows a) && isEmpty w data then (a, w, None)
  else
    let addr := PrefixAddr prefix in
    let endIP := PrefixLastIP prefix in
    match current a with
    | None => (setCurrent a (Some (mkRange addr endIP data)), w, None)
    | Some cur =>
      let canExtend :=
        IsAdjacent (EndIP cur) addr && dataEquals w (Data cur) data in
      if canExtend
      then (setCurrent a (Some (mkRange (StartIP cur) endIP (Data cur))), w, None)
      else
        match Flush a w with
        | (a', w', Some err) => (a', w', Some err)
        | (a', w', None) =>
          (setCurrent a' (Some (mkRange addr endIP data)), w', None)
        end
    end.

(** What the driver does with the accumulator: the rows in order, stopping
    at the first error, and one [Flush] at the end of the stream. *)
Fixpoint feed (a : Accumulator) (rows : list (Prefix * D)) (w : W)
    : Accumulator * W * option error :=
  match rows with
  | [] => (a, w, None)
  | (prefix, data) :: rest =>
    match Process a prefix data w with
    | (a', w', Some err) => (a', w', Some err)
    | (a', w', None) => feed a' rest w'
    end
  end.

Definition run (a : Accumulator) (rows : list (Prefix * D)) (w : W)
    : Accumulator * W * option error :=
  match feed a rows w with
  | (a', w', Some err) => (a', w', Some err)
  | (a', w', None) =>
    match Flush a' w' with
    | (a'', w'', Some err) => (a'', w'', Some (FlushingAccumulator err))
    | (a'', w'', None) => (a'', w'', None)
    end
  end.

End Accumulator.
Arguments AccumulatedRange : clear implicits.
Arguments Accumulator : clear implicits.
Arguments mkRange {D}.
Arguments StartIP {D}.
Arguments EndIP {D}.
Arguments Data {D}.

End Accumulator.

(** The accumulator of [accumulator.go] on rows that are [mmdbtype.Map]
    values. *)

Module MapRows.
Import Netip Mmdbtype.

Definition isEmpty {W} (_ : W) (data : MapT) : bool :=
  bool_decide (size data = 0%nat).

Definition dataEquals {W} (_ : W) (a b : MapT) : bool := MapEqual a b.

End MapRows.

(** ** What the specification calls the canonical minimal CIDR cover

    A block [(x, c)] stands for the [2 ^ (128 - c)] numbers from [x]; it is
    a CIDR block when [x] is a multiple of its size. *)

Module CidrSpec.
Import Netip.
Local Open Scope Z_scope.

Definition blockSize (blk : Z * Z) : Z := 2 ^ (128 - snd blk).
Definition blockLast (blk : Z * Z) : Z := fst blk + blockSize blk - 1.

Definition isBlock (blk : Z * Z) : Prop :=
  0 <= snd blk <= 128 /\ 0 <= fst blk /\ blockLast blk < 2 ^ 128
  /\ fst blk mod blockSize blk = 0.

(** [l] is a sequence of CIDR blocks that starts at [a], ends at [b], and in
    which every block starts right after the one before: the blocks are in
    ascending order, do not overlap, and cover [a..b] exactly. *)
Fixpoint tiles (a b : Z) (l : list (Z * Z)) : Prop :=
  match l with
  | [] => a = b + 1
  | blk :: rest =>
    isBlock blk /\ fst blk = a /\ blockLast blk <= b
    /\ tiles (blockLast blk + 1) b rest
  end.

(** The block one bit shorter that contains [blk]. *)
Definition parentFirst (blk : Z * Z) : Z :=
  fst blk - fst blk mod (2 * blockSize blk).
Definition parentLast (blk : Z * Z) : Z :=
  parentFirst blk + 2 * blockSize blk - 1.

(** [blk] cannot be made larger inside [a..b]. *)
Definition maximalIn (a b : Z) (blk : Z * Z) : Prop :=
  snd blk = 0 \/ ~ (a <= parentFirst blk /\ parentLast blk <= b).

(** The canonical cover: the tiling by blocks that are all maximal.  It is
    the smallest one ([canonicalCover_minimal]). *)
Definition canonicalCover (a b : Z) (l : list (Z * Z)) : Prop :=
  tiles a b l /\ Forall (maximalIn a b) l.

(** The block of a prefix, in 128 bits. *)
Definition prefixBlock (p : Prefix) : Z * Z :=
  (addr (ip p), if Is4 (ip p) then bits p + 96 else bits p).

(** A single CIDR block covers exactly two blocks that follow each other. *)
Definition mergeable (blk1 blk2 : Z * Z) : Prop :=
  exists blk, isBlock blk /\ fst blk = fst blk1 /\ blockLast blk = blockLast blk2.

(** [ps] is the canonical cover of the addresses from [from] to [to]: valid
    prefixes of the version of [from], without zone, whose address is
    their first address ([PrefixLastIP] gives their last), and whose blocks
    are the canonical cover of the numbers from [addr from] to [addr to]
    (an IPv4 address is a 128-bit number too, as [netipx] has it: the order
    and the distances are those of the 32-bit numbers). *)
Definition isCanonicalCover (from to : Addr) (ps : list Prefix) : Prop :=
  canonicalCover (addr from) (addr to) (prefixBlock <$> ps)
  /\ Forall (fun p =>
        PrefixIsValid p = true
        /\ z (ip p) = (if Is4 from then z4 else z6noz)
        /\ wfAddr (ip p)
        /\ PrefixLastIP p
           = mkAddr (blockLast (prefixBlock p)) (z (ip p))) ps.

End CidrSpec.

(** ** What the specification calls maximal coalescing *)

Module CoalesceSpec.
Import Netip Sink.

Section Ranges.
Context {D : Type}.
Variable IsAdjacent : Addr -> Addr -> bool.
Variable dataEq : D -> D -> bool.

(** A flushed range: start, end, data. *)
Definition range : Type := Addr * Addr * D.

(** The second range starts right after the first and has equal data. *)
Definition coalescable (r1 r2 : range) : bool :=
  IsAdjacent (snd (fst r1)) (fst (fst r2)) && dataEq (snd r1) (snd r2).

Fixpoint noCoalescablePair (l : list range) : Prop :=
  match l with
  | r1 :: tl =>
    match tl with
    | r2 :: _ => coalescable r1 r2 = false
    | [] => True
    end /\ noCoalescablePair tl
  | [] => True
  end.

(** What a sink with [WriteRange] is asked for the ranges. *)
Definition rangeCalls (l : list range) : list (call D) :=
  (fun r : range => CallWriteRange (fst (fst r)) (snd (fst r)) (snd r)) <$> l.

(** What a sink with [WriteRow] only is asked for the ranges: every range
    as its prefixes. *)
Definition rowCalls (l : list range) : list (call D) :=
  l ≫= (fun r : range =>
          (fun cidr => CallWriteRow cidr (snd r))
          <$> Prefixes (fst (fst r)) (snd (fst r))).

End Ranges.

End CoalesceSpec.


(** ** Outcomes

    A Go function that returns [(value, error)] ends with [Done] or
    [Failed]; [Panicked] is a run-time panic (an index out of range, a nil
    dereference). *)

Module Outcome.
Import Errors.

Inductive outcome (A : Type) :=
| Done (a : A)
| Failed (e : error)
| Panicked.
Arguments Done {A}.
Arguments Failed {A}.
Arguments Panicked {A}.

Definition bind {A B} (o : outcome A) (f : A -> outcome B) : outcome B :=
  match o with
  | Done a => f a
  | Failed e => Failed e
  | Panicked => Panicked
  end.

End Outcome.

(** ** [internal/config] (the fields the engine reads) and path segments *)

Module Config.
Local Open Scope Z_scope.

(** An element of a path, a [[]any]: a [string], an [int], an [int64], or a
    value of another type. *)
Inductive segment :=
| SegString (s : string)
| SegInt (n : Z)
| SegInt64 (n : Z)
| SegOther (type : string).

Record Column := mkColumn {
  Name : string;
  Database : string;
  Path : list segment;
  OutputPath : option (list segment)
}.

Record MMDBOptions := mkMMDBOptions {
  DatabaseType : string;
  RecordSize : option Z;
  IncludeReservedNetworks : option bool
}.

Record Config := mkConfig {
  Columns : list Column;
  IncludeEmptyRows : option bool;
  MMDB : MMDBOptions
}.

End Config.

(** ** [internal/mmdb]: path normalisation and readers *)

Module Mmdb.
Import Netip Errors Outcome Config Mmdbtype.
Local Open Scope Z_scope.

(** [int] has 64 bits on the platforms the tool is built for. *)
Definition maxInt : Z := 2 ^ 63 - 1.
Definition minInt : Z := - maxInt - 1.

(** [normalizeSegments]: an [int64] becomes an [int] when it fits. *)
Fixpoint normalizeLoop (path : list segment) : outcome (list segment) :=
  match path with
  | [] => Done []
  | seg :: rest =>
    match seg with
    | SegString v => bind (normalizeLoop rest) (fun r => Done (SegString v :: r))
    | SegInt v => bind (normalizeLoop rest) (fun r => Done (SegInt v :: r))
    | SegInt64 v =>
      if (maxInt <? v) || (v <? minInt) then Failed (PathIndexOutOfRange v)
      else bind (normalizeLoop rest) (fun r => Done (SegInt v :: r))
    | SegOther _ => Failed UnsupportedPathSegment
    end
  end.

Definition normalizeSegments (path : list segment) : outcome (list segment) :=
  match path with
  | [] => Done []
  | _ => normalizeLoop path
  end.

Definition NormalizeSegments := normalizeSegments.

(** A [maxminddb.Result]: its network, its iteration error, and what
    decoding it gives, for the whole record and below a path ([None] is
    the [nil] value of a result without data at the place asked). *)
Record Result := mkResult {
  ResultPrefix : Prefix;
  ResultErr : option error;
  Decode : outcome (option DataType);
  DecodePath : list segment -> outcome (option DataType)
}.

(** A reader: the declared IP version of its metadata and its two
    iterators, with networks without data included. *)
Record Reader := mkReader {
  IPVersion : Z;
  Networks : list Result;
  NetworksWithin : Prefix -> list Result
}.

(** [Readers]: database name to reader. *)
Abbreviation Readers := (gmap string Reader).

Definition Get (rs : Readers) (name : string) : option Reader := rs !! name.

End Mmdb.

(** ** The driver loops, the same in [merger.go] and in [part_006]

    [St] is the accumulator together with the state outside. *)

Module Driver.
Import Netip Errors Outcome Mmdb.

Section Driver.
Context {St : Type}.
Variable extractAndProcess : list Result -> Prefix -> St -> St * outcome unit.
Variable flush : St -> St * option error.

(** The loop of [processNetwork] over the networks of one reader within
    the effective prefix; [recurse] is [processNetwork] at [dbIndex+1]. *)
Fixpoint withinLoop (recurse : list Result -> Prefix -> St -> St * outcome unit)
    (results : list Result) (effectivePrefix : Prefix) (rs : list Result)
    (st : St) : St * outcome unit :=
  match rs with
  | [] => (st, Done tt)
  | result :: rs' =>
    match ResultErr result with
    | Some err => (st, Failed (IteratingDatabaseWithin effectivePrefix err))
    | None =>
      let nextNetwork := ResultPrefix result in
      let smallest := Network.SmallestNetwork effectivePrefix nextNetwork in
      match recurse (results ++ [result]) smallest st with
      | (st', Done _) => withinLoop recurse results effectivePrefix rs' st'
      | (st', stop) => (st', stop)
      end
    end
  end.

(** [processNetwork(results, effectivePrefix, dbIndex)]; [rest] is
    [readersList[dbIndex:]]. *)
Fixpoint processNetwork (rest : list Reader) (results : list Result)
    (effectivePrefix : Prefix) (st : St) {struct rest} : St * outcome unit :=
  match rest with
  | [] => extractAndProcess results effectivePrefix st
  | currentReader :: rest' =>
    withinLoop (processNetwork rest') results effectivePrefix
      (NetworksWithin currentReader effectivePrefix) st
  end.

(** One turn of the loop of [Merge]. *)
Definition mergeStep (others : list Reader) (result : Result) (st : St)
    : St * outcome unit :=
  match others with
  | [] => extractAndProcess [result] (ResultPrefix result) st
  | _ => processNetwork others [result] (ResultPrefix result) st
  end.

(** The loop of [Merge] over the networks of the first reader. *)
Fixpoint mergeLoop (others : list Reader) (rs : list Result) (st : St)
    : St * outcome unit :=
  match rs with
  | [] => (st, Done tt)
  | result :: rs' =>
    match ResultErr result with
    | Some err => (st, Failed (IteratingFirstDatabase err))
    | None =>
      match mergeStep others result st with
      | (st', Done _) => mergeLoop others rs' st'
      | (st', stop) => (st', stop)
      end
    end
  end.

(** [Merge]: [m.readersList[0]] panics on an empty list. *)
Definition Merge (readersList : list Reader) (st : St) : St * outcome unit :=
  match readersList with
  | [] => (st, Panicked)
  | firstReader :: others =>
    match mergeLoop others (Networks firstReader) st with
    | (st', Done _) =>
      match flush st' with
      | (st'', Some err) => (st'', Failed (FlushingAccumulator err))
      | (st'', None) => (st'', Done tt)
      end
    | (st', stop) => (st', stop)
    end
  end.

End Driver.

End Driver.

(** ** [internal/merger/merger.go] *)

Module Merger.
Import Netip Errors Outcome Sink Config Mmdb Mmdbtype.
Local Open Scope Z_scope.

Record columnExtractor := mkExtractor {
  reader : option Reader;
  path : list segment;
  name : string;
  database : string;
  dbIndex : Z
}.

(** [validateIPVersions]: [names[idx]] panics when [names] is shorter. *)
Fixpoint validateLoop (readers : list Reader) (names : list string)
    (ipv4Only ipv6Capable : list string) (unsupportedV : list (string * Z))
    : outcome (list string * list string * list (string * Z)) :=
  match readers with
  | [] => Done (ipv4Only, ipv6Capable, unsupportedV)
  | rd :: readers' =>
    match names with
    | [] => Panicked
    | nm :: names' =>
      let version := IPVersion rd in
      if version =? 4
      then validateLoop readers' names' (ipv4Only ++ [nm]) ipv6Capable unsupportedV
      else if version =? 6
      then validateLoop readers' names' ipv4Only (ipv6Capable ++ [nm]) unsupportedV
      else validateLoop readers' names' ipv4Only ipv6Capable
             (unsupportedV ++ [(nm, version)])
    end
  end.

Definition validateIPVersions (readers : list Reader) (names : list string)
    : outcome unit :=
  bind (validateLoop readers names [] [] [])
    (fun '(ipv4Only, ipv6Capable, unsupportedV) =>
       if negb (length unsupportedV =? 0)%nat
       then Failed (UnsupportedIPVersions unsupportedV)
       else if negb (length ipv4Only =? 0)%nat && negb (length ipv6Capable =? 0)%nat
       then Failed (MixedIPVersions ipv4Only ipv6Capable)
       else Done tt).

(** [getUniqueDatabaseNames]: the databases of the columns, each once, in
    the order of their first use. *)
Fixpoint uniqueLoop (seen : gset string) (columns : list Column) : list string :=
  match columns with
  | [] => []
  | column :: rest =>
    if decide (Database column ∈ seen) then uniqueLoop seen rest
    else Database column :: uniqueLoop ({[Database column]} ∪ seen) rest
  end.

Definition getUniqueDatabaseNames (cfg : Config) : list string :=
  uniqueLoop ∅ (Columns cfg).

(** [for _, dbName := range dbNamesList { readers.Get(dbName) ... }]. *)
Fixpoint resolveReaders (readers : Readers) (names : list string)
    : outcome (list Reader) :=
  match names with
  | [] => Done []
  | dbName :: rest =>
    match Get readers dbName with
    | None => Failed (DatabaseNotFound dbName)
    | Some rd => bind (resolveReaders readers rest) (fun rs => Done (rd :: rs))
    end
  end.

(** [for j, name := range dbNamesList { if name == db { dbIdx = j; break } }]. *)
Fixpoint findIndex (names : list string) (db : string) (j : Z) : Z :=
  match names with
  | [] => -1
  | nm :: rest => if decide (nm = db) then j else findIndex rest db (j + 1)
  end.

Fixpoint buildExtractors (readers : Readers) (names : list string)
    (columns : list Column) : outcome (list columnExtractor) :=
  match columns with
  | [] => Done []
  | column :: rest =>
    match Get readers (Database column) with
    | None => Failed (DatabaseNotFoundForColumn (Database column) (Name column))
    | Some rd =>
      match NormalizeSegments (Path column) with
      | Failed e => Failed (NormalizingPath (Name column) e)
      | Panicked => Panicked
      | Done pathSegments =>
        bind (buildExtractors readers names rest)
          (fun es =>
             Done (mkExtractor (Some rd) pathSegments (Name column)
                     (Database column) (findIndex names (Database column) 0)
                   :: es))
      end
    end
  end.

Section Merger.
Context {W : Type}.
(** [network.IsAdjacent], as the accumulator calls it. *)
Variable IsAdjacent : Addr -> Addr -> bool.

Record Merger := mkMerger {
  readers : Readers;
  config : Config;
  acc : Accumulator.Accumulator W MapT;
  readersList : list Reader;
  dbNamesList : list string;
  extractors : list columnExtractor
}.

Definition NewMerger (rs : Readers) (cfg : Config) (wr : RowWriter W MapT)
    : outcome Merger :=
  let includeEmptyRows :=
    match IncludeEmptyRows cfg with
    | Some b => b
    | None => false
    end in
  let a := Accumulator.NewAccumulator wr includeEmptyRows in
  let dbNamesList := getUniqueDatabaseNames cfg in
  if (length dbNamesList =? 0)%nat then Failed NoDatabasesConfigured
  else
    bind (resolveReaders rs dbNamesList) (fun readersList =>
    bind (validateIPVersions readersList dbNamesList) (fun _ =>
    bind (buildExtractors rs dbNamesList (Columns cfg)) (fun extractors =>
    Done (mkMerger rs cfg a readersList dbNamesList extractors)))).

(** [extractAndProcess]: a fresh map per row, filled column by column from
    the results, then handed to the accumulator. *)
Fixpoint extractLoop (es : list columnExtractor) (results : list Result)
    (data : MapT) : outcome MapT :=
  match es with
  | [] => Done data
  | extractor :: rest =>
    match reader extractor with
    | None =>
      Failed (DatabaseNotFoundForColumn (database extractor) (name extractor))
    | Some _ =>
      if (dbIndex extractor <? 0) || (Z.of_nat (length results) <=? dbIndex extractor)
      then extractLoop rest results data
      else
        match results !! Z.to_nat (dbIndex extractor) with
        | None => Panicked
        | Some result =>
          match DecodePath result (path extractor) with
          | Failed e => Failed (DecodingPath (name extractor) e)
          | Panicked => Panicked
          | Done None => extractLoop rest results data
          | Done (Some value) =>
            extractLoop rest results (<[name extractor := value]> data)
          end
        end
    end
  end.

Definition extractAndProcess (m : Merger) (results : list Result)
    (effectivePrefix : Prefix) (a : Accumulator.Accumulator W MapT) (w : W)
    : Accumulator.Accumulator W MapT * W * outcome unit :=
  match extractLoop (extractors m) results ∅ with
  | Failed e => (a, w, Failed e)
  | Panicked => (a, w, Panicked)
  | Done data =>
    match Accumulator.Process MapRows.isEmpty MapRows.dataEquals IsAdjacent
            a effectivePrefix data w with
    | (a', w', Some err) => (a', w', Failed err)
    | (a', w', None) => (a', w', Done tt)
    end
  end.

Definition Merge (m : Merger) (a : Accumulator.Accumulator W MapT) (w : W)
    : Accumulator.Accumulator W MapT * W * outcome unit :=
  Driver.Merge
    (fun results prefix st => extractAndProcess m results prefix (fst st) (snd st))
    (fun st => Accumulator.Flush (fst st) (snd st))
    (readersList m) (a, w).

End Merger.
Arguments Merger : clear implicits.

(** The names of the readers that declare [version], and the readers that
    declare neither 4 nor 6, as the validator reports them. *)
Definition namesWithVersion (version : Z) (readers : list Reader)
    (names : list string) : list string :=
  snd <$> filter (fun p => IPVersion (fst p) = version) (zip readers names).

Definition unsupportedOf (readers : list Reader) (names : list string)
    : list (string * Z) :=
  (fun p : Reader * string => (snd p, IPVersion (fst p)))
  <$> filter (fun p => IPVersion (fst p) <> 4 /\ IPVersion (fst p) <> 6)
        (zip readers names).

End Merger.

(** ** [src/unnamed/part_006]: the driver that decodes every record once
    and walks it per column *)

Module Merger006.
Import Netip Errors Outcome Config Mmdb Mmdbtype.
Local Open Scope Z_scope.

Record columnExtractor := mkExtractor {
  reader : option Reader;
  path : list segment;
  name : string;
  database : string;
  dbIndex : Z;
  colIndex : nat
}.

(** The loop of [walkPath]; [i] counts the segments walked. *)
Fixpoint walk (current : DataType) (i : nat) (path : list segment)
    : outcome (option DataType) :=
  match path with
  | [] => Done (Some current)
  | seg :: rest =>
    match seg with
    | SegString key =>
      match current with
      | Map m =>
        match m !! key with
        | None => Done None
        | Some val => walk val (S i) rest
        end
      | _ => Failed (ExpectedMap i key (typeName current))
      end
    | SegInt key =>
      match current with
      | Slice s =>
        let idx := if key <? 0 then Z.of_nat (length s) + key else key in
        if (idx <? 0) || (Z.of_nat (length s) <=? idx) then Done None
        else
          match s !! Z.to_nat idx with
          | None => Panicked
          | Some val => walk val (S i) rest
          end
      | _ => Failed (ExpectedSlice i key (typeName current))
      end
    | _ => Failed (UnsupportedSegmentType i)
    end
  end.

(** [walkPath]: [Done None] is "missing", the [nil] value without error. *)
Definition walkPath (root : MapT) (path : list segment)
    : outcome (option DataType) :=
  match path with
  | [] => Done (Some (Map root))
  | _ => walk (Map root) 0 path
  end.

(** Step 1 of [extractAndProcess]: one decode per result; a record that is
    no map counts as no data.  [unmarshalers] is the number of scratch
    decoders. *)
Fixpoint decodeLoop (unmarshalers : nat) (names : list string)
    (results : list Result) (i : nat) : outcome (list (option MapT)) :=
  match results with
  | [] => Done []
  | result :: rest =>
    if (unmarshalers <=? i)%nat then Panicked
    else
      match Decode result with
      | Failed e =>
        match names !! i with
        | Some nm => Failed (DecodingDatabase i nm e)
        | None => Panicked
        end
      | Panicked => Panicked
      | Done value =>
        bind (decodeLoop unmarshalers names rest (S i))
          (fun records =>
             Done (match value with
                   | Some (Map record) => Some record
                   | _ => None
                   end :: records))
      end
  end.

(** Step 2: the column vector; a slot stays [None] when the value is
    missing. *)
Fixpoint extractLoop (es : list columnExtractor)
    (decodedRecords : list (option MapT)) (workingSlice : list (option DataType))
    : outcome (list (option DataType)) :=
  match es with
  | [] => Done workingSlice
  | extractor :: rest =>
    match reader extractor with
    | None =>
      Failed (DatabaseNotFoundForColumn (database extractor) (name extractor))
    | Some _ =>
      if (dbIndex extractor <? 0)
         || (Z.of_nat (length decodedRecords) <=? dbIndex extractor)
      then extractLoop rest decodedRecords workingSlice
      else
        match decodedRecords !! Z.to_nat (dbIndex extractor) with
        | None => Panicked
        | Some None => extractLoop rest decodedRecords workingSlice
        | Some (Some record) =>
          match walkPath record (path extractor) with
          | Failed e => Failed (DecodingPath (name extractor) e)
          | Panicked => Panicked
          | Done None => extractLoop rest decodedRecords workingSlice
          | Done (Some value) =>
            if (colIndex extractor <? length workingSlice)%nat
            then extractLoop rest decodedRecords
                   (<[colIndex extractor := Some value]> workingSlice)
            else Panicked
          end
        end
    end
  end.

Section Merger.
Context {A W : Type}.
(** [Process] and [Flush] of the accumulator of this revision, which is not
    among the files: it takes the column vector. *)
Variable accProcess :
  A -> Prefix -> list (option DataType) -> W -> A * W * option error.
Variable accFlush : A -> W -> A * W * option error.

Record Merger := mkMerger {
  readersList : list Reader;
  dbNamesList : list string;
  extractors : list columnExtractor;
  columns : nat
}.

Definition extractAndProcess (m : Merger) (results : list Result)
    (effectivePrefix : Prefix) (st : A * W) : A * W * outcome unit :=
  match decodeLoop (length (readersList m)) (dbNamesList m) results 0 with
  | Failed e => (st, Failed e)
  | Panicked => (st, Panicked)
  | Done decodedRecords =>
    match extractLoop (extractors m) decodedRecords (replicate (columns m) None) with
    | Failed e => (st, Failed e)
    | Panicked => (st, Panicked)
    | Done workingSlice =>
      match accProcess (fst st) effectivePrefix workingSlice (snd st) with
      | (a', w', Some err) => (a', w', Failed err)
      | (a', w', None) => (a', w', Done tt)
      end
    end
  end.

Definition Merge (m : Merger) (st : A * W) : A * W * outcome unit :=
  Driver.Merge (extractAndProcess m)
    (fun st => accFlush (fst st) (snd st)) (readersList m) st.

End Merger.

End Merger006.

(** ** [internal/writer/mmdb.go]: the nested-output builder, on trees

    Here a map is a value: [make] and [maps.Copy] build a new value and an
    assignment to a key of a fresh map is an insertion.  [MMDBStore] below
    follows the same code on map objects in a store. *)

Module MMDBWriter.
Import Netip Errors Outcome Config Mmdbtype.
Local Open Scope Z_scope.

(** [mergeMaps(dest, source)], by recursion on the source value.  The
    [range] over [source] is the fold of the map: Go leaves the order
    open, and with it which of several conflicts is reported. *)
Fixpoint mergeValue (dest : MapT) (sourceValue : DataType) {struct sourceValue}
    : outcome MapT :=
  match sourceValue with
  | Map source =>
    map_fold (fun key sv (acc : outcome MapT) =>
      bind acc (fun result =>
        match result !! key with
        | Some destValue =>
          match destValue, sv with
          | Map destMap, Map _ =>
            bind (mergeValue destMap sv)
              (fun merged => Done (<[key := Map merged]> result))
          | _, _ =>
            Failed (FieldConflict key (typeName destValue) (typeName sv))
          end
        | None => Done (<[key := sv]> result)
        end)) (Done dest) source
  | _ => Done dest
  end.

Definition mergeMaps (dest source : MapT) : outcome MapT :=
  mergeValue dest (Map source).

(** The part of [mergeNestedValue] after the copy of the root: [current]
    is the map the loop has reached, [path] what is left of the path. *)
Fixpoint setAt (current : MapT) (path : list segment) (value : DataType)
    : outcome MapT :=
  match path with
  | [] => Done current
  | [final] =>
    match final with
    | SegString finalKey =>
      match value, current !! finalKey with
      | Map valueMap, Some existing =>
        match existing with
        | Map existingMap =>
          bind (mergeMaps existingMap valueMap)
            (fun merged => Done (<[finalKey := Map merged]> current))
        | _ => Failed (MergeMapIntoNonMap (typeName existing))
        end
      | _, _ => Done (<[finalKey := value]> current)
      end
    | _ => Failed NonStringFinalKey
    end
  | seg :: rest =>
    match seg with
    | SegString key =>
      match current !! key with
      | Some existing =>
        match existing with
        | Map existingMap =>
          bind (setAt existingMap rest value)
            (fun next => Done (<[key := Map next]> current))
        | _ => Failed (PathConflict key (typeName existing))
        end
      | None =>
        bind (setAt ∅ rest value)
          (fun next => Done (<[key := Map next]> current))
      end
    | _ => Failed NonStringKey
    end
  end.

Definition mergeNestedValue (root : MapT) (path : list segment)
    (value : DataType) : outcome MapT :=
  match path with
  | [] =>
    match value with
    | Map valueMap => mergeMaps root valueMap
    | _ => Failed (NonMapAtRoot (typeName value))
    end
  | _ => setAt root path value
  end.

(** [buildNestedData]: the columns in order; a column without value is
    skipped; the output path defaults to the name of the column. *)
Fixpoint buildLoop (columns : list Column) (flatData : MapT) (root : MapT)
    : outcome MapT :=
  match columns with
  | [] => Done root
  | col :: rest =>
    match flatData !! Name col with
    | None => buildLoop rest flatData root
    | Some value =>
      let path :=
        match OutputPath col with
        | Some p => p
        | None => [SegString (Name col)]
        end in
      match mergeNestedValue root path value with
      | Failed e => Failed (SettingColumn (Name col) e)
      | Panicked => Panicked
      | Done root' => buildLoop rest flatData root'
      end
    end
  end.

Definition buildNestedData (cfg : Config) (flatData : MapT) : outcome MapT :=
  buildLoop (Columns cfg) flatData ∅.

Section Writer.
(** [mmdbwriter.Tree], with [mmdbwriter.New] and [Tree.Insert]. *)
Context {Tree : Type}.
Variable newTree : MMDBOptions -> Z -> outcome Tree.
Variable treeInsert : Prefix -> MapT -> Tree -> Tree * option error.

Record MMDBWriter := mkMMDBWriter {
  tree : Tree;
  config : Config;
  filePath : string
}.

(** [NewMMDBWriter]: the dereference of a [nil] option panics. *)
Definition NewMMDBWriter (outputPath : string) (cfg : Config) (ipVersion : Z)
    : outcome MMDBWriter :=
  if negb (ipVersion =? 4) && negb (ipVersion =? 6)
  then Failed (InvalidIPVersion ipVersion)
  else
    match RecordSize (MMDB cfg), IncludeReservedNetworks (MMDB cfg) with
    | Some _, Some _ =>
      match newTree (MMDB cfg) ipVersion with
      | Failed e => Failed (CreatingMMDBTree e)
      | Panicked => Panicked
      | Done t => Done (mkMMDBWriter t cfg outputPath)
      end
    | _, _ => Panicked
    end.

Definition setTree (w : MMDBWriter) (t : Tree) : MMDBWriter :=
  mkMMDBWriter t (config w) (filePath w).

Definition WriteRow (w : MMDBWriter) (prefix : Prefix) (data : MapT)
    : MMDBWriter * outcome unit :=
  match buildNestedData (config w) data with
  | Failed e => (w, Failed (BuildingNestedData e))
  | Panicked => (w, Panicked)
  | Done nested =>
    match treeInsert prefix nested (tree w) with
    | (t, Some err) => (setTree w t, Failed (Inserting prefix err))
    | (t, None) => (setTree w t, Done tt)
    end
  end.

End Writer.

End MMDBWriter.

(** ** Rows and sinks used in examples *)

Module Examples.
Import Netip Errors Sink Mmdbtype AdjacencySpec.
Local Open Scope Z_scope.

Definition rowUS : MapT := {[ "iso"%string := Leaf (String "US") ]}.
Definition rowDE : MapT := {[ "iso"%string := Leaf (String "DE") ]}.

Definition net_10_0_0_1_32 : Prefix := mkPrefix (v4 10 0 0 1) 32.
Definition net_10_0_0_2_31 : Prefix := mkPrefix (v4 10 0 0 2) 31.
Definition net_10_0_0_0_25 : Prefix := mkPrefix (v4 10 0 0 0) 25.
Definition net_10_0_0_128_25 : Prefix := mkPrefix (v4 10 0 0 128) 25.
Definition net_10_0_1_0_25 : Prefix := mkPrefix (v4 10 0 1 0) 25.

Definition diskFull : error := Opaque "disk full".

(** A reader without networks that declares [version]. *)
Definition emptyReader (version : Z) : Mmdb.Reader :=
  Mmdb.mkReader version [] (fun _ => []).

Definition twoReaders : Mmdb.Readers :=
  {[ "city"%string := emptyReader 4; "anon"%string := emptyReader 6 ]}.

Definition twoColumns : Config.Config :=
  Config.mkConfig
    [Config.mkColumn "iso" "city"
       [Config.SegString "country"; Config.SegString "iso_code"] None;
     Config.mkColumn "is_anonymous" "anon"
       [Config.SegString "is_anonymous"] None]
    None (Config.mkMMDBOptions "Merged" (Some 28) (Some false)).

End Examples.

(** ** The calls the driver makes

    [traced] wraps the row handler of the driver so that every call is kept
    with its arguments; [chain] and [effectiveOf] say which results and
    which prefix the nested iteration can reach. *)

Module DriverSpec.
Import Netip Errors Outcome Mmdb.

Section Traced.
Context {St : Type}.

Definition traced
    (extractAndProcess : list Result -> Prefix -> St -> St * outcome unit)
    (results : list Result) (effectivePrefix : Prefix)
    (st : St * list (list Result * Prefix))
    : (St * list (list Result * Prefix)) * outcome unit :=
  match extractAndProcess results effectivePrefix (fst st) with
  | (st', o) => ((st', snd st ++ [(results, effectivePrefix)]), o)
  end.

Definition tracedFlush (flush : St -> St * option error)
    (st : St * list (list Result * Prefix))
    : (St * list (list Result * Prefix)) * option error :=
  match flush (fst st) with
  | (st', e) => ((st', snd st), e)
  end.

End Traced.

(** The prefix reached from [p] through the networks of [more]. *)
Definition effectiveOf (p : Prefix) (more : list Result) : Prefix :=
  foldl (fun q r => Network.SmallestNetwork q (ResultPrefix r)) p more.

(** [more] holds one result per reader of [rest], each found by its reader
    within the prefix reached before it, and none an iteration error. *)
Fixpoint chain (rest : list Reader) (p : Prefix) (more : list Result) : Prop :=
  match rest, more with
  | [], [] => True
  | rd :: rest', r :: more' =>
    r ∈ NetworksWithin rd p /\ ResultErr r = None
    /\ chain rest' (Network.SmallestNetwork p (ResultPrefix r)) more'
  | _, _ => False
  end.

End DriverSpec.

(** ** [internal/network]: the byte forms of an address

    The functions of the revision in [src/internal/writer/split.go] that
    work on [Addr.As4] and [Addr.As16].  A byte is a number from 0 to 255,
    an array the list of its bytes. *)

Module NetworkBytes.
Import Netip.
Local Open Scope Z_scope.

(** The [n] bytes of [x], the most significant first. *)
Definition bigEndianBytes (n : nat) (x : Z) : list Z :=
  (fun i : nat => Z.land (Z.shiftr x (8 * Z.of_nat (n - 1 - i))) 255) <$> seq 0 n.

(** [binary.BigEndian.Uint32]. *)
Definition bigEndianUint32 (bs : list Z) : Z :=
  match bs with
  | [b0; b1; b2; b3] =>
    Z.lor (Z.lor (Z.lor b3 (Z.shiftl b2 8)) (Z.shiftl b1 16)) (Z.shiftl b0 24)
  | _ => 0
  end.

(** [Addr.As4]: panics on an address that is neither IPv4 nor IPv4-mapped. *)
Definition As4 (ip : Addr) : option (list Z) :=
  if Is4 ip || Is4In6 ip then Some (bigEndianBytes 4 (lo32 ip)) else None.

(** [Addr.As16]: the sixteen bytes of the 128-bit number. *)
Definition As16 (ip : Addr) : list Z := bigEndianBytes 16 (addr ip).

(** [IPv4ToUint32], by its bytes. *)
Definition IPv4ToUint32 (a : Addr) : option Z :=
  if negb (Is4 a) then None
  else
    match As4 a with
    | Some bytes => Some (bigEndianUint32 bytes)
    | None => None
    end.

Definition IPv6ToBytes (a : Addr) : option (list Z) :=
  if negb (Is6 a) then None else Some (As16 a).

(** [copy(dst[at:], src)] on arrays. *)
Definition copyAt (dst : list Z) (at_ : nat) (src : list Z) : list Z :=
  let n := Nat.min (length dst - at_) (length src) in
  take at_ dst ++ take n src ++ drop (at_ + n) dst.

Definition IPv4ToPaddedIPv6 (a : Addr) : option (list Z) :=
  if negb (Is4 a) then None
  else
    match As4 a with
    | Some ipv4Bytes =>
      let result := replicate 16 0 in
      let result := <[10%nat := 0xff]> result in
      let result := <[11%nat := 0xff]> result in
      Some (copyAt result 12 ipv4Bytes)
    | None => None
    end.

End NetworkBytes.

(** ** What a merge of two maps is, and the runs of [mergeMaps]

    [mergeMaps] ranges over a Go map, whose order of iteration is not
    fixed.  [Run] is the loop in every order, at every depth; the function
    [MMDBWriter.mergeMaps] is the run in the order of [map_fold]. *)

Module MergeSpec.
Import Errors Outcome Mmdbtype.

(** [r] holds the keys of both maps: a key of one side with its value, a
    key of both, whose values are maps, with their merge. *)
Inductive Merged : MapT -> MapT -> MapT -> Prop :=
| Merged_intro (dest source r : MapT) :
    (forall k, MergedAt (dest !! k) (source !! k) (r !! k)) ->
    Merged dest source r
with MergedAt : option DataType -> option DataType -> option DataType -> Prop :=
| MergedAt_none : MergedAt None None None
| MergedAt_dest (dv : DataType) : MergedAt (Some dv) None (Some dv)
| MergedAt_source (sv : DataType) : MergedAt None (Some sv) (Some sv)
| MergedAt_both (dm sm m : MapT) :
    Merged dm sm m ->
    MergedAt (Some (Map dm)) (Some (Map sm)) (Some (Map m)).

Definition bothMaps (dv sv : DataType) : Prop :=
  exists dm sm, dv = Map dm /\ sv = Map sm.

(** A key of both maps, here or below keys whose values are maps on both
    sides, with values that are not both maps; [e] is the error that names
    it. *)
Inductive Conflict : MapT -> MapT -> error -> Prop :=
| Conflict_here (dest source : MapT) (k : string) (dv sv : DataType) :
    dest !! k = Some dv -> source !! k = Some sv -> ~ bothMaps dv sv ->
    Conflict dest source (FieldConflict k (typeName dv) (typeName sv))
| Conflict_below (dest source : MapT) (k : string) (dm sm : MapT) (e : error) :
    dest !! k = Some (Map dm) -> source !! k = Some (Map sm) ->
    Conflict dm sm e ->
    Conflict dest source e.

(** The loop of [mergeMaps] over the entries [l], from [result]; [rec] is
    the recursive call. *)
Inductive Loop (rec : MapT -> MapT -> outcome MapT -> Prop)
    : MapT -> list (string * DataType) -> outcome MapT -> Prop :=
| Loop_end (result : MapT) : Loop rec result [] (Done result)
| Loop_add (result : MapT) (key : string) (sv : DataType)
    (l : list (string * DataType)) (o : outcome MapT) :
    result !! key = None ->
    Loop rec (<[key := sv]> result) l o ->
    Loop rec result ((key, sv) :: l) o
| Loop_merge (result : MapT) (key : string) (dm sm merged : MapT)
    (l : list (string * DataType)) (o : outcome MapT) :
    result !! key = Some (Map dm) ->
    rec dm sm (Done merged) ->
    Loop rec (<[key := Map merged]> result) l o ->
    Loop rec result ((key, Map sm) :: l) o
| Loop_return (result : MapT) (key : string) (dm sm : MapT)
    (l : list (string * DataType)) (o : outcome MapT) :
    result !! key = Some (Map dm) ->
    rec dm sm o -> (forall merged, o <> Done merged) ->
    Loop rec result ((key, Map sm) :: l) o
| Loop_conflict (result : MapT) (key : string) (dv sv : DataType)
    (l : list (string * DataType)) :
    result !! key = Some dv -> ~ bothMaps dv sv ->
    Loop rec result ((key, sv) :: l)
      (Failed (FieldConflict key (typeName dv) (typeName sv))).

(** [mergeMaps(dest, source)] with the entries of [source] in any order. *)
#[warnings="-register-all"]
Inductive Run : MapT -> MapT -> outcome MapT -> Prop :=
| Run_intro (dest source : MapT) (l : list (string * DataType))
    (o : outcome MapT) :
    l ≡ₚ map_to_list source -> Loop Run dest l o -> Run dest source o.

End MergeSpec.

(** * Theorems *)

Module NetworkFacts.
Import Netip AdjacencySpec.
Local Open Scope Z_scope.

Lemma Is4_true (a : Addr) : Is4 a = true <-> z a = z4.
Proof. unfold Is4. apply bool_decide_eq_true. Qed.

Lemma Is4_false (a : Addr) : Is4 a = false <-> z a <> z4.
Proof. unfold Is4. apply bool_decide_eq_false. Qed.

Lemma IsValid_true (a : Addr) : IsValid a = true <-> z a <> z0.
Proof.
unfold IsValid. rewrite negb_true_iff. apply bool_decide_eq_false.
Qed.

Lemma lo32_v4 (a : Addr) :
  wfAddr a -> z a = z4 -> addr a = v4base + lo32 a /\ 0 <= lo32 a < two32.
Proof.
unfold wfAddr, lo32. intros Hwf Hz. rewrite Hz in Hwf.
unfold v4base, two32 in *.
assert (Hq : addr a = 2 ^ 32 * (addr a / 2 ^ 32) + addr a mod 2 ^ 32)
  by (apply Z.div_mod; lia).
assert (Hm : 0 <= addr a mod 2 ^ 32 < 2 ^ 32) by (apply Z.mod_pos_bound; lia).
assert (addr a / 2 ^ 32 = 0xffff).
{ symmetry. apply Z.div_unique with (r := addr a - 0xffff00000000); lia. }
lia.
Qed.

Lemma eqb_false_ne (x y : bool) : negb (eqb x y) = false <-> x = y.
Proof. destruct x, y; simpl; split; congruence. Qed.

(** [Addr.Next] on a well-formed valid address is its successor, and the
    zero [Addr] when there is none. *)
Lemma Next_successor (a : Addr) :
  wfAddr a -> IsValid a = true ->
  Next a = match successor a with Some b => b | None => zeroAddr end.
Proof.
intros Hwf Hv. apply IsValid_true in Hv.
unfold Next, successor, value, maxValue, BitLen.
rewrite (proj2 (IsValid_true a) Hv). simpl andb.
unfold Is4 at 1. simpl z.
destruct a as [n zz]. simpl in *. unfold Is4. simpl.
destruct zz as [| | |name]; try congruence.
- rewrite !bool_decide_eq_true_2 by done.
  destruct (lo32_v4 (mkAddr n z4) Hwf eq_refl) as [Hn Hlo].
  unfold lo32, two128, two32, v4base in *. simpl in *.
  assert (Hs : (n + 1) mod 2 ^ 128 = n + 1) by (apply Z.mod_small; lia).
  rewrite Hs.
  destruct (Z.ltb_spec (n mod 2 ^ 32) (2 ^ 32 - 1)) as [Hlt|Hge].
  + assert (Hm : (n + 1) mod 2 ^ 32 = n mod 2 ^ 32 + 1).
    { symmetry. apply Z.mod_unique with (q := 0xffff); lia. }
    rewrite Hm. destruct (Z.eqb_spec (n mod 2 ^ 32 + 1) 0); [lia|done].
  + assert (Hm : (n + 1) mod 2 ^ 32 = 0).
    { symmetry. apply Z.mod_unique with (q := 0x10000); lia. }
    rewrite Hm. done.
- rewrite !bool_decide_eq_false_2 by done.
  unfold wfAddr, two128 in *. simpl in *.
  destruct (Z.ltb_spec n (2 ^ 128 - 1)) as [Hlt|Hge].
  + rewrite Z.mod_small by lia. destruct (Z.eqb_spec (n + 1) 0); [lia|done].
  + assert (n = 2 ^ 128 - 1) by lia. subst n. reflexivity.
- rewrite !bool_decide_eq_false_2 by done.
  unfold wfAddr, two128 in *. simpl in *. destruct Hwf as [Hwf _].
  destruct (Z.ltb_spec n (2 ^ 128 - 1)) as [Hlt|Hge].
  + rewrite Z.mod_small by lia. destruct (Z.eqb_spec (n + 1) 0); [lia|done].
  + assert (n = 2 ^ 128 - 1) by lia. subst n. reflexivity.
Qed.

(** The revision of [part_005] decides exactly "is the successor". *)
Lemma IsAdjacent005_iff (a b : Addr) :
  wfAddr a -> IsValid a = true -> IsValid b = true ->
  Network005.IsAdjacent a b = true <-> successor a = Some b.
Proof.
intros Hwf Ha Hb. unfold Network005.IsAdjacent.
rewrite (Next_successor a Hwf Ha).
destruct (negb (eqb (Is4 a) (Is4 b))) eqn:Hv.
- split; [done|]. intros Hs. exfalso.
  unfold successor in Hs. destruct (IsValid a && _); [|done].
  injection Hs as <-. unfold Is4 in Hv. simpl in Hv.
  destruct (bool_decide (z a = z4)); done.
- rewrite bool_decide_eq_true. destruct (successor a) as [c|].
  + split; congruence.
  + split; [|done]. intros <-. done.
Qed.

(** The revision glued to [split.go] agrees with it except where the
    32-bit addition wraps: from the last IPv4 address to the first. *)
Lemma IsAdjacent_iff_or_wrap (a b : Addr) :
  wfAddr a -> wfAddr b -> IsValid a = true -> IsValid b = true ->
  Network.IsAdjacent a b = true <->
  successor a = Some b
  \/ (Is4 a = true /\ Is4 b = true /\ value a = maxValue a /\ value b = 0).
Proof.
intros Hwa Hwb Ha Hb. unfold Network.IsAdjacent, Network.IPv4ToUint32.
destruct (Is4 a) eqn:H4a.
- destruct (Is4 b) eqn:H4b; simpl.
  + apply Is4_true in H4a, H4b.
    destruct (lo32_v4 a Hwa H4a) as [Hna Hla].
    destruct (lo32_v4 b Hwb H4b) as [Hnb Hlb].
    unfold successor, value, maxValue, BitLen.
    rewrite Ha, (proj2 (Is4_true a) H4a), (proj2 (Is4_true b) H4b), H4a.
    simpl andb. unfold two32 in *. rewrite Z.eqb_eq.
    destruct (Z.ltb_spec (lo32 a) (2 ^ 32 - 1)) as [Hlt|Hge].
    * rewrite Z.mod_small by lia. split.
      -- intros He. left. f_equal. destruct b as [nb zb]. simpl in *.
         subst zb. f_equal. lia.
      -- intros [Hs|(_ & _ & Hm & _)]; [|lia].
         injection Hs as <-. unfold lo32, two32 in *. simpl in *. lia.
    * assert (Hmax : lo32 a = 2 ^ 32 - 1) by lia. rewrite Hmax.
      replace (2 ^ 32 - 1 + 1) with (2 ^ 32) by lia.
      rewrite Z.mod_same by lia. split.
      -- intros He. right. repeat split; lia.
      -- intros [Hs|(_ & _ & _ & Hz)]; [done|lia].
  + simpl. split; [done|]. intros [Hs|(_ & ? & _)]; [|done].
    unfold successor in Hs. rewrite Ha in Hs. simpl in Hs.
    destruct (value a <? maxValue a); [|done]. injection Hs as <-.
    unfold Is4 in *. simpl in *. congruence.
- destruct (Is4 b) eqn:H4b; simpl.
  + split; [done|]. intros [Hs|(? & _)]; [|done].
    unfold successor in Hs. rewrite Ha in Hs. simpl in Hs.
    destruct (value a <? maxValue a); [|done]. injection Hs as <-.
    unfold Is4 in *. simpl in *. congruence.
  + rewrite (Next_successor a Hwa Ha), bool_decide_eq_true.
    destruct (successor a) as [c|].
    * split; [intros ->; by left|]. intros [?|(? & _)]; congruence.
    * split; [intros <-; done|]. intros [?|(? & _)]; congruence.
Qed.

(** Both revisions accept every true successor. *)
Lemma successor_IsAdjacent (a b : Addr) :
  wfAddr a -> wfAddr b -> IsValid a = true -> IsValid b = true ->
  successor a = Some b ->
  Network.IsAdjacent a b = true /\ Network005.IsAdjacent a b = true.
Proof.
intros Hwa Hwb Ha Hb Hs. split.
- apply IsAdjacent_iff_or_wrap; auto.
- apply IsAdjacent005_iff; auto.
Qed.

(** C5 (the defect).  [IsAdjacent] of the revision glued to [split.go] says
    that 0.0.0.0 follows 255.255.255.255, which has no successor: the
    [uint32] sum of its IPv4 branch wraps to zero.  Its IPv6 branch and the
    revision of [part_005] compare with [Addr.Next] and answer false. *)
Theorem IsAdjacent_wraps_at_ipv4_max :
  Network.IsAdjacent (v4 255 255 255 255) (v4 0 0 0 0) = true
  /\ successor (v4 255 255 255 255) = None
  /\ Next (v4 255 255 255 255) = zeroAddr
  /\ Network005.IsAdjacent (v4 255 255 255 255) (v4 0 0 0 0) = false.
Proof. vm_compute. repeat split. Qed.

End NetworkFacts.

(** ** [netipx]: the range to prefixes decomposition *)

Module PrefixesFacts.
Import Netip CidrSpec.
Local Open Scope Z_scope.

Lemma testbit_high (x n i : Z) : 0 <= x < 2 ^ n -> n <= i -> Z.testbit x i = false.
Proof.
intros [H0 Hx] Hi. destruct (Z.eq_dec x 0) as [->|Hne]; [apply Z.bits_0|].
apply Z.bits_above_log2; [lia|].
assert (0 <= n) by (destruct (Z.le_gt_cases 0 n); [done|]; rewrite Z.pow_neg_r in Hx by lia; lia).
assert (Z.log2 x < n) by (apply Z.log2_lt_pow2; lia). lia.
Qed.

Ltac cmp_cases :=
  repeat match goal with
  | |- context [Z.leb ?a ?b] => destruct (Z.leb_spec a b)
  | |- context [Z.ltb ?a ?b] => destruct (Z.ltb_spec a b)
  end;
  simpl; rewrite ?andb_true_r, ?andb_false_r, ?orb_true_r, ?orb_false_r;
  try lia; try reflexivity.

Lemma not128_mask6 (c : Z) : 0 <= c <= 128 -> not128 (mask6 c) = Z.ones (128 - c).
Proof.
intros Hc. unfold not128, mask6. apply Z.bits_inj'. intros i Hi.
rewrite Z.lxor_spec, Z.shiftl_spec by lia.
rewrite !Z.testbit_ones by lia. cmp_cases.
Qed.

Lemma mask6_value (c : Z) : 0 <= c <= 128 -> mask6 c = 2 ^ 128 - 2 ^ (128 - c).
Proof.
intros Hc. unfold mask6. rewrite Z.shiftl_mul_pow2, Z.ones_equiv by lia.
replace (2 ^ 128) with (2 ^ (c + (128 - c))) by (f_equal; lia).
rewrite Z.pow_add_r by lia. lia.
Qed.

Lemma land_mask6 (x c : Z) : 0 <= c <= 128 -> 0 <= x < 2 ^ 128 ->
  Z.land x (mask6 c) = x - x mod 2 ^ (128 - c).
Proof.
intros Hc Hx.
assert (Z.land x (mask6 c) = Z.ldiff x (Z.ones (128 - c))) as ->.
{ unfold mask6. apply Z.bits_inj'. intros i Hi.
  rewrite Z.land_spec, Z.ldiff_spec, Z.shiftl_spec by lia.
  rewrite !Z.testbit_ones by lia.
  destruct (Z.ltb_spec i 128) as [Hlt|Hge].
  - cmp_cases.
  - rewrite (testbit_high x 128 i) by lia. reflexivity. }
rewrite Z.ldiff_ones_r by lia.
rewrite Z.shiftl_mul_pow2, Z.shiftr_div_pow2 by lia.
pose proof (Z.div_mod x (2 ^ (128 - c))).
assert (0 < 2 ^ (128 - c)) by (apply Z.pow_pos_nonneg; lia). lia.
Qed.

Lemma land_ldiff_disjoint (x y : Z) : Z.land (Z.ldiff x y) y = 0.
Proof.
apply Z.bits_inj'. intros i Hi. rewrite Z.land_spec, Z.ldiff_spec, Z.bits_0.
destruct (Z.testbit y i), (Z.testbit x i); reflexivity.
Qed.

Lemma lor_ones (x k : Z) : 0 <= k -> 0 <= x ->
  Z.lor x (Z.ones k) = x - x mod 2 ^ k + 2 ^ k - 1.
Proof.
intros Hk Hx.
assert (0 < 2 ^ k) by (apply Z.pow_pos_nonneg; lia).
rewrite <- (Z.lor_ldiff_and x (Z.ones k)) at 1.
rewrite <- Z.lor_assoc.
assert (Z.lor (Z.land x (Z.ones k)) (Z.ones k) = Z.ones k) as ->.
{ apply Z.bits_inj'. intros i Hi. rewrite Z.lor_spec, Z.land_spec.
  destruct (Z.testbit (Z.ones k) i), (Z.testbit x i); reflexivity. }
rewrite <- Z.lxor_lor, <- Z.add_nocarry_lxor by apply land_ldiff_disjoint.
rewrite Z.ldiff_ones_r, Z.shiftl_mul_pow2, Z.shiftr_div_pow2, Z.ones_equiv by lia.
pose proof (Z.div_mod x (2 ^ k)). lia.
Qed.

Lemma lor_mask6 (x c : Z) : 0 <= c <= 128 -> 0 <= x < 2 ^ 128 ->
  Z.lor x (mask6 c) = 2 ^ 128 - 2 ^ (128 - c) + x mod 2 ^ (128 - c).
Proof.
intros Hc Hx.
assert (0 < 2 ^ (128 - c)) by (apply Z.pow_pos_nonneg; lia).
pose proof (mask6_value c Hc) as Hm.
assert (Hd : Z.land (mask6 c) (Z.land x (Z.ones (128 - c))) = 0).
{ unfold mask6. apply Z.bits_inj'. intros i Hi.
  rewrite !Z.land_spec, Z.shiftl_spec, Z.bits_0 by lia.
  rewrite !Z.testbit_ones by lia. cmp_cases. }
assert (Z.lor x (mask6 c) = Z.lor (mask6 c) (Z.land x (Z.ones (128 - c)))) as ->.
{ unfold mask6. apply Z.bits_inj'. intros i Hi.
  rewrite !Z.lor_spec, Z.land_spec, Z.shiftl_spec by lia.
  rewrite !Z.testbit_ones by lia.
  destruct (Z.ltb_spec i 128) as [Hlt|Hge].
  - cmp_cases.
  - rewrite (testbit_high x 128 i) by lia. cmp_cases. }
rewrite <- Z.lxor_lor, <- Z.add_nocarry_lxor by exact Hd.
rewrite Z.land_ones by lia. lia.
Qed.

Lemma pow2_pos (n : Z) : 0 <= n -> 0 < 2 ^ n.
Proof. intros. apply Z.pow_pos_nonneg; lia. Qed.

Lemma bitLength_nonneg (x : Z) : 0 <= bitLength x.
Proof.
unfold bitLength. destruct (Z.eqb_spec x 0); [lia|].
pose proof (Z.log2_nonneg x). lia.
Qed.

Lemma bitLength_upper (x : Z) : 0 <= x -> x < 2 ^ bitLength x.
Proof.
intros Hx. unfold bitLength. destruct (Z.eqb_spec x 0) as [->|Hne]; [simpl; lia|].
apply Z.log2_spec. lia.
Qed.

Lemma bitLength_lower (x : Z) : 0 < x -> 2 ^ (bitLength x - 1) <= x.
Proof.
intros Hx. unfold bitLength. destruct (Z.eqb_spec x 0) as [->|Hne]; [lia|].
replace (Z.log2 x + 1 - 1) with (Z.log2 x) by lia. apply Z.log2_spec. lia.
Qed.

Lemma bitLength_le (x n : Z) : 0 <= x < 2 ^ n -> 0 <= n -> bitLength x <= n.
Proof.
intros Hx Hn. unfold bitLength. destruct (Z.eqb_spec x 0) as [->|Hne]; [lia|].
assert (Z.log2 x < n) by (apply Z.log2_lt_pow2; lia). lia.
Qed.

Lemma lxor_small_iff (x y n : Z) : 0 <= x -> 0 <= y -> 0 <= n ->
  Z.lxor x y < 2 ^ n <-> x / 2 ^ n = y / 2 ^ n.
Proof.
intros Hx Hy Hn. pose proof (pow2_pos n Hn).
assert (Hl : 0 <= Z.lxor x y) by (apply Z.lxor_nonneg; lia).
rewrite <- !Z.shiftr_div_pow2 by lia.
rewrite <- Z.lxor_eq_0_iff, <- Z.shiftr_lxor, Z.shiftr_div_pow2 by lia.
split.
- intros. apply Z.div_small. lia.
- intros Hd. apply Z.div_small_iff in Hd; lia.
Qed.

(** The arithmetic reading of [comparePrefixes]. *)
Lemma comparePrefixes_spec (a b : Z) :
  0 <= a -> a <= b -> b < 2 ^ 128 ->
  let n := bitLength (Z.lxor a b) in
  0 <= n <= 128
  /\ a / 2 ^ n = b / 2 ^ n
  /\ comparePrefixes a b
     = (128 - n, (a mod 2 ^ n =? 0) && (b mod 2 ^ n =? 2 ^ n - 1)).
Proof.
intros Ha Hab Hb n.
assert (Hl : 0 <= Z.lxor a b) by (apply Z.lxor_nonneg; lia).
assert (Hn0 : 0 <= n) by apply bitLength_nonneg.
assert (Hlt : Z.lxor a b < 2 ^ 128).
{ apply lxor_small_iff; try lia. rewrite !Z.div_small; lia. }
assert (Hn : n <= 128) by (apply bitLength_le; lia).
assert (Hdiv : a / 2 ^ n = b / 2 ^ n).
{ apply lxor_small_iff; try lia. by apply bitLength_upper. }
repeat split; try done.
unfold comparePrefixes, commonPrefixLen. fold n.
destruct (Z.eqb_spec (128 - n) 128) as [He|Hne].
- assert (n = 0) as -> by lia. simpl. rewrite !Z.mod_1_r. reflexivity.
- f_equal. rewrite land_mask6, lor_mask6 by lia.
  replace (128 - (128 - n)) with n by lia.
  pose proof (pow2_pos n Hn0).
  pose proof (Z.mod_pos_bound a (2 ^ n)). pose proof (Z.mod_pos_bound b (2 ^ n)).
  f_equal.
  + destruct (Z.eqb_spec (a mod 2 ^ n) 0) as [E|E].
    * rewrite E, Z.sub_0_r, Z.lxor_nilpotent. reflexivity.
    * destruct (Z.eqb_spec (Z.lxor a (a - a mod 2 ^ n)) 0) as [E'|E']; [|done].
      apply (proj1 (Z.lxor_eq_0_iff _ _)) in E'. lia.
  + rewrite Z.ones_equiv.
    destruct (Z.eqb_spec (b mod 2 ^ n) (2 ^ n - 1)) as [E|E];
      destruct (Z.eqb_spec (2 ^ 128 - 2 ^ n + b mod 2 ^ n) (Z.pred (2 ^ 128))); lia.
Qed.

Lemma tiles_app (a m b : Z) (l1 l2 : list (Z * Z)) :
  m <= b -> tiles a m l1 -> tiles (m + 1) b l2 -> tiles a b (l1 ++ l2).
Proof.
intros Hmb. revert a. induction l1 as [|blk l1 IH]; intros a; simpl.
- intros ->. done.
- intros (Hb & Hf & Hl & Ht) H2. split; [done|]. split; [done|]. split; [lia|]. by apply IH.
Qed.

Lemma tiles_le (a b : Z) (l : list (Z * Z)) : tiles a b l -> a <= b + 1.
Proof.
revert a. induction l as [|blk l IH]; intros a; simpl; [lia|].
intros ((Hc & H0 & Hl & Hm) & Hf & Hle & Ht).
unfold blockLast, blockSize in *. pose proof (pow2_pos (128 - snd blk)). lia.
Qed.

Lemma tiles_within (a b : Z) (l : list (Z * Z)) :
  tiles a b l -> Forall (fun blk => a <= fst blk /\ blockLast blk <= b) l.
Proof.
revert a. induction l as [|blk l IH]; intros a; simpl; [constructor|].
intros ((Hc & H0 & Hl & Hm) & Hf & Hle & Ht). constructor; [lia|].
eapply Forall_impl; [by apply IH|]. simpl. intros x [? ?].
unfold blockLast, blockSize in *. pose proof (pow2_pos (128 - snd blk)). lia.
Qed.

(** An aligned block of [2 ^ j] numbers that holds [m] holds the whole
    aligned block of [2 ^ n] numbers around [m] when [n <= j]. *)
Lemma aligned_contains (x j n m P : Z) :
  0 <= n <= j ->
  x mod 2 ^ j = 0 -> x <= m < x + 2 ^ j ->
  P * 2 ^ n <= m < (P + 1) * 2 ^ n ->
  x <= P * 2 ^ n /\ (P + 1) * 2 ^ n <= x + 2 ^ j.
Proof.
intros Hnj Hx Hm HP.
assert (Hj : 2 ^ j = 2 ^ n * 2 ^ (j - n)).
{ rewrite <- Z.pow_add_r by lia. f_equal. lia. }
pose proof (pow2_pos n). pose proof (pow2_pos (j - n)). pose proof (pow2_pos j).
apply Z.mod_divide in Hx; [|lia]. destruct Hx as [q ->].
rewrite Hj in *. set (t := 2 ^ (j - n)) in *. set (s := 2 ^ n) in *.
assert (q * t < P + 1) by nia. assert (P < (q + 1) * t) by nia.
split; nia.
Qed.

(** An aligned block of [2 ^ j] numbers cannot hold both sides of an odd
    multiple of [2 ^ k] unless [k < j]. *)
Lemma aligned_straddle (x j k P : Z) :
  0 <= j -> 0 <= k ->
  x mod 2 ^ j = 0 ->
  x <= (2 * P + 1) * 2 ^ k - 1 -> (2 * P + 1) * 2 ^ k < x + 2 ^ j ->
  k < j.
Proof.
intros Hj Hk Hx H1 H2. destruct (Z.lt_ge_cases k j) as [|Hge]; [done|exfalso].
assert (Hkj : 2 ^ k = 2 ^ j * 2 ^ (k - j)).
{ rewrite <- Z.pow_add_r by lia. f_equal. lia. }
pose proof (pow2_pos j). pose proof (pow2_pos (k - j)).
apply Z.mod_divide in Hx; [|lia]. destruct Hx as [q ->].
rewrite Hkj in *. set (t := 2 ^ (k - j)) in *. set (s := 2 ^ j) in *.
assert (q < (2 * P + 1) * t) by nia. assert ((2 * P + 1) * t < q + 1) by nia.
lia.
Qed.

(** The two halves [appendRangePrefixes] recurses on, in arithmetic. *)
Lemma split_point (a b : Z) :
  0 <= a -> a <= b -> b < 2 ^ 128 ->
  let n := bitLength (Z.lxor a b) in
  0 < n ->
  let k := n - 1 in
  exists P,
    a / 2 ^ k = 2 * P /\ b / 2 ^ k = 2 * P + 1
    /\ bitsSetFrom a (128 - n + 1) = (2 * P + 1) * 2 ^ k - 1
    /\ bitsClearedFrom b (128 - n + 1) = (2 * P + 1) * 2 ^ k.
Proof.
intros Ha Hab Hb n Hn k.
destruct (comparePrefixes_spec a b Ha Hab Hb) as ((_ & Hn128) & Hdiv & _).
fold n in Hn128, Hdiv.
assert (Hk : 0 <= k) by (unfold k; lia).
assert (Hnk : 2 ^ n = 2 * 2 ^ k).
{ replace n with (1 + k) by (unfold k; lia). rewrite Z.pow_add_r by lia. reflexivity. }
pose proof (pow2_pos k Hk) as Hs.
assert (Hl : 0 <= Z.lxor a b) by (apply Z.lxor_nonneg; lia).
assert (Hpos : 0 < Z.lxor a b).
{ destruct (Z.eq_dec (Z.lxor a b) 0) as [E|E]; [|lia].
  unfold n, bitLength in Hn. rewrite E in Hn. simpl in Hn. lia. }
pose proof (bitLength_lower _ Hpos) as Hlow. fold n in Hlow. fold k in Hlow.
assert (Hne : a / 2 ^ k <> b / 2 ^ k).
{ intros E. apply lxor_small_iff in E; lia. }
assert (Hle : a / 2 ^ k <= b / 2 ^ k) by (apply Z.div_le_mono; lia).
set (P := a / 2 ^ n) in *.
pose proof (Z.div_mod a (2 ^ n)) as Hda. pose proof (Z.div_mod b (2 ^ n)) as Hdb.
pose proof (Z.mod_pos_bound a (2 ^ n)) as Hma.
pose proof (Z.mod_pos_bound b (2 ^ n)) as Hmb.
rewrite <- Hdiv in Hdb. fold P in Hda.
assert (H2P : 2 * P <= a / 2 ^ k) by (apply Z.div_le_lower_bound; nia).
assert (H2P' : b / 2 ^ k < 2 * P + 2) by (apply Z.div_lt_upper_bound; nia).
assert (Eak : a / 2 ^ k = 2 * P) by lia.
assert (Ebk : b / 2 ^ k = 2 * P + 1) by lia.
exists P. split; [done|]. split; [done|].
pose proof (Z.div_mod a (2 ^ k)) as Hda'. pose proof (Z.div_mod b (2 ^ k)) as Hdb'.
unfold bitsSetFrom, bitsClearedFrom.
replace (128 - n + 1) with (128 - k) by (unfold k; lia).
rewrite not128_mask6, lor_ones, land_mask6 by lia.
replace (128 - (128 - k)) with k by lia.
split; nia.
Qed.

Lemma bitLength_same_half (x y k : Z) :
  0 <= x -> 0 <= y -> 0 <= k -> x / 2 ^ k = y / 2 ^ k ->
  bitLength (Z.lxor x y) <= k.
Proof.
intros Hx Hy Hk E. apply bitLength_le; [|done]. split.
- apply Z.lxor_nonneg. lia.
- by apply lxor_small_iff.
Qed.

Lemma tiles_blocks (a b : Z) (l : list (Z * Z)) :
  tiles a b l -> Forall isBlock l.
Proof.
revert a. induction l as [|blk l IH]; intros a; simpl; [constructor|].
intros (Hblk & _ & _ & Ht). constructor; [done|]. by eapply IH.
Qed.

Lemma parent_aligned (blk : Z * Z) :
  0 <= snd blk <= 128 ->
  let j := 128 - snd blk + 1 in
  2 * blockSize blk = 2 ^ j
  /\ parentFirst blk mod 2 ^ j = 0
  /\ parentFirst blk <= fst blk < parentFirst blk + 2 ^ j.
Proof.
intros Hc j. unfold parentFirst, blockSize.
assert (Hj : 2 * 2 ^ (128 - snd blk) = 2 ^ j).
{ unfold j. rewrite Z.pow_add_r by lia. lia. }
rewrite Hj. pose proof (pow2_pos j ltac:(unfold j; lia)) as Hp.
pose proof (Z.div_mod (fst blk) (2 ^ j)) as Hd.
pose proof (Z.mod_pos_bound (fst blk) (2 ^ j)) as Hm.
split; [done|]. split; [|lia].
replace (fst blk - fst blk mod 2 ^ j) with (fst blk / 2 ^ j * 2 ^ j) by lia.
apply Z.mod_mul. lia.
Qed.

(** A block that is maximal in one half of [a..b] is maximal in [a..b],
    unless [a..b] is a block itself. *)
Lemma maximal_lift (a b a' b' k P : Z) (blk : Z * Z) :
  0 <= k ->
  2 * P * 2 ^ k <= a -> b < (2 * P + 2) * 2 ^ k ->
  ~ (a = 2 * P * 2 ^ k /\ b = (2 * P + 2) * 2 ^ k - 1) ->
  (a' = a /\ b' = (2 * P + 1) * 2 ^ k - 1)
  \/ (a' = (2 * P + 1) * 2 ^ k /\ b' = b) ->
  isBlock blk -> a' <= fst blk -> blockLast blk <= b' ->
  maximalIn a' b' blk -> maximalIn a b blk.
Proof.
intros Hk Ha Hb Hnot Hhalf (Hc & Hx0 & Hl128 & Hal) Hfst Hlast [Hz|Hmax];
  [by left|right].
intros [Hpf Hpl]. destruct (parent_aligned blk Hc) as (Hsz & Hpa & Hpx).
set (j := 128 - snd blk + 1) in *. unfold parentLast in *. rewrite Hsz in *.
set (pf := parentFirst blk) in *. set (mid1 := (2 * P + 1) * 2 ^ k) in *.
pose proof (pow2_pos k Hk) as Hs.
assert (Hbs : 0 < blockSize blk) by (apply pow2_pos; lia).
unfold blockLast in *.
assert (Hstr : pf <= mid1 - 1 /\ mid1 < pf + 2 ^ j).
{ destruct Hhalf as [[-> ->]|[-> ->]].
  - split; [lia|]. destruct (Z.lt_ge_cases mid1 (pf + 2 ^ j)); [done|].
    exfalso. apply Hmax. lia.
  - split; [|lia]. destruct (Z.le_gt_cases pf (mid1 - 1)); [done|].
    exfalso. apply Hmax. lia. }
destruct Hstr as [Hs1 Hs2].
assert (Hkj : k < j) by (apply (aligned_straddle pf j k P); fold mid1; lia).
assert (Hn : 2 ^ (k + 1) = 2 * 2 ^ k) by (rewrite Z.pow_add_r by lia; lia).
destruct (aligned_contains pf j (k + 1) (mid1 - 1) P) as [Hc1 Hc2];
  [lia|done|lia|unfold mid1; rewrite Hn; lia|].
rewrite Hn in Hc1, Hc2. apply Hnot. lia.
Qed.

Lemma appendRangePrefixes_canonical (fuel : nat) (a b : Z) :
  0 <= a -> a <= b -> b < 2 ^ 128 ->
  (Z.to_nat (bitLength (Z.lxor a b)) < fuel)%nat ->
  canonicalCover a b (appendRangePrefixes fuel a b).
Proof.
revert a b. induction fuel as [|fuel IH]; intros a b Ha Hab Hb Hfuel; [lia|].
simpl.
destruct (comparePrefixes_spec a b Ha Hab Hb) as ((Hn0 & Hn128) & Hdiv & ->).
set (n := bitLength (Z.lxor a b)) in *.
pose proof (pow2_pos n Hn0) as Hpn.
pose proof (Z.div_mod a (2 ^ n)) as Hda. pose proof (Z.div_mod b (2 ^ n)) as Hdb.
pose proof (Z.mod_pos_bound a (2 ^ n)) as Hma.
pose proof (Z.mod_pos_bound b (2 ^ n)) as Hmb.
assert (Hsplit : ~ (a mod 2 ^ n = 0 /\ b mod 2 ^ n = 2 ^ n - 1) ->
  canonicalCover a b
    (appendRangePrefixes fuel a (bitsSetFrom a (128 - n + 1))
     ++ appendRangePrefixes fuel (bitsClearedFrom b (128 - n + 1)) b)).
{ intros Hnot.
  assert (Hn : 0 < n).
  { destruct (Z.eq_dec n 0) as [E|E]; [|lia]. exfalso. apply Hnot.
    rewrite E. simpl. rewrite !Z.mod_1_r. lia. }
  destruct (split_point a b Ha Hab Hb Hn) as (P & Eak & Ebk & Es & Ec).
  fold n in Eak, Ebk, Es, Ec. rewrite Es, Ec. clear Es Ec.
  set (k := n - 1) in *.
  assert (Hk : 0 <= k) by (unfold k; lia).
  assert (Hnk : 2 ^ n = 2 * 2 ^ k).
  { replace n with (1 + k) by (unfold k; lia). rewrite Z.pow_add_r by lia. reflexivity. }
  pose proof (pow2_pos k Hk) as Hs.
  pose proof (Z.div_mod a (2 ^ k)) as Hda'. pose proof (Z.div_mod b (2 ^ k)) as Hdb'.
  pose proof (Z.mod_pos_bound a (2 ^ k)) as Hma'.
  pose proof (Z.mod_pos_bound b (2 ^ k)) as Hmb'.
  set (mid1 := (2 * P + 1) * 2 ^ k) in *.
  assert (HP : a / 2 ^ n = P).
  { symmetry. apply Z.div_unique with (r := a mod 2 ^ k); nia. }
  assert (Hm1 : (mid1 - 1) / 2 ^ k = 2 * P).
  { symmetry. apply Z.div_unique with (r := 2 ^ k - 1); unfold mid1; lia. }
  assert (Hm2 : mid1 / 2 ^ k = 2 * P + 1).
  { symmetry. apply Z.div_unique with (r := 0); unfold mid1; lia. }
  assert (Hnot' : ~ (a = 2 * P * 2 ^ k /\ b = (2 * P + 2) * 2 ^ k - 1)).
  { intros [E1 E2]. apply Hnot. rewrite <- Hdiv, HP in Hdb. rewrite HP in Hda. nia. }
  destruct (IH a (mid1 - 1)) as [Ht1 Hx1]; [lia|lia|lia| |].
  { pose proof (bitLength_same_half a (mid1 - 1) k). lia. }
  destruct (IH mid1 b) as [Ht2 Hx2]; [lia|lia|lia| |].
  { pose proof (bitLength_same_half mid1 b k). lia. }
  assert (HaP : 2 * P * 2 ^ k <= a) by lia.
  assert (HbP : b < (2 * P + 2) * 2 ^ k) by lia.
  assert (Hmid : mid1 - 1 <= b) by lia.
  split.
  - apply tiles_app with (m := mid1 - 1); [done|done|].
    by replace (mid1 - 1 + 1) with mid1 by lia.
  - apply Forall_app. split.
    + pose proof (tiles_blocks _ _ _ Ht1) as Hb1.
      pose proof (tiles_within _ _ _ Ht1) as Hw1.
      rewrite Forall_forall in *. intros blk Hin.
      apply (maximal_lift a b a (mid1 - 1) k P blk Hk HaP HbP Hnot').
      * by left.
      * by apply Hb1.
      * by apply Hw1.
      * by apply Hw1.
      * by apply Hx1.
    + pose proof (tiles_blocks _ _ _ Ht2) as Hb2.
      pose proof (tiles_within _ _ _ Ht2) as Hw2.
      rewrite Forall_forall in *. intros blk Hin.
      apply (maximal_lift a b mid1 b k P blk Hk HaP HbP Hnot').
      * by right.
      * by apply Hb2.
      * by apply Hw2.
      * by apply Hw2.
      * by apply Hx2. }
destruct (Z.eqb_spec (a mod 2 ^ n) 0) as [Ea|Ea];
  [destruct (Z.eqb_spec (b mod 2 ^ n) (2 ^ n - 1)) as [Eb|Eb]|]; simpl.
- (* one block *)
  assert (Hbl : blockLast (a, 128 - n) = b).
  { unfold blockLast, blockSize. simpl. replace (128 - (128 - n)) with n by lia.
    rewrite <- Hdiv in Hdb. lia. }
  split.
  + simpl. rewrite Hbl. repeat split; simpl; try lia.
    unfold blockSize. simpl. by replace (128 - (128 - n)) with n by lia.
  + constructor; [|constructor].
    unfold maximalIn, parentLast, parentFirst, blockLast, blockSize in *.
    simpl in *. replace (128 - (128 - n)) with n in * by lia.
    right. pose proof (Z.mod_pos_bound a (2 * 2 ^ n)). lia.
- apply Hsplit. lia.
- apply Hsplit. lia.
Qed.

Lemma appendRangePrefixes_fuel (a b : Z) :
  0 <= a -> a <= b -> b < 2 ^ 128 ->
  canonicalCover a b (appendRangePrefixes 129 a b).
Proof.
intros Ha Hab Hb. apply appendRangePrefixes_canonical; try done.
destruct (comparePrefixes_spec a b Ha Hab Hb) as ((Hn0 & Hn128) & _).
lia.
Qed.

(** What a valid range of well-formed addresses is. *)
Lemma IPRangeIsValid_inv (from to : Addr) :
  wfAddr from -> wfAddr to -> IPRangeIsValid from to = true ->
  0 <= addr from /\ addr from <= addr to /\ addr to < 2 ^ 128
  /\ Is4 to = Is4 from
  /\ (Is4 from = true -> v4base <= addr from /\ addr to < v4base + two32).
Proof.
unfold IPRangeIsValid, wfAddr, IsValid, BitLen, Is4, two128, two32, v4base.
intros Hf Ht Hv.
apply andb_true_iff in Hv as [Hv Hle]. apply andb_true_iff in Hv as [Hv Hz].
apply andb_true_iff in Hv as [Hv Hb].
apply negb_true_iff, bool_decide_eq_false in Hv.
apply Z.eqb_eq in Hb. apply negb_true_iff, Z.ltb_ge in Hle.
destruct from as [af zf], to as [at' zt]. simpl in *.
destruct zf as [| | |nf]; [done| | |]; destruct zt as [| | |nt]; try done;
  simpl; rewrite ?bool_decide_eq_true_2, ?bool_decide_eq_false_2 by done;
  repeat split; try lia; try done.
Qed.

Lemma block_prefix_facts (from : Addr) (blk : Z * Z) (lo hi : Z) :
  isBlock blk -> lo <= fst blk -> blockLast blk <= hi ->
  (if Is4 from then v4base <= lo /\ hi < v4base + two32 else True) ->
  let p := prefixFrom128AndBits from blk in
  prefixBlock p = blk
  /\ PrefixIsValid p = true
  /\ z (ip p) = (if Is4 from then z4 else z6noz)
  /\ wfAddr (ip p)
  /\ PrefixLastIP p = mkAddr (blockLast blk) (z (ip p)).
Proof.
intros (Hc & Hx0 & Hl128 & Hal) Hlo Hhi Hv4 p. unfold p, prefixFrom128AndBits.
destruct blk as [x c]. simpl in *. unfold blockLast, blockSize in *. simpl in *.
pose proof (pow2_pos (128 - c) ltac:(lia)) as Hs.
destruct (Is4 from) eqn:H4.
- destruct Hv4 as [Hv1 Hv2]. unfold v4base, two32 in *.
  assert (Hc96 : 96 <= c).
  { destruct (Z.le_gt_cases 96 c); [done|exfalso].
    assert (2 ^ 33 <= 2 ^ (128 - c)) by (apply Z.pow_le_mono_r; lia). lia. }
  unfold prefixBlock, PrefixIsValid, PrefixLastIP, PrefixIsValid, IsValid, Is4, BitLen, wfAddr.
  simpl.
  replace (c - 96 + 96) with c by lia.
  split; [done|].
  assert (Hb1 : (0 <=? c - 96) = true) by (apply Z.leb_le; lia).
  assert (Hb2 : (c - 96 <=? 32) = true) by (apply Z.leb_le; lia).
  rewrite Hb1, Hb2. simpl.
  split; [done|]. split; [done|]. split; [unfold v4base, two32; lia|].
  replace (32 - (c - 96)) with (128 - c) by lia.
  rewrite lor_ones by lia. rewrite Hal.
  unfold Unmap, Is4In6, Is6, AddrFrom16. cbn [addr z].
  assert (Hsh : (Z.shiftr (x - 0 + 2 ^ (128 - c) - 1) 32 =? 0xffff) = true).
  { apply Z.eqb_eq. rewrite Z.shiftr_div_pow2 by lia.
    symmetry. apply Z.div_unique with (r := x + 2 ^ (128 - c) - 1 - 0xffff00000000); lia. }
  rewrite Hsh. cbn [negb andb]. rewrite !bool_decide_eq_false_2 by done.
  cbn [negb andb]. f_equal. lia.
- unfold prefixBlock, PrefixIsValid, PrefixLastIP, PrefixIsValid, IsValid, Is4, BitLen, wfAddr.
  simpl.
  split; [done|].
  assert (Hb1 : (0 <=? c) = true) by (apply Z.leb_le; lia).
  assert (Hb2 : (c <=? 128) = true) by (apply Z.leb_le; lia).
  rewrite Hb1, Hb2. simpl.
  split; [done|]. split; [done|]. split; [unfold two128; lia|].
  rewrite lor_ones by lia. rewrite Hal. unfold AddrFrom16. f_equal. lia.
Qed.

(** [Prefixes] of a valid range is its canonical cover. *)
Lemma Prefixes_canonical (from to : Addr) :
  wfAddr from -> wfAddr to -> IPRangeIsValid from to = true ->
  isCanonicalCover from to (Prefixes from to).
Proof.
intros Hf Ht Hv. unfold Prefixes. rewrite Hv.
destruct (IPRangeIsValid_inv from to Hf Ht Hv) as (H0 & Hle & H128 & H4 & Hv4).
destruct (appendRangePrefixes_fuel _ _ H0 Hle H128) as [Htl Hmx].
set (l := appendRangePrefixes 129 (addr from) (addr to)) in *.
pose proof (tiles_blocks _ _ _ Htl) as Hbl.
pose proof (tiles_within _ _ _ Htl) as Hwi.
assert (Hall : Forall (fun blk =>
  let p := prefixFrom128AndBits from blk in
  prefixBlock p = blk
  /\ PrefixIsValid p = true
  /\ z (ip p) = (if Is4 from then z4 else z6noz)
  /\ wfAddr (ip p)
  /\ PrefixLastIP p = mkAddr (blockLast blk) (z (ip p))) l).
{ rewrite Forall_forall in *. intros blk Hin.
  apply (block_prefix_facts from blk (addr from) (addr to)).
  - by apply Hbl.
  - by apply Hwi.
  - by apply Hwi.
  - destruct (Is4 from); [by apply Hv4|done]. }
assert (Hid : prefixBlock <$> (prefixFrom128AndBits from <$> l) = l).
{ rewrite <- list_fmap_compose. rewrite <- (list_fmap_id l) at 2.
  apply Forall_fmap_ext_1. eapply Forall_impl; [exact Hall|].
  simpl. by intros blk (? & _). }
split.
- rewrite Hid. by split.
- rewrite Forall_fmap. eapply Forall_impl; [exact Hall|].
  simpl. intros blk (E & ? & ? & ? & El). rewrite E. done.
Qed.

Lemma blockSize_pos (blk : Z * Z) : snd blk <= 128 -> 0 < blockSize blk.
Proof. intros. unfold blockSize. apply pow2_pos. lia. Qed.

(** A block that starts inside a larger block lies, with its parent, inside
    the larger block. *)
Lemma larger_block_contains_parent (blk big : Z * Z) :
  isBlock blk -> isBlock big ->
  fst big <= fst blk <= blockLast big ->
  blockSize blk < blockSize big ->
  fst big <= parentFirst blk /\ parentLast blk <= blockLast big.
Proof.
intros (Hc & Hx0 & _ & Hal) (HC & HX0 & _ & HAL) Hin Hsz.
destruct (parent_aligned blk Hc) as (Hps & Hpa & Hpx).
unfold parentLast, blockLast, blockSize in *. rewrite Hps.
set (j := 128 - snd blk + 1) in *. set (J := 128 - snd big) in *.
assert (HjJ : j <= J).
{ destruct (Z.le_gt_cases j J); [done|exfalso].
  assert (2 ^ J <= 2 ^ (128 - snd blk)) by (apply Z.pow_le_mono_r; lia). lia. }
pose proof (pow2_pos j ltac:(unfold j; lia)) as Hpj.
destruct (aligned_contains (fst big) J j (fst blk) (fst blk / 2 ^ j)) as [H1 H2];
  [unfold j in *; lia|done|lia| |].
- pose proof (Z.div_mod (fst blk) (2 ^ j)). pose proof (Z.mod_pos_bound (fst blk) (2 ^ j)). lia.
- unfold parentFirst, blockSize. rewrite Hps.
  pose proof (Z.div_mod (fst blk) (2 ^ j)). lia.
Qed.

(** A block that starts inside a block that is not smaller lies inside it. *)
Lemma smaller_block_inside (blk big : Z * Z) :
  isBlock blk -> isBlock big ->
  fst big <= fst blk <= blockLast big ->
  blockSize blk <= blockSize big ->
  blockLast blk <= blockLast big.
Proof.
intros (Hc & Hx0 & _ & Hal) (HC & HX0 & _ & HAL) Hin Hsz.
unfold blockLast, blockSize in *.
set (j := 128 - snd blk) in *. set (J := 128 - snd big) in *.
assert (HjJ : j <= J).
{ destruct (Z.le_gt_cases j J); [done|exfalso].
  assert (2 ^ (J + 1) <= 2 ^ j) by (apply Z.pow_le_mono_r; lia).
  rewrite Z.pow_add_r in * by (unfold J; lia). pose proof (pow2_pos J ltac:(unfold J; lia)). lia. }
pose proof (pow2_pos j ltac:(unfold j; lia)) as Hpj.
apply Z.mod_divide in Hal; [|lia]. destruct Hal as [q Hq].
destruct (aligned_contains (fst big) J j (fst blk) q) as [H1 H2];
  [unfold j in *; lia|done|lia|lia|]. lia.
Qed.

Lemma tiles_cut (blk0 : Z * Z) (b : Z) (l : list (Z * Z)) (a' : Z) :
  fst blk0 <= a' <= blockLast blk0 -> blockLast blk0 <= b ->
  tiles a' b l ->
  Forall (fun B => fst blk0 <= fst B <= blockLast blk0 ->
                   blockLast B <= blockLast blk0) l ->
  exists l1 l2, l = l1 ++ l2 /\ l1 <> [] /\ tiles (blockLast blk0 + 1) b l2.
Proof.
intros Ha' Hb. revert a' Ha'. induction l as [|B l IH]; intros a' Ha'; simpl.
- intros -> _. lia.
- intros (HB & Hf & Hl & Ht) Hall. inversion Hall as [|? ? HBin Hall']. subst.
  specialize (HBin ltac:(lia)).
  destruct (Z.eq_dec (blockLast B) (blockLast blk0)) as [E|E].
  + exists [B], l. rewrite <- E. done.
  + destruct HB as (HBc & _). pose proof (blockSize_pos B ltac:(lia)).
    destruct (IH (blockLast B + 1)) as (l1 & l2 & -> & _ & Ht2).
    * unfold blockLast in *. lia.
    * done.
    * done.
    * exists (B :: l1), l2. done.
Qed.

Lemma canonical_minimal_aux (l0 l : list (Z * Z)) (a a0 b : Z) :
  a0 <= a ->
  tiles a b l0 -> Forall (maximalIn a0 b) l0 ->
  tiles a b l ->
  (length l0 <= length l)%nat.
Proof.
revert l a. induction l0 as [|blk0 rest0 IH]; intros l a Ha0; simpl; [lia|].
intros (Hblk0 & Hf0 & Hl0 & Ht0) Hmax Hl.
inversion Hmax as [|? ? Hmax0 Hmaxr]. subst.
pose proof (tiles_blocks _ _ _ Hl) as Hbl.
pose proof (tiles_within _ _ _ Hl) as Hwi.
destruct (tiles_cut blk0 b l (fst blk0)) as (l1 & l2 & -> & Hne & Ht2).
- destruct Hblk0 as (Hc & _). pose proof (blockSize_pos blk0 ltac:(lia)).
  unfold blockLast. lia.
- done.
- done.
- rewrite Forall_forall in *. intros B HB Hin.
  specialize (Hbl B HB). specialize (Hwi B HB). destruct Hwi as [Hw1 Hw2].
  destruct (Z.le_gt_cases (blockSize B) (blockSize blk0)) as [Hle|Hgt].
  + by apply smaller_block_inside.
  + exfalso.
    (* [B] is larger than [blk0] and starts inside it: it starts with it *)
    assert (HfB : fst B = fst blk0).
    { destruct Hbl as (HBc & HBx & _ & HBal). destruct Hblk0 as (Hc & Hx & _ & Hal).
      unfold blockLast, blockSize in *.
      set (jB := 128 - snd B) in *. set (J0 := 128 - snd blk0) in *.
      assert (J0 <= jB).
      { destruct (Z.le_gt_cases J0 jB); [done|exfalso].
        assert (2 ^ jB <= 2 ^ J0) by (apply Z.pow_le_mono_r; lia). lia. }
      pose proof (pow2_pos J0 ltac:(unfold J0; lia)).
      apply Z.mod_divide in Hal; [|lia]. destruct Hal as [q Hq].
      destruct (aligned_contains (fst B) jB J0 (fst B) q) as [H1 H2];
        [unfold J0 in *; lia|done| |lia|lia].
      pose proof (pow2_pos jB ltac:(unfold jB; lia)). lia. }
    destruct (larger_block_contains_parent blk0 B) as [Hp1 Hp2]; try done.
    { destruct Hblk0 as (Hc & _). pose proof (blockSize_pos blk0 ltac:(lia)).
      unfold blockLast. lia. }
    destruct Hmax0 as [Hz|Hnot].
    * destruct Hbl as (HBc & HBx & HB128 & _). destruct Hblk0 as (Hc & Hx & H128 & _).
      unfold blockLast, blockSize in *. rewrite Hz in *.
      assert (2 ^ (128 - snd B) <= 2 ^ (128 - 0)) by (apply Z.pow_le_mono_r; lia). lia.
    * apply Hnot. lia.
- rewrite length_app. specialize (IH l2 (blockLast blk0 + 1)).
  assert (length l1 <> 0%nat) by (destruct l1; simpl; congruence).
  destruct Hblk0 as (Hc & _). pose proof (blockSize_pos blk0 ltac:(lia)).
  unfold blockLast in *.
  assert (length rest0 <= length l2)%nat by (apply IH; try done; lia). lia.
Qed.

(** The canonical cover has the fewest blocks of all tilings. *)
Lemma canonicalCover_minimal (a b : Z) (l0 l : list (Z * Z)) :
  canonicalCover a b l0 -> tiles a b l -> (length l0 <= length l)%nat.
Proof.
intros [Ht Hm] Hl. by apply (canonical_minimal_aux l0 l a a b).
Qed.

Lemma tiles_lookup_next (a b : Z) (l : list (Z * Z)) (i : nat) (blk1 blk2 : Z * Z) :
  tiles a b l -> l !! i = Some blk1 -> l !! S i = Some blk2 ->
  isBlock blk1 /\ isBlock blk2 /\ a <= fst blk1
  /\ fst blk2 = blockLast blk1 + 1 /\ blockLast blk2 <= b.
Proof.
revert a i. induction l as [|B l IH]; intros a i; [done|].
simpl. intros (HB & Hf & Hl & Ht) H1 H2. destruct i as [|i]; simpl in *.
- injection H1 as ->. destruct l as [|B2 l]; [done|]. simpl in *.
  injection H2 as ->. destruct Ht as (HB2 & Hf2 & Hl2 & _).
  split; [done|]. split; [done|]. split; [lia|]. split; [done|done].
- destruct (IH _ _ Ht H1 H2) as (? & ? & ? & ? & ?).
  destruct HB as (HBc & _). pose proof (blockSize_pos B ltac:(lia)).
  unfold blockLast in *.
  split; [done|]. split; [done|]. split; [lia|]. split; [done|done].
Qed.

(** No two blocks that follow each other in the canonical cover can be
    replaced by one block. *)
Lemma canonical_not_mergeable (a b : Z) (l : list (Z * Z)) (i : nat)
    (blk1 blk2 : Z * Z) :
  canonicalCover a b l -> l !! i = Some blk1 -> l !! S i = Some blk2 ->
  ~ mergeable blk1 blk2.
Proof.
intros [Ht Hm] H1 H2 (big & Hbig & Hf & Hl).
destruct (tiles_lookup_next _ _ _ _ _ _ Ht H1 H2) as (Hb1 & Hb2 & Ha & Hn & Hb).
rewrite Forall_forall in Hm. specialize (Hm blk1 ltac:(by eapply list_elem_of_lookup_2)).
pose proof (blockSize_pos blk1 ltac:(destruct Hb1; lia)).
pose proof (blockSize_pos blk2 ltac:(destruct Hb2; lia)).
destruct (larger_block_contains_parent blk1 big) as [Hp1 Hp2]; try done.
- unfold blockLast in *. lia.
- unfold blockLast in *. lia.
- destruct Hm as [Hz|Hnot].
  + destruct Hb1 as (_ & Hx & H128 & _). destruct Hb2 as (_ & _ & H128' & _).
    unfold blockLast, blockSize in *. rewrite Hz in *. simpl in *. lia.
  + apply Hnot. lia.
Qed.

(** [Prefixes] of a valid range has the fewest prefixes of all tilings of
    the range by CIDR blocks. *)
Lemma Prefixes_minimal (from to : Addr) (l : list (Z * Z)) :
  wfAddr from -> wfAddr to -> IPRangeIsValid from to = true ->
  tiles (addr from) (addr to) l ->
  (length (Prefixes from to) <= length l)%nat.
Proof.
intros Hf Ht Hv Hl.
destruct (Prefixes_canonical from to Hf Ht Hv) as [Hc _].
rewrite <- (length_fmap prefixBlock). by eapply canonicalCover_minimal.
Qed.

End PrefixesFacts.

Module SplitFacts.
Import Netip Errors Sink Split AdjacencySpec.
Local Open Scope Z_scope.

Lemma Is4In6_not_Is4 (a : Addr) : Is4In6 a = true -> Is4 a = false.
Proof.
unfold Is4In6, Is6, Is4. intros H.
apply andb_true_iff in H as [H _]. apply andb_true_iff in H as [_ H].
by apply negb_true_iff in H.
Qed.

(** ::ffff:10.0.0.0/120, the IPv4-mapped form of 10.0.0.0/24. *)
Definition mapped_10_0_0_0 : Addr := AddrFrom16 (Z.lor v4base (10 * 2 ^ 24)).

Lemma writeRows_ipv6Recorder {D : Type} (wrap : Prefix -> error -> error)
    (cidrs : list Prefix) (data : D) (l4 l6 : list (call D)) :
  writeRows (ipv6Recorder false) wrap cidrs data (l4, l6)
  = ((l4, l6 ++ ((fun cidr => CallWriteRow cidr data) <$> cidrs)), None).
Proof.
revert l6. induction cidrs as [|c rest IH]; intros l6; simpl.
- by rewrite app_nil_r.
- rewrite IH, <- app_assoc. done.
Qed.

Lemma writeRows_first {W D : Type} (wr : RowWriter W D)
    (wrap : Prefix -> error -> error) (cidrs : list Prefix) (data : D) (w : W) :
  writeRows wr wrap cidrs data w
  = match cidrs with
    | [] => (w, None)
    | cidr :: rest =>
      match WriteRow wr cidr data w with
      | (w', Some err) => (w', Some (wrap cidr err))
      | (w', None) => writeRows wr wrap rest data w'
      end
    end.
Proof. by destruct cidrs. Qed.

(** The prefixes of a valid range that does not start in 4-byte form:
    there is at least one, and none is in 4-byte form. *)
Lemma Prefixes_of_ipv6_range (start last : Addr) :
  wfAddr start -> wfAddr last -> IPRangeIsValid start last = true ->
  Is4 start = false ->
  Prefixes start last <> []
  /\ Forall (fun p => Is4 (PrefixAddr p) = false) (Prefixes start last).
Proof.
intros Hs Hl Hv H6.
destruct (PrefixesFacts.Prefixes_canonical start last Hs Hl Hv) as [[Ht _] Hall].
destruct (PrefixesFacts.IPRangeIsValid_inv start last Hs Hl Hv) as (_ & Hle & _).
split.
- intros E. rewrite E in Ht. simpl in Ht. lia.
- eapply Forall_impl; [exact Hall|]. intros p (_ & Hz & _). rewrite H6 in Hz.
  unfold PrefixAddr. apply NetworkFacts.Is4_false. by rewrite Hz.
Qed.

(** C10.  A prefix (or a range start) in IPv4-mapped IPv6 form is routed to
    the IPv6 sink, whatever the IPv4 sink is.  [WriteRow] answers "no IPv6
    writer configured" when there is none and otherwise is the call of
    [WriteRow] of the IPv6 sink.  [WriteRange] answers the same error when
    there is none; it calls [WriteRange] of the IPv6 sink when it has one,
    and otherwise calls its [WriteRow] with the prefixes of the range, one
    after the other, up to the first that fails.  With two recording sinks
    side by side the row, the range, or every prefix of the range is found
    in what the IPv6 sink was asked, and the IPv4 sink was asked nothing;
    a valid range has at least one prefix, none in 4-byte form.  Every
    address that is not in 4-byte form takes that route, and a prefix in
    4-byte form reaches the IPv4 sink only. *)
Theorem split_routes_mapped_to_ipv6 {W D : Type} (s : SplitRowWriter W D)
    (prefix : Prefix) (start last : Addr) (data : D) (w : W) :
  Is4In6 (PrefixAddr prefix) = true ->
  Is4In6 start = true ->
  SplitWriteRow s prefix data w =
    match ipv6 s with
    | None => (w, Some NoIPv6Writer)
    | Some v6w => WriteRow v6w prefix data w
    end
  /\ SplitWriteRange s start last data w =
    match ipv6 s with
    | None => (w, Some NoIPv6Writer)
    | Some v6w =>
      match WriteRange v6w with
      | Some writeRange =>
        match writeRange start last data w with
        | (w', Some err) => (w', Some (WritingIPv6Range err))
        | (w', None) => (w', None)
        end
      | None =>
        match Prefixes start last with
        | [] => (w, None)
        | cidr :: rest =>
          match WriteRow v6w cidr data w with
          | (w', Some err) => (w', Some (WritingIPv6CIDR cidr err))
          | (w', None) => writeRows v6w WritingIPv6CIDR rest data w'
          end
        end
      end
    end
  /\ (forall v4w v4w',
        SplitWriteRow (NewSplitRowWriter v4w (ipv6 s)) prefix data w
        = SplitWriteRow (NewSplitRowWriter v4w' (ipv6 s)) prefix data w
        /\ SplitWriteRange (NewSplitRowWriter v4w (ipv6 s)) start last data w
        = SplitWriteRange (NewSplitRowWriter v4w' (ipv6 s)) start last data w)
  /\ (forall q : Prefix, z (PrefixAddr q) <> z4 ->
        SplitWriteRow s q data w =
          match ipv6 s with
          | None => (w, Some NoIPv6Writer)
          | Some v6w => WriteRow v6w q data w
          end)
  /\ (forall (v4ranged : bool) (l4 l6 : list (call D)),
        SplitWriteRow
          (NewSplitRowWriter (Some (ipv4Recorder v4ranged)) (Some (ipv6Recorder false)))
          prefix data (l4, l6)
        = ((l4, l6 ++ [CallWriteRow prefix data]), None)
        /\ SplitWriteRange
             (NewSplitRowWriter (Some (ipv4Recorder v4ranged)) (Some (ipv6Recorder true)))
             start last data (l4, l6)
           = ((l4, l6 ++ [CallWriteRange start last data]), None)
        /\ SplitWriteRange
             (NewSplitRowWriter (Some (ipv4Recorder v4ranged)) (Some (ipv6Recorder false)))
             start last data (l4, l6)
           = ((l4, l6 ++ ((fun cidr => CallWriteRow cidr data)
                          <$> Prefixes start last)), None)
        /\ SplitWriteRow
             (NewSplitRowWriter (Some (ipv4Recorder v4ranged)) None)
             prefix data (l4, l6)
           = ((l4, l6), Some NoIPv6Writer)
        /\ SplitWriteRange
             (NewSplitRowWriter (Some (ipv4Recorder v4ranged)) None)
             start last data (l4, l6)
           = ((l4, l6), Some NoIPv6Writer))
  /\ (wfAddr start -> wfAddr last -> IPRangeIsValid start last = true ->
      Prefixes start last <> []
      /\ Forall (fun p => Is4 (PrefixAddr p) = false) (Prefixes start last))
  /\ (forall (q : Prefix) (v4ranged v6ranged : bool) (l4 l6 : list (call D)),
        Is4 (PrefixAddr q) = true ->
        SplitWriteRow
          (NewSplitRowWriter (Some (ipv4Recorder v4ranged)) (Some (ipv6Recorder v6ranged)))
          q data (l4, l6)
        = ((l4 ++ [CallWriteRow q data], l6), None)
        /\ SplitWriteRow
             (NewSplitRowWriter None (Some (ipv6Recorder v6ranged))) q data (l4, l6)
           = ((l4, l6), Some NoIPv4Writer)).
Proof.
intros Hp Hs. apply Is4In6_not_Is4 in Hp. apply Is4In6_not_Is4 in Hs.
split; [|split; [|split; [|split; [|split; [|split]]]]].
- unfold SplitWriteRow. by rewrite Hp.
- unfold SplitWriteRange. rewrite Hs. destruct (ipv6 s) as [v6w|]; [|done].
  destruct (WriteRange v6w); [done|]. apply writeRows_first.
- intros v4w v4w'. unfold SplitWriteRow, SplitWriteRange. by rewrite Hp, Hs.
- intros q Hq. apply NetworkFacts.Is4_false in Hq. unfold SplitWriteRow. by rewrite Hq.
- intros v4ranged l4 l6. unfold SplitWriteRow, SplitWriteRange. rewrite Hp, Hs.
  cbn [ipv6 ipv4 WriteRow WriteRange ipv6Recorder fst snd].
  split; [done|]. split; [done|]. split; [|done]. apply writeRows_ipv6Recorder.
- intros Hws Hwl Hv. by apply Prefixes_of_ipv6_range.
- intros q v4ranged v6ranged l4 l6 Hq. unfold SplitWriteRow. by rewrite Hq.
Qed.

Lemma split_routes_mapped_to_ipv6_witness :
  let p := mkPrefix mapped_10_0_0_0 120 in
  let both : SplitRowWriter (list (call nat) * list (call nat)) nat :=
    NewSplitRowWriter (Some (ipv4Recorder false)) (Some (ipv6Recorder false)) in
  let ranged : SplitRowWriter (list (call nat) * list (call nat)) nat :=
    NewSplitRowWriter (Some (ipv4Recorder false)) (Some (ipv6Recorder true)) in
  SplitWriteRow both p 7%nat ([], []) = (([], [CallWriteRow p 7%nat]), None)
  /\ SplitWriteRange both mapped_10_0_0_0 (PrefixLastIP p) 7%nat ([], [])
     = (([], [CallWriteRow p 7%nat]), None)
  /\ SplitWriteRange ranged mapped_10_0_0_0 (PrefixLastIP p) 7%nat ([], [])
     = (([], [CallWriteRange mapped_10_0_0_0 (PrefixLastIP p) 7%nat]), None)
  /\ SplitWriteRow (NewSplitRowWriter (Some (ipv4Recorder false)) None) p 7%nat ([], [])
     = (([], []), Some NoIPv6Writer).
Proof.
intros p both ranged.
pose proof (split_routes_mapped_to_ipv6 both p mapped_10_0_0_0 (PrefixLastIP p)
              7%nat ([], []) eq_refl eq_refl) as (_ & _ & _ & _ & Hrec & _).
destruct (Hrec false [] []) as (H1 & H2 & H3 & H4 & _).
subst both ranged. split; [exact H1|]. split; [|split; [exact H2|exact H4]].
rewrite H3. vm_compute. reflexivity.
Defined.

(** The same network in 4-byte form goes to the IPv4 sink. *)
Example split_routes_ipv4 :
  SplitWriteRow (NewSplitRowWriter (Some rowRecorder) None)
    (mkPrefix (v4 10 0 0 0) 24) 7%nat []
  = ([CallWriteRow (mkPrefix (v4 10 0 0 0) 24) 7%nat], None).
Proof. reflexivity. Qed.

End SplitFacts.

Module AccumulatorFacts.
Import Netip Errors Sink Accumulator AdjacencySpec CidrSpec CoalesceSpec.

Section Facts.
Context {W D : Type}.
Variable isEmpty : W -> D -> bool.
Variable dataEquals : W -> D -> D -> bool.
Variable IsAdjacent : Addr -> Addr -> bool.

Local Abbreviation Process := (Process isEmpty dataEquals IsAdjacent).
Local Abbreviation feed := (feed isEmpty dataEquals IsAdjacent).
Local Abbreviation run := (run isEmpty dataEquals IsAdjacent).



Lemma Flush_ok_empties (a a' : Accumulator W D) (w w' : W) :
  Flush a w = (a', w', None) -> a' = setCurrent a None.
Proof.
unfold Flush. destruct (current a) as [cur|] eqn:Hc.
- destruct (WriteRange (writer a)) as [writeRange|].
  + destruct (writeRange _ _ _ w) as [w1 [e|]]; intros [= <- <-]; eauto.
  + destruct (writeRows _ _ _ _ w) as [w1 [e|]]; intros [= <- <-]; eauto.
- intros [= <- <-]. destruct a; simpl in *. by subst.
Qed.



Lemma writeRows_rowRecorder (wrap : Prefix -> error -> error)
    (cidrs : list Prefix) (data : D) (log : list (call D)) :
  writeRows rowRecorder wrap cidrs data log
  = (log ++ ((fun cidr => CallWriteRow cidr data) <$> cidrs), None).
Proof.
revert log. induction cidrs as [|c rest IH]; intros log; simpl.
- by rewrite app_nil_r.
- rewrite IH, <- app_assoc. done.
Qed.

Lemma Flush_rangeRecorder (cur : AccumulatedRange D) (inc : bool)
    (log : list (call D)) :
  Accumulator.Flush (mkAccumulator (Some cur) rangeRecorder inc) log
  = (mkAccumulator None rangeRecorder inc,
     log ++ [CallWriteRange (StartIP cur) (EndIP cur) (Data cur)], None).
Proof. reflexivity. Qed.

Lemma Flush_rowRecorder (cur : AccumulatedRange D) (inc : bool)
    (log : list (call D)) :
  Accumulator.Flush (mkAccumulator (Some cur) rowRecorder inc) log
  = (mkAccumulator None rowRecorder inc,
     log ++ ((fun cidr => CallWriteRow cidr (Data cur))
             <$> Prefixes (StartIP cur) (EndIP cur)), None).
Proof.
unfold Flush. simpl. by rewrite writeRows_rowRecorder.
Qed.

(** The four cases of [Process] and the two ways of [Flush], for every
    accumulator, row and sink, whatever the tests for empty and equal data
    are; adjacency is the test [network.IsAdjacent] the code calls (with
    the revision of [part_005] it holds exactly when the prefix starts at
    the successor of the open end).  A recording sink
    with [WriteRange] is handed the whole range; one with [WriteRow] only
    is handed the prefixes of [Prefixes], which are the canonical cover of
    the range, in ascending order, and no tiling of the range has fewer
    blocks. *)
Theorem accumulator_state_machine (a : Accumulator W D) (prefix : Prefix)
    (data : D) (w : W) :
  let start := PrefixAddr prefix in
  let last := PrefixLastIP prefix in
  let opened := fun a0 : Accumulator W D =>
    setCurrent a0 (Some (mkRange start last data)) in
  (includeEmptyRows a = false -> isEmpty w data = true ->
     Process a prefix data w = (a, w, None))
  /\ (includeEmptyRows a = true \/ isEmpty w data = false ->
      match current a with
      | None => Process a prefix data w = (opened a, w, None)
      | Some cur =>
        if IsAdjacent (EndIP cur) start && dataEquals w (Data cur) data
        then Process a prefix data w
             = (setCurrent a (Some (mkRange (StartIP cur) last (Data cur))),
                w, None)
        else
          match Accumulator.Flush a w with
          | (a', w', None) =>
            current a' = None
            /\ Process a prefix data w = (opened a', w', None)
          | (a', w', Some err) => Process a prefix data w = (a', w', Some err)
          end
      end)
  /\ match current a with
     | None => Accumulator.Flush a w = (a, w, None)
     | Some cur =>
       match WriteRange (writer a) with
       | Some writeRange =>
         forall w', writeRange (StartIP cur) (EndIP cur) (Data cur) w = (w', None) ->
           Accumulator.Flush a w = (setCurrent a None, w', None)
       | None =>
         forall w',
           writeRows (writer a) WritingRow
             (Prefixes (StartIP cur) (EndIP cur)) (Data cur) w = (w', None) ->
           Accumulator.Flush a w = (setCurrent a None, w', None)
       end
     end
  /\ (forall (cur : AccumulatedRange D) (inc : bool) (log : list (call D)),
        Accumulator.Flush (mkAccumulator (Some cur) rangeRecorder inc) log
        = (mkAccumulator None rangeRecorder inc,
           log ++ [CallWriteRange (StartIP cur) (EndIP cur) (Data cur)], None)
        /\ Accumulator.Flush (mkAccumulator (Some cur) rowRecorder inc) log
           = (mkAccumulator None rowRecorder inc,
              log ++ ((fun cidr => CallWriteRow cidr (Data cur))
                      <$> Prefixes (StartIP cur) (EndIP cur)), None))
  /\ (forall from to : Addr,
        wfAddr from -> wfAddr to -> IPRangeIsValid from to = true ->
        isCanonicalCover from to (Prefixes from to)
        /\ forall l, tiles (addr from) (addr to) l ->
             (length (Prefixes from to) <= length l)%nat)
  /\ (forall e s : Addr,
        wfAddr e -> IsValid e = true -> IsValid s = true ->
        (Network005.IsAdjacent e s = true <-> successor e = Some s)).
Proof.
intros start last opened. split; [|split; [|split; [|split; [|split]]]].
- intros Hi He. unfold Accumulator.Process. by rewrite Hi, He.
- intros Hne. unfold Accumulator.Process.
  assert (negb (includeEmptyRows a) && isEmpty w data = false) as ->.
  { destruct Hne as [-> | ->]; [done|]. by rewrite andb_false_r. }
  destruct (current a) as [cur|]; [|done].
  fold start last.
  destruct (IsAdjacent (EndIP cur) start && dataEquals w (Data cur) data); [done|].
  destruct (Accumulator.Flush a w) as [[a' w'] [err|]] eqn:Hf; [done|].
  split; [|done]. apply Flush_ok_empties in Hf. by subst.
- unfold Flush. destruct (current a) as [cur|]; [|done].
  destruct (WriteRange (writer a)) as [writeRange|]; intros w' ->; done.
- intros cur inc log. split; [apply Flush_rangeRecorder|apply Flush_rowRecorder].
- intros from to Hf Ht Hv. split.
  + by apply PrefixesFacts.Prefixes_canonical.
  + intros l. by apply PrefixesFacts.Prefixes_minimal.
- intros e s. apply NetworkFacts.IsAdjacent005_iff.
Qed.

End Facts.

End AccumulatorFacts.

Module CoalesceFacts.
Import Netip Errors Sink Accumulator AdjacencySpec CidrSpec CoalesceSpec.
Import AccumulatorFacts.

Section Ranges.
Context {D : Type}.
Variable isEmpty0 : D -> bool.
Variable dataEq : D -> D -> bool.
Variable IsAdjacent : Addr -> Addr -> bool.

Local Abbreviation W := (list (call D)).
Local Abbreviation Process :=
  (Accumulator.Process (W := W) (fun _ d => isEmpty0 d)
     (fun _ d1 d2 => dataEq d1 d2) IsAdjacent).
Local Abbreviation feed :=
  (Accumulator.feed (W := W) (fun _ d => isEmpty0 d)
     (fun _ d1 d2 => dataEq d1 d2) IsAdjacent).
Local Abbreviation run :=
  (Accumulator.run (W := W) (fun _ d => isEmpty0 d)
     (fun _ d1 d2 => dataEq d1 d2) IsAdjacent).
Local Abbreviation noPair := (noCoalescablePair IsAdjacent dataEq).

(** The open range as the range it will be flushed as. *)
Definition pending (cur : option (AccumulatedRange D)) : list (@range D) :=
  match cur with
  | Some c => [(StartIP c, EndIP c, Data c)]
  | None => []
  end.

Lemma noPair_snoc (l : list (@range D)) (x y : @range D) :
  noPair (l ++ [x]) -> coalescable IsAdjacent dataEq x y = false ->
  noPair (l ++ [x; y]).
Proof.
induction l as [|r l IH]; simpl; [done|].
intros [H1 H2] Hxy. split; [|by apply IH].
destruct l as [|r' l]; done.
Qed.

Lemma noPair_last_end (l : list (@range D)) (s e e' : Addr) (d : D) :
  noPair (l ++ [(s, e, d)]) -> noPair (l ++ [(s, e', d)]).
Proof.
induction l as [|r l IH]; simpl; [done|].
intros [H1 H2]. split; [|by apply IH].
destruct l as [|r' l]; done.
Qed.

Lemma rowCalls_snoc (l : list (@range D)) (r : @range D) :
  rowCalls (l ++ [r])
  = rowCalls l ++ ((fun cidr => CallWriteRow cidr (snd r))
                   <$> Prefixes (fst (fst r)) (snd (fst r))).
Proof.
unfold rowCalls. rewrite bind_app. simpl. by rewrite app_nil_r.
Qed.

Lemma rangeCalls_snoc (l : list (@range D)) (r : @range D) :
  rangeCalls (l ++ [r])
  = rangeCalls l ++ [CallWriteRange (fst (fst r)) (snd (fst r)) (snd r)].
Proof. unfold rangeCalls. by rewrite fmap_app. Qed.

(** [Process] on the two recording sinks. *)
Definition step (cur : option (AccumulatedRange D)) (inc : bool)
    (prefix : Prefix) (data : D)
    : option (AccumulatedRange D) * list (@range D) :=
  if negb inc && isEmpty0 data then (cur, [])
  else
    let new := mkRange (PrefixAddr prefix) (PrefixLastIP prefix) data in
    match cur with
    | None => (Some new, [])
    | Some c =>
      if IsAdjacent (EndIP c) (PrefixAddr prefix) && dataEq (Data c) data
      then (Some (mkRange (StartIP c) (PrefixLastIP prefix) (Data c)), [])
      else (Some new, [(StartIP c, EndIP c, Data c)])
    end.

Lemma Process_rangeRecorder (cur : option (AccumulatedRange D)) (inc : bool)
    (prefix : Prefix) (data : D) (ranges : list (@range D)) :
  Process (mkAccumulator cur rangeRecorder inc) prefix data (rangeCalls ranges)
  = (mkAccumulator (fst (step cur inc prefix data)) rangeRecorder inc,
     rangeCalls (ranges ++ snd (step cur inc prefix data)), None).
Proof.
unfold Accumulator.Process, step. cbn [includeEmptyRows current].
destruct (negb inc && isEmpty0 data); [by rewrite app_nil_r|].
destruct cur as [c|]; [|by rewrite app_nil_r].
destruct (IsAdjacent _ _ && dataEq _ _); [by rewrite app_nil_r|].
rewrite Flush_rangeRecorder. cbn [fst snd]. by rewrite rangeCalls_snoc.
Qed.

Lemma Process_rowRecorder (cur : option (AccumulatedRange D)) (inc : bool)
    (prefix : Prefix) (data : D) (ranges : list (@range D)) :
  Process (mkAccumulator cur rowRecorder inc) prefix data (rowCalls ranges)
  = (mkAccumulator (fst (step cur inc prefix data)) rowRecorder inc,
     rowCalls (ranges ++ snd (step cur inc prefix data)), None).
Proof.
unfold Accumulator.Process, step. cbn [includeEmptyRows current].
destruct (negb inc && isEmpty0 data); [by rewrite app_nil_r|].
destruct cur as [c|]; [|by rewrite app_nil_r].
destruct (IsAdjacent _ _ && dataEq _ _); [by rewrite app_nil_r|].
rewrite Flush_rowRecorder. cbn [fst snd]. by rewrite rowCalls_snoc.
Qed.

(** Both sinks see the same ranges; no two ranges that follow each other,
    the open one included, could have been one.  Inside [feed] a range is
    flushed only to open the next one, so something is open as soon as a
    range was flushed. *)
Lemma feed_ranges (inc : bool) (rows : list (Prefix * D))
    (cur : option (AccumulatedRange D)) (ranges : list (@range D)) :
  noPair (ranges ++ pending cur) -> (cur = None -> ranges = []) ->
  exists cur' ranges',
    feed (mkAccumulator cur rangeRecorder inc) rows (rangeCalls ranges)
    = (mkAccumulator cur' rangeRecorder inc, rangeCalls ranges', None)
    /\ feed (mkAccumulator cur rowRecorder inc) rows (rowCalls ranges)
       = (mkAccumulator cur' rowRecorder inc, rowCalls ranges', None)
    /\ noPair (ranges' ++ pending cur').
Proof.
revert cur ranges. induction rows as [|[prefix data] rows IH];
  intros cur ranges Hinv Hnone; cbn [Accumulator.feed].
- by exists cur, ranges.
- rewrite Process_rangeRecorder, Process_rowRecorder.
  apply IH; unfold step.
  + destruct (negb inc && isEmpty0 data); cbn [fst snd];
      [by rewrite app_nil_r|].
    destruct cur as [c|]; cbn [fst snd].
    * destruct (IsAdjacent _ _ && dataEq _ _) eqn:Hext; cbn [fst snd pending].
      -- rewrite app_nil_r. cbn [pending] in Hinv. by eapply noPair_last_end.
      -- rewrite <- app_assoc. by apply noPair_snoc.
    * rewrite (Hnone eq_refl). simpl. done.
  + destruct (negb inc && isEmpty0 data); cbn [fst snd];
      [by rewrite app_nil_r|].
    destruct cur as [c|]; cbn [fst snd]; [|done].
    destruct (IsAdjacent _ _ && dataEq _ _); done.
Qed.

(** Whatever rows are fed and whatever the tests are, a sink with
    [WriteRange] and a sink with [WriteRow] only are asked for the same
    ranges, the second one prefix by prefix; no two ranges that follow each
    other are adjacent with equal data (they would have been one range).
    The prefixes of one range are its canonical cover: they follow each
    other and carry the same data, as the prefixes of a range that is no
    CIDR block must, and no two that follow each other can be replaced by
    one prefix. *)
Theorem emitted_ranges_are_maximal (inc : bool) (rows : list (Prefix * D)) :
  (exists ranges : list (@range D),
     run (NewAccumulator rangeRecorder inc) rows []
     = (NewAccumulator rangeRecorder inc, rangeCalls ranges, None)
     /\ run (NewAccumulator rowRecorder inc) rows []
        = (NewAccumulator rowRecorder inc, rowCalls ranges, None)
     /\ noPair ranges)
  /\ (forall from to : Addr,
        wfAddr from -> wfAddr to -> IPRangeIsValid from to = true ->
        isCanonicalCover from to (Prefixes from to)
        /\ forall (i : nat) (p1 p2 : Prefix),
             Prefixes from to !! i = Some p1 ->
             Prefixes from to !! S i = Some p2 ->
             addr (PrefixAddr p2) = (addr (PrefixLastIP p1) + 1)%Z
             /\ ~ mergeable (prefixBlock p1) (prefixBlock p2)).
Proof.
split.
- destruct (feed_ranges inc rows None []) as (cur & ranges & H1 & H2 & Hinv);
    [done|done|].
  exists (ranges ++ pending cur). unfold Accumulator.run, NewAccumulator.
  change (@nil (call D)) with (rangeCalls (@nil (@range D))) at 1.
  rewrite H1.
  change (@nil (call D)) with (rowCalls (@nil (@range D))) at 1.
  rewrite H2.
  destruct cur as [c|]; cbn [pending].
  + rewrite Flush_rangeRecorder, Flush_rowRecorder.
    by rewrite rangeCalls_snoc, rowCalls_snoc.
  + rewrite !app_nil_r in *. done.
- intros from to Hf Ht Hv.
  pose proof (PrefixesFacts.Prefixes_canonical from to Hf Ht Hv) as Hcan.
  split; [done|]. destruct Hcan as [Hc Hall].
  intros i p1 p2 H1 H2.
  assert (Hb1 : (prefixBlock <$> Prefixes from to) !! i = Some (prefixBlock p1))
    by (by rewrite list_lookup_fmap, H1).
  assert (Hb2 : (prefixBlock <$> Prefixes from to) !! S i = Some (prefixBlock p2))
    by (by rewrite list_lookup_fmap, H2).
  split.
  + destruct Hc as [Htl _].
    destruct (PrefixesFacts.tiles_lookup_next _ _ _ _ _ _ Htl Hb1 Hb2)
      as (_ & _ & _ & Hn & _).
    rewrite Forall_forall in Hall.
    destruct (Hall p1) as (_ & _ & _ & ->); [by eapply list_elem_of_lookup_2|].
    exact Hn.
  + by eapply PrefixesFacts.canonical_not_mergeable.
Qed.

End Ranges.

End CoalesceFacts.

(** ** The scenarios of the specification, run on the model *)

Module ScenarioFacts.
Import Netip Errors Sink Accumulator AdjacencySpec Mmdbtype Examples.
Local Open Scope Z_scope.

Local Abbreviation W := (list (call MapT)).

(** The accumulator of [accumulator.go] with [part_005]'s adjacency. *)
Definition runRows (wr : RowWriter W MapT) (rows : list (Prefix * MapT))
    : Accumulator W MapT * W * option error :=
  Accumulator.run MapRows.isEmpty MapRows.dataEquals Network005.IsAdjacent
    (NewAccumulator wr false) rows [].

(** Scenario 1: two adjacent /25 with the same data leave as one /24. *)
Example coalesce_adjacent_identical :
  runRows rowRecorder [(net_10_0_0_0_25, rowUS); (net_10_0_0_128_25, rowUS)]
  = (NewAccumulator rowRecorder false,
     [CallWriteRow (mkPrefix (v4 10 0 0 0) 24) rowUS], None).
Proof. vm_compute. reflexivity. Qed.

(** Scenario 2: a gap keeps the rows apart. *)
Example no_coalesce_on_gap :
  runRows rowRecorder [(net_10_0_0_0_25, rowUS); (net_10_0_1_0_25, rowUS)]
  = (NewAccumulator rowRecorder false,
     [CallWriteRow net_10_0_0_0_25 rowUS; CallWriteRow net_10_0_1_0_25 rowUS],
     None).
Proof. vm_compute. reflexivity. Qed.

(** Scenario 3: the range 10.0.0.1 - 10.0.0.254 leaves as fourteen
    prefixes. *)
Example range_to_cidr_decomposition :
  Prefixes (v4 10 0 0 1) (v4 10 0 0 254)
  = [mkPrefix (v4 10 0 0 1) 32; mkPrefix (v4 10 0 0 2) 31;
     mkPrefix (v4 10 0 0 4) 30; mkPrefix (v4 10 0 0 8) 29;
     mkPrefix (v4 10 0 0 16) 28; mkPrefix (v4 10 0 0 32) 27;
     mkPrefix (v4 10 0 0 64) 26; mkPrefix (v4 10 0 0 128) 26;
     mkPrefix (v4 10 0 0 192) 27; mkPrefix (v4 10 0 0 224) 28;
     mkPrefix (v4 10 0 0 240) 29; mkPrefix (v4 10 0 0 248) 30;
     mkPrefix (v4 10 0 0 252) 31; mkPrefix (v4 10 0 0 254) 32].
Proof. vm_compute. reflexivity. Qed.

(** C2 as stated fails: 10.0.0.1/32 and 10.0.0.2/31 with the same data
    are one range, 10.0.0.1 - 10.0.0.3, which is no CIDR block; it leaves
    as two prefixes that follow each other, are adjacent (the second
    starts at the successor of the last address of the first) and carry
    equal data. *)
Lemma adjacent_equal_cidrs_are_emitted :
  runRows rowRecorder [(net_10_0_0_1_32, rowUS); (net_10_0_0_2_31, rowUS)]
  = (NewAccumulator rowRecorder false,
     [CallWriteRow net_10_0_0_1_32 rowUS; CallWriteRow net_10_0_0_2_31 rowUS],
     None)
  /\ successor (PrefixLastIP net_10_0_0_1_32) = Some (PrefixAddr net_10_0_0_2_31)
  /\ Network005.IsAdjacent (PrefixLastIP net_10_0_0_1_32)
       (PrefixAddr net_10_0_0_2_31) = true
  /\ Network.IsAdjacent (PrefixLastIP net_10_0_0_1_32)
       (PrefixAddr net_10_0_0_2_31) = true
  /\ MapEqual rowUS rowUS = true.
Proof. vm_compute. repeat split. Qed.


(** The same inside [Process]: the row that made the flush necessary is not
    opened, the old range stays. *)
Example failed_flush_in_Process :
  let a1 := mkAccumulator (Some (mkRange (v4 10 0 0 0) (v4 10 0 0 127) rowUS))
              (failingRangeRecorder diskFull) false in
  Accumulator.Process MapRows.isEmpty MapRows.dataEquals Network005.IsAdjacent
    a1 net_10_0_0_128_25 rowDE []
  = (a1, [CallWriteRange (v4 10 0 0 0) (v4 10 0 0 127) rowUS],
     Some (WritingRange (v4 10 0 0 0) (v4 10 0 0 127) diskFull)).
Proof. vm_compute. reflexivity. Qed.

End ScenarioFacts.

(** ** [merger.go]: construction and IP-version validation *)

Module MergerFacts.
Import Netip Errors Outcome Sink Config Mmdb Mmdbtype Merger Examples.
Local Open Scope Z_scope.

Lemma validateLoop_spec (readers : list Reader) (names : list string)
    (v4n v6n : list string) (un : list (string * Z)) :
  (length readers <= length names)%nat ->
  validateLoop readers names v4n v6n un
  = Done (v4n ++ namesWithVersion 4 readers names,
          v6n ++ namesWithVersion 6 readers names,
          un ++ unsupportedOf readers names).
Proof.
revert names v4n v6n un. induction readers as [|rd readers IH];
  intros names v4n v6n un Hlen; simpl.
- unfold namesWithVersion, unsupportedOf. simpl. by rewrite !app_nil_r.
- destruct names as [|nm names]; simpl in *; [lia|].
  unfold namesWithVersion, unsupportedOf in *. simpl.
  rewrite !filter_cons. simpl.
  destruct (Z.eqb_spec (IPVersion rd) 4) as [E4|N4].
  + rewrite IH by lia. rewrite E4.
    rewrite (decide_True (P := (4 = 4))) by done.
    rewrite (decide_False (P := (4 = 6))) by done.
    rewrite (decide_False (P := (4 <> 4 /\ 4 <> 6))) by (intros [? _]; done).
    simpl. by rewrite <- !app_assoc.
  + destruct (Z.eqb_spec (IPVersion rd) 6) as [E6|N6].
    * rewrite IH by lia. rewrite E6.
      rewrite (decide_False (P := (6 = 4))) by done.
      rewrite (decide_True (P := (6 = 6))) by done.
      rewrite (decide_False (P := (6 <> 4 /\ 6 <> 6))) by (intros [_ ?]; done).
      simpl. by rewrite <- !app_assoc.
    * rewrite IH by lia.
      rewrite (decide_False (P := (IPVersion rd = 4))) by done.
      rewrite (decide_False (P := (IPVersion rd = 6))) by done.
      rewrite (decide_True (P := (IPVersion rd <> 4 /\ IPVersion rd <> 6))) by done.
      simpl. by rewrite <- !app_assoc.
Qed.

Lemma resolveReaders_length (rs : Readers) (names : list string)
    (readersList : list Reader) :
  resolveReaders rs names = Done readersList ->
  length readersList = length names.
Proof.
revert readersList. induction names as [|nm names IH]; intros readersList; simpl.
- by intros [= <-].
- unfold Get. destruct (rs !! nm) as [rd|]; [|done].
  destruct (resolveReaders rs names) as [l| |]; simpl; [|done|done].
  intros [= <-]. simpl. by rewrite (IH l).
Qed.

Lemma validateIPVersions_eq (readers : list Reader) (names : list string) :
  (length readers <= length names)%nat ->
  validateIPVersions readers names
  = match unsupportedOf readers names with
    | _ :: _ => Failed (UnsupportedIPVersions (unsupportedOf readers names))
    | [] =>
      match namesWithVersion 4 readers names, namesWithVersion 6 readers names with
      | _ :: _, _ :: _ =>
        Failed (MixedIPVersions (namesWithVersion 4 readers names)
                  (namesWithVersion 6 readers names))
      | _, _ => Done tt
      end
    end.
Proof.
intros Hlen. unfold validateIPVersions. rewrite validateLoop_spec by done. simpl.
destruct (unsupportedOf readers names); simpl; [|done].
destruct (namesWithVersion 4 readers names), (namesWithVersion 6 readers names); done.
Qed.








Section NewMerger.
Context {W : Type}.



End NewMerger.

(** Scenario 6: one database declaring 4 and one declaring 6. *)
Example mixed_versions_scenario :
  NewMerger (W := list (call MapT)) twoReaders twoColumns rowRecorder
  = Failed (MixedIPVersions ["city"%string] ["anon"%string]).
Proof. vm_compute. reflexivity. Qed.

Example unsupported_version_scenario :
  NewMerger (W := list (call MapT))
    (<["anon"%string := emptyReader 5]> twoReaders) twoColumns rowRecorder
  = Failed (UnsupportedIPVersions [("anon"%string, 5)]).
Proof. vm_compute. reflexivity. Qed.

End MergerFacts.

(** ** [part_006]: the record walker and the driver loops *)

Module WalkFacts.
Import Netip Errors Outcome Config Mmdb Mmdbtype Merger006.
Local Open Scope Z_scope.



Section Driver.
Context {St : Type}.
Variable extractAndProcess : list Result -> Prefix -> St -> St * outcome unit.
Variable flush : St -> St * option error.




End Driver.

Section Extract.
Context {A W : Type}.
Variable accProcess :
  A -> Prefix -> list (option DataType) -> W -> A * W * option error.


End Extract.




End WalkFacts.

Module ConstructionFacts.
Import Netip Errors Outcome Sink Config Mmdb Mmdbtype Merger.
Local Open Scope Z_scope.

Lemma uniqueLoop_elem (seen : gset string) (columns : list Column) (n : string) :
  n ∈ uniqueLoop seen columns
  <-> (n ∉ seen) /\ n ∈ (Database <$> columns).
Proof.
revert seen. induction columns as [|c cs IH]; intros seen; simpl.
- split; [by intros ?%elem_of_nil | by intros [_ ?%elem_of_nil]].
- destruct (decide (Database c ∈ seen)) as [Hin|Hout].
  + rewrite IH, elem_of_cons. split; [naive_solver|].
    intros [Hn [->|?]]; done.
  + rewrite !elem_of_cons, IH. split.
    * intros [->|[Hn ?]]; [by split; [|left]|]. split; [set_solver|by right].
    * intros [Hn [->|?]]; [by left|].
      destruct (decide (n = Database c)) as [->|Hne]; [by left|right].
      split; [set_solver|done].
Qed.

Lemma uniqueLoop_NoDup (seen : gset string) (columns : list Column) :
  NoDup (uniqueLoop seen columns).
Proof.
revert seen. induction columns as [|c cs IH]; intros seen; simpl.
- constructor.
- destruct (decide (Database c ∈ seen)); [apply IH|].
  constructor; [|apply IH]. rewrite uniqueLoop_elem. set_solver.
Qed.

Lemma uniqueLoop_sublist (seen : gset string) (columns : list Column) :
  sublist (uniqueLoop seen columns) (Database <$> columns).
Proof.
revert seen. induction columns as [|c cs IH]; intros seen; simpl.
- constructor.
- destruct (decide (Database c ∈ seen)).
  + by apply sublist_cons.
  + by apply sublist_skip.
Qed.

(** The loop over a longer list of columns extends the result: what was
    listed stays where it is. *)
Lemma uniqueLoop_app (seen : gset string) (cs1 cs2 : list Column) :
  uniqueLoop seen (cs1 ++ cs2)
  = uniqueLoop seen cs1
    ++ uniqueLoop (seen ∪ list_to_set (Database <$> cs1)) cs2.
Proof.
revert seen. induction cs1 as [|c cs IH]; intros seen; simpl.
- f_equal. set_solver.
- destruct (decide (Database c ∈ seen)) as [Hin|Hout].
  + rewrite IH. f_equal. f_equal. set_solver.
  + simpl. rewrite IH. f_equal. f_equal. f_equal. set_solver.
Qed.

Lemma getUniqueDatabaseNames_elem (cfg : Config) (n : string) :
  n ∈ getUniqueDatabaseNames cfg
  <-> exists col, col ∈ Columns cfg /\ Database col = n.
Proof.
unfold getUniqueDatabaseNames. rewrite uniqueLoop_elem, list_elem_of_fmap. split.
- intros [_ (col & -> & Hin)]. by exists col.
- intros (col & Hin & <-). split; [set_solver|by exists col].
Qed.

Lemma getUniqueDatabaseNames_nil (cfg : Config) :
  getUniqueDatabaseNames cfg = [] <-> Columns cfg = [].
Proof.
unfold getUniqueDatabaseNames. destruct (Columns cfg) as [|col rest]; simpl; [done|].
by rewrite decide_False by set_solver.
Qed.

(** The first place of [x] in [l]. *)
Definition firstAt (l : list string) (x : string) (i : nat) : Prop :=
  l !! i = Some x /\ forall k, (k < i)%nat -> l !! k <> Some x.

Lemma firstAt_exists (l : list string) (x : string) :
  x ∈ l -> exists i, firstAt l x i.
Proof.
induction l as [|y l IH]; [by intros ?%elem_of_nil|].
destruct (decide (y = x)) as [->|Hne].
- intros _. exists 0%nat. split; [done|]. intros k Hk. lia.
- intros [->|Hin]%elem_of_cons; [done|]. destruct (IH Hin) as (i & Hi & Hbefore).
  exists (S i). split; [done|]. intros [|k] Hk; simpl; [congruence|].
  apply Hbefore. lia.
Qed.

Lemma firstAt_app_l (l1 l2 : list string) (x : string) (i : nat) :
  firstAt l1 x i -> firstAt (l1 ++ l2) x i.
Proof.
intros [Hi Hbefore]. pose proof (lookup_lt_Some _ _ _ Hi) as Hlt. split.
- by rewrite lookup_app_l.
- intros k Hk. rewrite lookup_app_l by lia. by apply Hbefore.
Qed.

Lemma firstAt_new (l : list string) (x : string) :
  x ∉ l -> firstAt (l ++ [x]) x (length l).
Proof.
intros Hout. split.
- rewrite lookup_app_r by lia. by rewrite Nat.sub_diag.
- intros k Hk. rewrite lookup_app_l by lia. intros Hl. apply Hout.
  by eapply list_elem_of_lookup_2.
Qed.

Lemma uniqueLoop_snoc (columns : list Column) (col : Column) :
  uniqueLoop ∅ (columns ++ [col])
  = if decide (Database col ∈ uniqueLoop ∅ columns)
    then uniqueLoop ∅ columns
    else uniqueLoop ∅ columns ++ [Database col].
Proof.
rewrite uniqueLoop_app. simpl.
destruct (decide (Database col ∈ uniqueLoop ∅ columns)) as [Hin|Hout].
- rewrite decide_True; [by rewrite app_nil_r|].
  apply uniqueLoop_elem in Hin as [_ Hin]. set_solver.
- rewrite decide_False; [done|]. intros Hin. apply Hout. apply uniqueLoop_elem.
  split; [set_solver|]. set_solver.
Qed.

Lemma uniqueLoop_first_use (columns : list Column) (i j : nat) (a b : string) :
  uniqueLoop ∅ columns !! i = Some a ->
  uniqueLoop ∅ columns !! j = Some b ->
  (i < j)%nat ->
  exists ia ib, firstAt (Database <$> columns) a ia
    /\ firstAt (Database <$> columns) b ib /\ (ia < ib)%nat.
Proof.
revert i j a b. induction columns as [|col columns IH] using rev_ind;
  intros i j a b Hi Hj Hij; [done|].
rewrite uniqueLoop_snoc in Hi, Hj. rewrite fmap_app. simpl.
destruct (decide (Database col ∈ uniqueLoop ∅ columns)) as [Hin|Hout].
- destruct (IH i j a b Hi Hj Hij) as (ia & ib & Ha & Hb & Hlt).
  exists ia, ib. split; [by apply firstAt_app_l|]. split; [by apply firstAt_app_l|done].
- destruct (decide (j < length (uniqueLoop ∅ columns))%nat) as [Hjl|Hjl].
  + rewrite lookup_app_l in Hi, Hj by lia.
    destruct (IH i j a b Hi Hj Hij) as (ia & ib & Ha & Hb & Hlt).
    exists ia, ib. split; [by apply firstAt_app_l|]. split; [by apply firstAt_app_l|done].
  + pose proof (lookup_lt_Some _ _ _ Hj) as Hjlen. rewrite length_app in Hjlen.
    simpl in Hjlen. assert (j = length (uniqueLoop ∅ columns)) as -> by lia.
    rewrite lookup_app_r in Hj by lia. rewrite Nat.sub_diag in Hj.
    injection Hj as <-. rewrite lookup_app_l in Hi by lia.
    assert (Ha : a ∈ (Database <$> columns)).
    { apply list_elem_of_lookup_2 in Hi. by apply uniqueLoop_elem in Hi as [_ ?]. }
    destruct (firstAt_exists _ _ Ha) as (ia & Hia).
    assert (Hnew : Database col ∉ (Database <$> columns)).
    { intros Hc. apply Hout. apply uniqueLoop_elem. split; [set_solver|done]. }
    exists ia, (length (Database <$> columns)).
    split; [by apply firstAt_app_l|]. split; [by apply firstAt_new|].
    destruct Hia as [Hia _]. by apply lookup_lt_Some in Hia.
Qed.

(** [getUniqueDatabaseNames]: every database a column names, once, in the
    order of first use.  A column added at the end adds its database at
    the end of the list when no column before named it, and changes
    nothing otherwise; so of two names of the list the one that comes
    first is the one whose first column comes first. *)
Theorem unique_database_names (cfg : Config) :
  let names := getUniqueDatabaseNames cfg in
  NoDup names
  /\ (forall n, n ∈ names <-> exists col, col ∈ Columns cfg /\ Database col = n)
  /\ sublist names (Database <$> Columns cfg)
  /\ (forall col rest, Columns cfg = col :: rest -> head names = Some (Database col))
  /\ (names = [] <-> Columns cfg = [])
  /\ (forall cfg' col, Columns cfg' = Columns cfg ++ [col] ->
        getUniqueDatabaseNames cfg'
        = if decide (Database col ∈ names) then names else names ++ [Database col])
  /\ (forall (i j : nat) a b,
        names !! i = Some a -> names !! j = Some b -> (i < j)%nat ->
        exists ia ib,
          firstAt (Database <$> Columns cfg) a ia
          /\ firstAt (Database <$> Columns cfg) b ib /\ (ia < ib)%nat).
Proof.
intros names. unfold names, getUniqueDatabaseNames.
split; [apply uniqueLoop_NoDup|].
split; [|split; [apply uniqueLoop_sublist|split; [|split; [|split]]]].
- intros n. rewrite uniqueLoop_elem, list_elem_of_fmap. split.
  + intros [_ (col & -> & Hin)]. by exists col.
  + intros (col & Hin & <-). split; [set_solver|by exists col].
- intros col rest ->. simpl. by rewrite decide_False by set_solver.
- destruct (Columns cfg) as [|col rest]; simpl; [done|].
  by rewrite decide_False by set_solver.
- intros cfg' col ->. apply uniqueLoop_snoc.
- apply uniqueLoop_first_use.
Qed.

(** Columns on the databases a, b, c, b: the list is a, b, c. *)
Example unique_database_names_abcb :
  getUniqueDatabaseNames
    (mkConfig [mkColumn "c1" "a" [] None; mkColumn "c2" "b" [] None;
               mkColumn "c3" "c" [] None; mkColumn "c4" "b" [] None]
       None (mkMMDBOptions "Merged" None None))
  = ["a"; "b"; "c"]%string.
Proof. vm_compute. reflexivity. Qed.

(** [findIndex] gives the place of the first occurrence, counted from [j]. *)
Lemma findIndex_lookup (names : list string) (db : string) (j : Z) :
  db ∈ names ->
  exists i : nat, findIndex names db j = j + Z.of_nat i
    /\ names !! i = Some db
    /\ forall k nm, (k < i)%nat -> names !! k = Some nm -> nm <> db.
Proof.
revert j. induction names as [|nm names IH]; intros j Hin; simpl.
- by apply elem_of_nil in Hin.
- destruct (decide (nm = db)) as [->|Hne].
  + exists 0%nat. split; [lia|]. split; [done|]. intros k ? Hk. lia.
  + apply elem_of_cons in Hin as [->|Hin]; [done|].
    destruct (IH (j + 1) Hin) as (i & Hi & Hl & Hfirst).
    exists (S i). split; [lia|]. split; [done|].
    intros [|k] nm' Hk Hnm'; simpl in Hnm'; [by injection Hnm' as <-|].
    apply (Hfirst k); [lia|done].
Qed.

Lemma findIndex_missing (names : list string) (db : string) (j : Z) :
  db ∉ names -> findIndex names db j = -1.
Proof.
revert j. induction names as [|nm names IH]; intros j Hout; simpl; [done|].
rewrite decide_False by set_solver. apply IH. set_solver.
Qed.

Lemma resolveReaders_lookup (rs : Readers) (names : list string)
    (l : list Reader) (i : nat) (nm : string) :
  resolveReaders rs names = Done l -> names !! i = Some nm ->
  exists rd, l !! i = Some rd /\ rs !! nm = Some rd.
Proof.
revert l i. induction names as [|n names IH]; intros l i; simpl; [done|].
unfold Get. destruct (rs !! n) as [rd|] eqn:E; [|done].
destruct (resolveReaders rs names) as [l'| |]; simpl; [|done|done].
intros [= <-]. destruct i as [|i]; simpl.
- intros [= <-]. by exists rd.
- intros Hi. by apply IH.
Qed.

Lemma resolveReaders_fails (rs : Readers) (names : list string) (e : error) :
  resolveReaders rs names = Failed e ->
  exists (i : nat) (db : string), e = DatabaseNotFound db
    /\ names !! i = Some db /\ rs !! db = None
    /\ forall k nm, (k < i)%nat -> names !! k = Some nm -> is_Some (rs !! nm).
Proof.
induction names as [|n names IH]; simpl; [done|].
unfold Get. destruct (rs !! n) as [rd|] eqn:E.
- destruct (resolveReaders rs names) as [l'| |]; simpl; [done| |done].
  intros [= <-]. destruct IH as (i & db & -> & Hi & Hdb & Hbefore); [done|].
  exists (S i), db. split; [done|]. split; [done|]. split; [done|].
  intros [|k] nm Hk Hnm; simpl in Hnm; [injection Hnm as <-; by eexists|].
  apply (Hbefore k); [lia|done].
- intros [= <-]. exists 0%nat, n. split; [done|]. split; [done|]. split; [done|].
  intros k ? Hk. lia.
Qed.

Lemma resolveReaders_not_Panicked (rs : Readers) (names : list string) :
  resolveReaders rs names <> Panicked.
Proof.
induction names as [|n names IH]; simpl; [done|].
unfold Get. destruct (rs !! n); [|done].
by destruct (resolveReaders rs names).
Qed.

Lemma buildExtractors_lookup (rs : Readers) (names : list string)
    (columns : list Column) (es : list columnExtractor) :
  buildExtractors rs names columns = Done es ->
  length es = length columns
  /\ forall (i : nat) col, columns !! i = Some col ->
       exists e, es !! i = Some e
         /\ name e = Name col /\ database e = Database col
         /\ reader e = rs !! Database col /\ is_Some (reader e)
         /\ normalizeSegments (Path col) = Done (path e)
         /\ dbIndex e = findIndex names (Database col) 0.
Proof.
revert es. induction columns as [|c cs IH]; intros es; simpl.
- intros [= <-]. split; [done|]. intros i col Hi. done.
- unfold Get, NormalizeSegments.
  destruct (rs !! Database c) as [rd|] eqn:Erd; [|done].
  destruct (normalizeSegments (Path c)) as [p| |] eqn:Ep; [|done|done].
  destruct (buildExtractors rs names cs) as [es'| |]; simpl; [|done|done].
  intros [= <-]. destruct (IH es' eq_refl) as [Hlen Hes]. split; [simpl; lia|].
  intros [|i] col; simpl.
  + intros [= <-]. eexists. split; [done|]. simpl. rewrite Erd. eauto 10.
  + apply Hes.
Qed.

Lemma buildExtractors_fails (rs : Readers) (names : list string)
    (columns : list Column) (e : error) :
  (forall col, col ∈ columns -> is_Some (rs !! Database col)) ->
  buildExtractors rs names columns = Failed e ->
  exists (i : nat) col e', columns !! i = Some col
    /\ normalizeSegments (Path col) = Failed e'
    /\ e = NormalizingPath (Name col) e'
    /\ forall k c, (k < i)%nat -> columns !! k = Some c ->
         exists p, normalizeSegments (Path c) = Done p.
Proof.
induction columns as [|c cs IH]; intros Hall; simpl; [done|].
unfold Get, NormalizeSegments.
destruct (Hall c) as [rd ->]; [left|].
destruct (normalizeSegments (Path c)) as [p|e'|] eqn:Ep; [| |done].
- destruct (buildExtractors rs names cs) as [es'| |]; simpl; [done| |done].
  intros [= <-]. destruct IH as (i & col & e' & Hi & He' & -> & Hbefore); [|done|].
  { intros col Hin. apply Hall. by right. }
  exists (S i), col, e'. split; [done|]. split; [done|]. split; [done|].
  intros [|k] c' Hk Hc'; simpl in Hc'; [injection Hc' as <-; by eexists|].
  apply (Hbefore k); [lia|done].
- intros [= <-]. exists 0%nat, c, e'. split; [done|]. split; [done|]. split; [done|].
  intros k ? Hk. lia.
Qed.

Lemma normalizeLoop_not_Panicked (p : list segment) : normalizeLoop p <> Panicked.
Proof.
induction p as [|seg p IH]; simpl; [done|].
destruct seg; try done; try (by destruct (normalizeLoop p)).
destruct (_ || _); [done|]. by destruct (normalizeLoop p).
Qed.

Lemma normalizeSegments_not_Panicked (p : list segment) :
  normalizeSegments p <> Panicked.
Proof. destruct p; [done|]. apply normalizeLoop_not_Panicked. Qed.

Lemma buildExtractors_not_Panicked (rs : Readers) (names : list string)
    (columns : list Column) :
  buildExtractors rs names columns <> Panicked.
Proof.
induction columns as [|c cs IH]; simpl; [done|].
destruct (Get rs (Database c)); [|done]. unfold NormalizeSegments.
pose proof (normalizeSegments_not_Panicked (Path c)).
destruct (normalizeSegments (Path c)); [|done|done].
by destruct (buildExtractors rs names cs).
Qed.

Lemma validateIPVersions_not_Panicked (readers : list Reader) (names : list string) :
  length readers = length names -> validateIPVersions readers names <> Panicked.
Proof.
intros Hlen. rewrite MergerFacts.validateIPVersions_eq by lia.
destruct (unsupportedOf readers names); [|done].
by destruct (namesWithVersion 4 readers names), (namesWithVersion 6 readers names).
Qed.

Section NewMerger.
Context {W : Type}.

Lemma NewMerger_Done_inv (rs : Readers) (cfg : Config) (wr : RowWriter W MapT)
    (m : Merger W) :
  NewMerger rs cfg wr = Done m ->
  dbNamesList m = getUniqueDatabaseNames cfg
  /\ config m = cfg /\ readers m = rs
  /\ dbNamesList m <> []
  /\ resolveReaders rs (dbNamesList m) = Done (readersList m)
  /\ buildExtractors rs (dbNamesList m) (Columns cfg) = Done (extractors m).
Proof.
unfold NewMerger. destruct (length _ =? 0)%nat eqn:El; [done|].
destruct (resolveReaders rs _) as [l| |] eqn:Hres; simpl; [|done|done].
destruct (validateIPVersions l _) as [[]| |]; simpl; [|done|done].
destruct (buildExtractors rs _ (Columns cfg)) as [es| |] eqn:Hes; simpl; [|done|done].
intros [= <-]. simpl. repeat split; try done.
intros E. by rewrite E in El.
Qed.

Lemma NewMerger_extractor (rs : Readers) (cfg : Config)
    (wr : RowWriter W MapT) (m : Merger W) (i : nat) (col : Column) :
  NewMerger rs cfg wr = Done m ->
  Columns cfg !! i = Some col ->
  exists e rd, extractors m !! i = Some e
    /\ name e = Name col /\ database e = Database col
    /\ normalizeSegments (Path col) = Done (path e)
    /\ reader e = Some rd /\ rs !! Database col = Some rd
    /\ 0 <= dbIndex e < Z.of_nat (length (readersList m))
    /\ readersList m !! Z.to_nat (dbIndex e) = Some rd
    /\ dbNamesList m !! Z.to_nat (dbIndex e) = Some (Database col).
Proof.
intros Hm Hi.
destruct (NewMerger_Done_inv _ _ _ _ Hm) as (Hn & _ & _ & Hne & Hres & Hes).
pose proof (MergerFacts.resolveReaders_length _ _ _ Hres) as Hlen.
destruct (buildExtractors_lookup _ _ _ _ Hes) as [_ Hcols].
destruct (Hcols i col Hi) as (e & He & Hname & Hdb & Hrd & [rd Hsome] & Hp & Hidx).
exists e, rd. split; [done|]. split; [done|]. split; [done|]. split; [done|].
split; [done|]. split; [congruence|].
assert (Hin : Database col ∈ dbNamesList m).
{ rewrite Hn. unfold getUniqueDatabaseNames. apply uniqueLoop_elem.
  split; [set_solver|]. apply list_elem_of_fmap. exists col. split; [done|].
  by eapply list_elem_of_lookup_2. }
destruct (findIndex_lookup _ _ 0 Hin) as (k & Hk & Hlk & _).
rewrite Hidx, Hk. replace (Z.to_nat (0 + Z.of_nat k)) with k by lia.
destruct (resolveReaders_lookup _ _ _ _ _ Hres Hlk) as (rd' & Hrl & Hrs).
pose proof (lookup_lt_Some _ _ _ Hlk). split; [lia|]. split; [|done]. congruence.
Qed.

Lemma NewMerger_extractors_length (rs : Readers) (cfg : Config)
    (wr : RowWriter W MapT) (m : Merger W) :
  NewMerger rs cfg wr = Done m ->
  length (extractors m) = length (Columns cfg)
  /\ length (readersList m) = length (dbNamesList m).
Proof.
intros Hm.
destruct (NewMerger_Done_inv _ _ _ _ Hm) as (Hn & _ & _ & Hne & Hres & Hes).
split; [by destruct (buildExtractors_lookup _ _ _ _ Hes)|].
by eapply MergerFacts.resolveReaders_length.
Qed.

(** The merger [NewMerger] returns: the readers are listed as the database
    names are, and the extractor of every column holds the column's
    normalised path, its reader, and in [dbIndex] the place of that very
    reader in [readersList]. *)
Theorem NewMerger_indexes_readers (rs : Readers) (cfg : Config)
    (wr : RowWriter W MapT) (m : Merger W) :
  NewMerger rs cfg wr = Done m ->
  dbNamesList m = getUniqueDatabaseNames cfg
  /\ readersList m <> []
  /\ length (readersList m) = length (dbNamesList m)
  /\ (forall (i : nat) nm, dbNamesList m !! i = Some nm ->
        readersList m !! i = rs !! nm /\ is_Some (rs !! nm))
  /\ length (extractors m) = length (Columns cfg)
  /\ (forall (i : nat) col, Columns cfg !! i = Some col ->
        exists e rd, extractors m !! i = Some e
          /\ name e = Name col /\ database e = Database col
          /\ normalizeSegments (Path col) = Done (path e)
          /\ reader e = Some rd /\ rs !! Database col = Some rd
          /\ 0 <= dbIndex e < Z.of_nat (length (readersList m))
          /\ readersList m !! Z.to_nat (dbIndex e) = Some rd
          /\ dbNamesList m !! Z.to_nat (dbIndex e) = Some (Database col)).
Proof.
intros Hm. destruct (NewMerger_Done_inv _ _ _ _ Hm) as (Hn & _ & _ & Hne & Hres & Hes).
pose proof (MergerFacts.resolveReaders_length _ _ _ Hres) as Hlen.
split; [done|]. split; [by destruct (readersList m), (dbNamesList m)|].
split; [done|]. split; [|split].
- intros i nm Hi. destruct (resolveReaders_lookup _ _ _ _ _ Hres Hi) as (rd & -> & ->).
  split; [done|by eexists].
- by destruct (buildExtractors_lookup _ _ _ _ Hes).
- intros i col Hi. destruct (buildExtractors_lookup _ _ _ _ Hes) as [_ Hcols].
  destruct (Hcols i col Hi) as (e & He & Hname & Hdb & Hrd & [rd Hsome] & Hp & Hidx).
  exists e, rd. split; [done|]. split; [done|]. split; [done|]. split; [done|].
  split; [done|]. split; [congruence|].
  assert (Hin : Database col ∈ dbNamesList m).
  { rewrite Hn. unfold getUniqueDatabaseNames. apply uniqueLoop_elem.
    split; [set_solver|]. apply list_elem_of_fmap. exists col. split; [done|].
    by eapply list_elem_of_lookup_2. }
  destruct (findIndex_lookup _ _ 0 Hin) as (k & Hk & Hlk & _).
  rewrite Hidx, Hk. replace (Z.to_nat (0 + Z.of_nat k)) with k by lia.
  destruct (resolveReaders_lookup _ _ _ _ _ Hres Hlk) as (rd' & Hrl & Hrs).
  pose proof (lookup_lt_Some _ _ _ Hlk). split; [lia|]. split; [|done]. congruence.
Qed.

(** [NewMerger] does not panic, and its second lookup of a column's
    database cannot fail: a missing database is reported by the first
    loop, as the first missing one in the order of the columns. *)
Theorem NewMerger_failures (rs : Readers) (cfg : Config) (wr : RowWriter W MapT) :
  NewMerger rs cfg wr <> Panicked
  /\ (forall db col, NewMerger rs cfg wr <> Failed (DatabaseNotFoundForColumn db col))
  /\ (NewMerger rs cfg wr = Failed NoDatabasesConfigured <-> Columns cfg = [])
  /\ (forall db, NewMerger rs cfg wr = Failed (DatabaseNotFound db) <->
        exists (i : nat), getUniqueDatabaseNames cfg !! i = Some db
          /\ rs !! db = None
          /\ forall k nm, (k < i)%nat -> getUniqueDatabaseNames cfg !! k = Some nm ->
               is_Some (rs !! nm)).
Proof.
pose proof (getUniqueDatabaseNames_elem cfg) as Hmem.
pose proof (getUniqueDatabaseNames_nil cfg) as Hnil.
set (names := getUniqueDatabaseNames cfg) in *.
assert (Hall : forall l, resolveReaders rs names = Done l ->
  forall col, col ∈ Columns cfg -> is_Some (rs !! Database col)).
{ intros l Hres col Hin.
  assert (Hn : Database col ∈ names) by (apply Hmem; by exists col).
  apply list_elem_of_lookup_1 in Hn as [i Hi].
  destruct (resolveReaders_lookup _ _ _ _ _ Hres Hi) as (rd & _ & ->). by eexists. }
assert (Hlate : forall l e, names <> [] -> resolveReaders rs names = Done l ->
  bind (validateIPVersions l names) (fun _ =>
    bind (buildExtractors rs names (Columns cfg)) (fun es =>
      Done (mkMerger rs cfg
              (Accumulator.NewAccumulator wr
                 match IncludeEmptyRows cfg with Some b => b | None => false end)
              l names es))) = Failed e ->
  (exists u, e = UnsupportedIPVersions u) \/ (exists a b, e = MixedIPVersions a b)
  \/ (exists c e', e = NormalizingPath c e')).
{ intros l e Hne Hres. pose proof (MergerFacts.resolveReaders_length _ _ _ Hres) as Hlen.
  destruct (validateIPVersions l names) as [[]|e1|] eqn:Hv; simpl; [| |done].
  - destruct (buildExtractors rs names (Columns cfg)) as [es|e2|] eqn:Hb; simpl;
      [done| |done].
    intros [= <-].
    destruct (buildExtractors_fails _ _ _ _ (Hall l Hres) Hb)
      as (? & c & e' & _ & _ & -> & _).
    right; right; by eexists _, _.
  - intros [= <-]. rewrite MergerFacts.validateIPVersions_eq in Hv by lia.
    destruct (unsupportedOf l names); [|injection Hv as <-; left; by eexists].
    destruct (namesWithVersion 4 l names), (namesWithVersion 6 l names); try done.
    injection Hv as <-. right; left; by eexists _, _. }
assert (Hcases :
  (names = [] /\ NewMerger rs cfg wr = Failed NoDatabasesConfigured)
  \/ (names <> [] /\ exists e, resolveReaders rs names = Failed e
        /\ NewMerger rs cfg wr = Failed e)
  \/ (names <> [] /\ exists l, resolveReaders rs names = Done l
        /\ NewMerger rs cfg wr
           = bind (validateIPVersions l names) (fun _ =>
             bind (buildExtractors rs names (Columns cfg)) (fun es =>
               Done (mkMerger rs cfg
                       (Accumulator.NewAccumulator wr
                          match IncludeEmptyRows cfg with Some b => b | None => false end)
                       l names es))))).
{ unfold NewMerger. fold names. destruct names as [|n ns] eqn:En; [by left|right].
  simpl length. simpl Nat.eqb. cbv iota. rewrite <- En.
  pose proof (resolveReaders_not_Panicked rs names).
  destruct (resolveReaders rs names) as [l|e|] eqn:Hres; [right|left|done].
  - split; [by rewrite En|]. by exists l.
  - split; [by rewrite En|]. by exists e. }
split; [|split; [|split]].
- destruct Hcases as [[_ ->]|[(_ & e & _ & ->)|(Hne & l & Hres & ->)]]; [done|done|].
  pose proof (MergerFacts.resolveReaders_length _ _ _ Hres) as Hlen.
  pose proof (validateIPVersions_not_Panicked l names Hlen).
  destruct (validateIPVersions l names) as [[]| |]; simpl; [|done|done].
  pose proof (buildExtractors_not_Panicked rs names (Columns cfg)).
  by destruct (buildExtractors rs names (Columns cfg)).
- intros db col.
  destruct Hcases as [[_ ->]|[(_ & e & Hres & ->)|(Hne & l & Hres & ->)]]; [done| |].
  + destruct (resolveReaders_fails _ _ _ Hres) as (? & ? & -> & _). done.
  + intros Hf. destruct (Hlate l _ Hne Hres Hf) as [[? ?]|[(? & ? & ?)|(? & ? & ?)]]; done.
- destruct Hcases as [[En ->]|[(Hne & e & Hres & ->)|(Hne & l & Hres & ->)]].
  + split; [intros _; by apply Hnil|done].
  + split; [|intros Hc; by apply Hnil in Hc].
    destruct (resolveReaders_fails _ _ _ Hres) as (? & ? & -> & _). done.
  + split; [|intros Hc; by apply Hnil in Hc].
    intros Hf. destruct (Hlate l _ Hne Hres Hf) as [[? ?]|[(? & ? & ?)|(? & ? & ?)]]; done.
- intros db.
  destruct Hcases as [[En ->]|[(Hne & e & Hres & ->)|(Hne & l & Hres & ->)]].
  + split; [done|]. rewrite En. by intros (i & Hi & _).
  + destruct (resolveReaders_fails _ _ _ Hres) as (i & db' & -> & Hi & Hnone & Hbefore).
    split.
    * intros [= <-]. by exists i.
    * intros (j & Hj & Hjn & Hjb). f_equal.
      destruct (Nat.lt_trichotomy i j) as [Hlt|[->|Hgt]]; [| congruence |].
      -- destruct (Hjb i db' Hlt Hi) as [? ?]. congruence.
      -- destruct (Hbefore j db Hgt Hj) as [? ?]. congruence.
  + split.
    * intros Hf. destruct (Hlate l _ Hne Hres Hf) as [[? ?]|[(? & ? & ?)|(? & ? & ?)]]; done.
    * intros (i & Hi & Hnone & _).
      destruct (resolveReaders_lookup _ _ _ _ _ Hres Hi) as (rd & _ & ?). congruence.
Qed.

End NewMerger.

Lemma NewMerger_indexes_readers_witness :
  exists m : Merger (list (call MapT)),
    NewMerger (<["city"%string := Examples.emptyReader 6]> Examples.twoReaders)
      Examples.twoColumns rowRecorder = Done m
    /\ dbNamesList m = ["city"%string; "anon"%string]
    /\ length (extractors m) = 2%nat.
Proof.
destruct (NewMerger (W := list (call MapT))
            (<["city"%string := Examples.emptyReader 6]> Examples.twoReaders)
            Examples.twoColumns rowRecorder) as [m|e|] eqn:E.
- exists m. split; [reflexivity|].
  destruct (NewMerger_indexes_readers _ _ _ _ E) as (H1 & _ & _ & _ & H2 & _).
  split; [rewrite H1; vm_compute; reflexivity|exact H2].
- vm_compute in E. discriminate E.
- vm_compute in E. discriminate E.
Defined.

End ConstructionFacts.

(** ** The nested iteration of [Merge] and [processNetwork] *)

Module DriverFacts.
Import Netip Errors Outcome Mmdb Driver DriverSpec.
Local Open Scope Z_scope.

Lemma SmallestNetwork_bits (a b : Prefix) :
  PrefixBits (Network.SmallestNetwork a b) = Z.max (PrefixBits a) (PrefixBits b)
  /\ (Network.SmallestNetwork a b = a \/ Network.SmallestNetwork a b = b).
Proof.
unfold Network.SmallestNetwork.
destruct (Z.leb_spec (PrefixBits b) (PrefixBits a)); split; auto; lia.
Qed.

Lemma effectiveOf_snoc (p : Prefix) (more : list Result) (r : Result) :
  effectiveOf p (more ++ [r])
  = Network.SmallestNetwork (effectiveOf p more) (ResultPrefix r).
Proof. unfold effectiveOf. by rewrite foldl_app. Qed.

Lemma effectiveOf_bits (p : Prefix) (more : list Result) :
  PrefixBits p <= PrefixBits (effectiveOf p more)
  /\ Forall (fun r => PrefixBits (ResultPrefix r) <= PrefixBits (effectiveOf p more)) more
  /\ (effectiveOf p more = p \/ effectiveOf p more ∈ (ResultPrefix <$> more)).
Proof.
revert p. induction more as [|r more IH]; intros p; simpl.
- split; [lia|]. split; [constructor|by left].
- destruct (IH (Network.SmallestNetwork p (ResultPrefix r))) as (Hp & Hall & Hin).
  destruct (SmallestNetwork_bits p (ResultPrefix r)) as [Hb Hc].
  fold (effectiveOf (Network.SmallestNetwork p (ResultPrefix r)) more).
  split; [lia|]. split.
  + constructor; [lia|done].
  + destruct Hin as [->|Hin]; [|right; by right].
    destruct Hc as [->| ->]; [by left|right; left].
Qed.

Lemma mergeStep_processNetwork {St : Type}
    (ep : list Result -> Prefix -> St -> St * outcome unit)
    (others : list Reader) (result : Result) (st : St) :
  mergeStep ep others result st
  = processNetwork ep others [result] (ResultPrefix result) st.
Proof. by destruct others. Qed.

Section Driver.
Context {St : Type}.
Variable extractAndProcess : list Result -> Prefix -> St -> St * outcome unit.
Variable flush : St -> St * option error.

Local Abbreviation call := (list Result * Prefix)%type.

(** What a call made below [results] and [p] looks like. *)
Definition below (rest : list Reader) (results : list Result) (p : Prefix)
    (c : call) : Prop :=
  exists more, fst c = results ++ more /\ chain rest p more
    /\ snd c = effectiveOf p more.

Lemma withinLoop_traced (recurse : list Result -> Prefix -> St -> St * outcome unit)
    (recurse' : list Result -> Prefix -> St * list call -> (St * list call) * outcome unit)
    (rd : Reader) (rest : list Reader)
    (results : list Result) (p : Prefix) (rs : list Result) (st : St)
    (log : list call) :
  (forall r, r ∈ rs -> r ∈ NetworksWithin rd p) ->
  (forall r st log, r ∈ rs -> ResultErr r = None ->
     exists new,
       recurse' (results ++ [r]) (Network.SmallestNetwork p (ResultPrefix r)) (st, log)
       = ((fst (recurse (results ++ [r]) (Network.SmallestNetwork p (ResultPrefix r)) st),
           log ++ new),
          snd (recurse (results ++ [r]) (Network.SmallestNetwork p (ResultPrefix r)) st))
       /\ Forall (below rest (results ++ [r])
                    (Network.SmallestNetwork p (ResultPrefix r))) new) ->
  exists new,
    withinLoop recurse' results p rs (st, log)
    = ((fst (withinLoop recurse results p rs st), log ++ new),
       snd (withinLoop recurse results p rs st))
    /\ Forall (below (rd :: rest) results p) new.
Proof.
revert st log. induction rs as [|r rs IH]; intros st log Hin Hrec; simpl.
- exists []. by rewrite app_nil_r.
- destruct (ResultErr r) as [err|] eqn:Eerr.
  + exists []. by rewrite app_nil_r.
  + destruct (Hrec r st log) as (new1 & -> & Hnew1); [left|done|].
    destruct (recurse (results ++ [r]) _ st) as [st1 [[]|e|]]; simpl.
    * destruct (IH st1 (log ++ new1)) as (new2 & -> & Hnew2).
      { intros r' Hr'. apply Hin. by right. }
      { intros r' st' log' Hr'. apply Hrec. by right. }
      exists (new1 ++ new2). rewrite app_assoc. split; [done|].
      apply Forall_app. split; [|done].
      eapply Forall_impl; [exact Hnew1|].
      intros c (more & Hc & Hchain & Hp). exists (r :: more).
      rewrite <- app_assoc in Hc. split; [done|]. split; [|done].
      simpl. split; [apply Hin; left|done].
    * exists new1. split; [done|].
      eapply Forall_impl; [exact Hnew1|].
      intros c (more & Hc & Hchain & Hp). exists (r :: more).
      rewrite <- app_assoc in Hc. split; [done|]. split; [|done].
      simpl. split; [apply Hin; left|done].
    * exists new1. split; [done|].
      eapply Forall_impl; [exact Hnew1|].
      intros c (more & Hc & Hchain & Hp). exists (r :: more).
      rewrite <- app_assoc in Hc. split; [done|]. split; [|done].
      simpl. split; [apply Hin; left|done].
Qed.

Lemma processNetwork_traced (rest : list Reader) (results : list Result)
    (p : Prefix) (st : St) (log : list call) :
  exists new,
    processNetwork (traced extractAndProcess) rest results p (st, log)
    = ((fst (processNetwork extractAndProcess rest results p st), log ++ new),
       snd (processNetwork extractAndProcess rest results p st))
    /\ Forall (below rest results p) new.
Proof.
revert results p st log. induction rest as [|rd rest IH]; intros results p st log.
- simpl. unfold traced. simpl.
  destruct (extractAndProcess results p st) as [st' o]. simpl.
  exists [(results, p)]. split; [done|]. constructor; [|constructor].
  exists []. by rewrite app_nil_r.
- simpl. apply withinLoop_traced; [done|].
  intros r st' log' _ _. apply IH.
Qed.

(** A call that [Merge] makes. *)
Definition reached (firstReader : Reader) (others : list Reader) (c : call) : Prop :=
  exists r0 more, fst c = r0 :: more
    /\ r0 ∈ Networks firstReader /\ ResultErr r0 = None
    /\ chain others (ResultPrefix r0) more
    /\ snd c = effectiveOf (ResultPrefix r0) more.

Lemma mergeLoop_traced (firstReader : Reader) (others : list Reader)
    (rs : list Result) (st : St) (log : list call) :
  (forall r, r ∈ rs -> r ∈ Networks firstReader) ->
  exists new,
    mergeLoop (traced extractAndProcess) others rs (st, log)
    = ((fst (mergeLoop extractAndProcess others rs st), log ++ new),
       snd (mergeLoop extractAndProcess others rs st))
    /\ Forall (reached firstReader others) new.
Proof.
revert st log. induction rs as [|r rs IH]; intros st log Hin; simpl.
- exists []. by rewrite app_nil_r.
- destruct (ResultErr r) as [err|] eqn:Eerr.
  + exists []. by rewrite app_nil_r.
  + rewrite !mergeStep_processNetwork.
    destruct (processNetwork_traced others [r] (ResultPrefix r) st log)
      as (new1 & -> & Hnew1).
    assert (Hnew1' : Forall (reached firstReader others) new1).
    { eapply Forall_impl; [exact Hnew1|].
      intros c (more & Hc & Hchain & Hp). exists r, more.
      split; [done|]. split; [apply Hin; left|done]. }
    destruct (processNetwork extractAndProcess others [r] _ st) as [st1 [[]|e|]]; simpl.
    * destruct (IH st1 (log ++ new1)) as (new2 & -> & Hnew2).
      { intros r' Hr'. apply Hin. by right. }
      exists (new1 ++ new2). rewrite app_assoc. split; [done|].
      by apply Forall_app.
    * by exists new1.
    * by exists new1.
Qed.

End Driver.

Lemma chain_length (rest : list Reader) (p : Prefix) (more : list Result) :
  chain rest p more -> length more = length rest.
Proof.
revert p more. induction rest as [|rd rest IH]; intros p [|r more]; simpl; try done.
intros (_ & _ & H). f_equal. by eapply IH.
Qed.

Lemma chain_no_error (rest : list Reader) (p : Prefix) (more : list Result) :
  chain rest p more -> Forall (fun r => ResultErr r = None) more.
Proof.
revert p more. induction rest as [|rd rest IH]; intros p [|r more]; simpl; try done.
intros (_ & Hr & H). constructor; [done|]. by eapply IH.
Qed.

(** The calls [Merge] makes to [extractAndProcess], whatever the row handler
    does: each carries one result per reader of [readersList], in its
    order, the first from the networks of the first reader and every other
    one found by its reader within the prefix reached before it; none is an
    iteration error; the prefix passed is the one reached through all of
    them, it is the prefix of one of the results and no result has a longer
    one.  Keeping the calls changes neither the result nor the final
    state. *)
Theorem Merge_calls {St : Type}
    (extractAndProcess : list Result -> Prefix -> St -> St * outcome unit)
    (flush : St -> St * option error)
    (firstReader : Reader) (others : list Reader) (st : St) :
  let readersList := firstReader :: others in
  exists calls,
    Merge (traced extractAndProcess) (tracedFlush flush) readersList (st, [])
    = ((fst (Merge extractAndProcess flush readersList st), calls),
       snd (Merge extractAndProcess flush readersList st))
    /\ Forall (fun c : list Result * Prefix =>
         length (fst c) = length readersList
         /\ (exists r0 more, fst c = r0 :: more
               /\ r0 ∈ Networks firstReader
               /\ chain others (ResultPrefix r0) more
               /\ snd c = effectiveOf (ResultPrefix r0) more)
         /\ Forall (fun r => ResultErr r = None
                             /\ PrefixBits (ResultPrefix r) <= PrefixBits (snd c))
              (fst c)
         /\ snd c ∈ (ResultPrefix <$> fst c)) calls.
Proof.
intros readersList. unfold readersList, Merge.
destruct (mergeLoop_traced extractAndProcess firstReader others
            (Networks firstReader) st []) as (calls & -> & Hcalls); [done|].
exists calls. split.
- destruct (mergeLoop extractAndProcess others (Networks firstReader) st)
    as [st1 [[]|e|]]; simpl; try done.
  unfold tracedFlush. simpl. by destruct (flush st1) as [st2 [err|]].
- eapply Forall_impl; [exact Hcalls|].
  intros [results p] (r0 & more & Hc & Hin & Herr & Hchain & Hp). simpl in *.
  subst results p. pose proof (chain_length _ _ _ Hchain) as Hlen.
  destruct (effectiveOf_bits (ResultPrefix r0) more) as (Hb0 & Hball & Hmem).
  split; [simpl; lia|]. split; [by exists r0, more|]. split.
  + constructor; [done|].
    pose proof (chain_no_error _ _ _ Hchain) as Hne.
    rewrite Forall_forall in *. intros r Hr. split; [by apply Hne|by apply Hball].
  + rewrite fmap_cons. destruct Hmem as [->|Hmem]; [left|by right].
Qed.

(** [Merge] on an empty list of readers: the read of [readersList[0]]
    panics before anything is done. *)
Lemma Merge_no_readers {St : Type}
    (extractAndProcess : list Result -> Prefix -> St -> St * outcome unit)
    (flush : St -> St * option error) (st : St) :
  Merge extractAndProcess flush [] st = (st, Panicked).
Proof. reflexivity. Qed.

End DriverFacts.

(** ** [merger.go]: the extraction of one row *)

Module ExtractFacts.
Import Netip Errors Outcome Sink Config Mmdb Mmdbtype Merger.
Local Open Scope Z_scope.

(** An extractor as [NewMerger] builds it, before results of the length of
    [readersList]. *)
Definition ready (results : list Result) (e : columnExtractor) : Prop :=
  is_Some (reader e) /\ 0 <= dbIndex e < Z.of_nat (length results).

Lemma extractLoop_step (results : list Result) (e : columnExtractor)
    (rest : list columnExtractor) (data : MapT) :
  ready results e ->
  exists r, results !! Z.to_nat (dbIndex e) = Some r
    /\ extractLoop (e :: rest) results data
       = match DecodePath r (path e) with
         | Failed err => Failed (DecodingPath (name e) err)
         | Panicked => Panicked
         | Done None => extractLoop rest results data
         | Done (Some value) => extractLoop rest results (<[name e := value]> data)
         end.
Proof.
intros [[rd Hrd] Hidx]. simpl. rewrite Hrd.
destruct (lookup_lt_is_Some_2 results (Z.to_nat (dbIndex e))) as [r Hr]; [lia|].
exists r. split; [done|]. rewrite Hr.
destruct (Z.ltb_spec (dbIndex e) 0); [lia|].
destruct (Z.leb_spec (Z.of_nat (length results)) (dbIndex e)); [lia|]. done.
Qed.

(** The value column [e] decodes from the result of its database. *)
Definition decoded (results : list Result) (e : columnExtractor)
    (v : option DataType) : Prop :=
  exists r, results !! Z.to_nat (dbIndex e) = Some r
    /\ DecodePath r (path e) = Done v.

Lemma extractLoop_all_decoded (results : list Result) (es : list columnExtractor)
    (data : MapT) :
  Forall (ready results) es ->
  NoDup (name <$> es) ->
  (forall e, e ∈ es -> exists v, decoded results e v) ->
  exists data', extractLoop es results data = Done data'
    /\ (forall e, e ∈ es ->
          exists v, decoded results e v
            /\ data' !! name e = match v with Some _ => v | None => data !! name e end)
    /\ (forall k, k ∉ (name <$> es) -> data' !! k = data !! k).
Proof.
revert data. induction es as [|e es IH]; intros data Hready Hnd Hdec.
- exists data. split; [done|]. split; [|done]. intros e He. by apply elem_of_nil in He.
- apply Forall_cons in Hready as [He Hready]. rewrite fmap_cons in Hnd.
  apply NoDup_cons in Hnd as [Hfresh Hnd].
  destruct (extractLoop_step results e es data He) as (r & Hr & ->).
  destruct (Hdec e) as (v & r' & Hr' & Hv); [left|].
  assert (r' = r) as -> by congruence. rewrite Hv.
  assert (Hdec' : forall e', e' ∈ es -> exists v, decoded results e' v).
  { intros e' He'. apply Hdec. by right. }
  destruct v as [value|].
  + destruct (IH (<[name e := value]> data) Hready Hnd Hdec') as (data' & -> & Hes & Hother).
    exists data'. split; [done|]. split.
    * intros e' [->|He']%elem_of_cons.
      -- exists (Some value). split; [by exists r|].
         rewrite Hother by done. by rewrite lookup_insert_eq.
      -- destruct (Hes e' He') as (v' & Hv' & Hl). exists v'. split; [done|].
         rewrite Hl. destruct v'; [done|]. rewrite lookup_insert_ne; [done|].
         intros E. apply Hfresh. rewrite E. apply list_elem_of_fmap. by exists e'.
    * intros k Hk. rewrite fmap_cons in Hk. apply not_elem_of_cons in Hk as [Hne Hk].
      rewrite Hother by done. by rewrite lookup_insert_ne.
  + destruct (IH data Hready Hnd Hdec') as (data' & -> & Hes & Hother).
    exists data'. split; [done|]. split.
    * intros e' [->|He']%elem_of_cons.
      -- exists None. split; [by exists r|]. by rewrite Hother.
      -- by apply Hes.
    * intros k Hk. rewrite fmap_cons in Hk. apply not_elem_of_cons in Hk as [Hne Hk].
      by rewrite Hother.
Qed.

Lemma extractLoop_first_failure (results : list Result)
    (before after : list columnExtractor) (e : columnExtractor) (data : MapT)
    (r : Result) (o : outcome (option DataType)) :
  Forall (ready results) (before ++ [e]) ->
  (forall e', e' ∈ before -> exists v, decoded results e' v) ->
  results !! Z.to_nat (dbIndex e) = Some r ->
  DecodePath r (path e) = o ->
  (forall v, o <> Done v) ->
  extractLoop (before ++ e :: after) results data
  = match o with
    | Failed err => Failed (DecodingPath (name e) err)
    | _ => Panicked
    end.
Proof.
revert data. induction before as [|e0 before IH]; intros data Hready Hdec Hr Ho Hbad.
- simpl app in *. apply Forall_cons in Hready as [He _].
  destruct (extractLoop_step results e after data He) as (r' & Hr' & ->).
  assert (r' = r) as -> by congruence. rewrite Ho.
  destruct o as [v| |]; [by destruct (Hbad v)|done|done].
- simpl app in *. apply Forall_cons in Hready as [He0 Hready].
  destruct (extractLoop_step results e0 (before ++ e :: after) data He0) as (r0 & Hr0 & ->).
  destruct (Hdec e0) as (v & r' & Hr' & Hv); [left|].
  assert (r' = r0) as -> by congruence. rewrite Hv.
  assert (Hdec' : forall e', e' ∈ before -> exists v, decoded results e' v).
  { intros e' He'. apply Hdec. by right. }
  destruct v; by apply IH.
Qed.

Section Constructed.
Context {W : Type}.
Variable IsAdjacent : Addr -> Addr -> bool.

Lemma constructed_ready (rs : Readers) (cfg : Config) (wr : RowWriter W MapT)
    (m : Merger W) (results : list Result) :
  NewMerger rs cfg wr = Done m ->
  length results = length (readersList m) ->
  Forall (ready results) (extractors m)
  /\ name <$> extractors m = Name <$> Columns cfg.
Proof.
intros Hm Hlen.
destruct (ConstructionFacts.NewMerger_extractors_length _ _ _ _ Hm) as [Hel _].
split.
- apply Forall_lookup_2. intros i e He.
  destruct (lookup_lt_is_Some_2 (Columns cfg) i) as [col Hcol].
  { rewrite <- Hel. by eapply lookup_lt_Some. }
  destruct (ConstructionFacts.NewMerger_extractor _ _ _ _ _ _ Hm Hcol)
    as (e' & rd & He' & _ & _ & _ & Hrd & _ & Hidx & _).
  assert (e' = e) as -> by congruence. split; [by eexists|]. by rewrite Hlen.
- apply list_eq. intros i. rewrite !list_lookup_fmap.
  destruct (Columns cfg !! i) as [col|] eqn:Hcol; simpl.
  + destruct (ConstructionFacts.NewMerger_extractor _ _ _ _ _ _ Hm Hcol)
      as (e' & rd & -> & Hn & _). simpl. by rewrite Hn.
  + apply lookup_ge_None in Hcol. rewrite <- Hel in Hcol.
    apply lookup_ge_None in Hcol. by rewrite Hcol.
Qed.

(** One row, for a merger [NewMerger] returned and one result per reader.
    Every column is decoded from the result of its own database, at the
    column's normalised path: neither the check for a missing reader nor
    the skip of an index out of bounds is ever taken.  When every column
    decodes and the column names differ, the row handed to the accumulator
    maps each name to the value decoded, a column that decodes to nil is
    absent, and there is no other key.  The first column that fails to
    decode ends the call with its error, wrapped with the column's name;
    the accumulator and the sinks are as before. *)
Theorem extractAndProcess_decodes_columns (rs : Readers) (cfg : Config)
    (wr : RowWriter W MapT) (m : Merger W) (results : list Result)
    (effectivePrefix : Prefix) (a : Accumulator.Accumulator W MapT) (w : W) :
  NewMerger rs cfg wr = Done m ->
  length results = length (readersList m) ->
  (forall (i : nat) col, Columns cfg !! i = Some col ->
     exists e (k : nat) r, extractors m !! i = Some e
       /\ name e = Name col
       /\ normalizeSegments (Path col) = Done (path e)
       /\ dbIndex e = Z.of_nat k
       /\ dbNamesList m !! k = Some (Database col)
       /\ results !! k = Some r)
  /\ (NoDup (Name <$> Columns cfg) ->
      (forall e, e ∈ extractors m -> exists v, decoded results e v) ->
      exists data,
        extractAndProcess IsAdjacent m results effectivePrefix a w
        = match Accumulator.Process MapRows.isEmpty MapRows.dataEquals IsAdjacent
                  a effectivePrefix data w with
          | (a', w', Some err) => (a', w', Failed err)
          | (a', w', None) => (a', w', Done tt)
          end
        /\ (forall e, e ∈ extractors m -> decoded results e (data !! name e))
        /\ (forall k, k ∉ (Name <$> Columns cfg) -> data !! k = None))
  /\ (forall before e after r err,
        extractors m = before ++ e :: after ->
        (forall e', e' ∈ before -> exists v, decoded results e' v) ->
        results !! Z.to_nat (dbIndex e) = Some r ->
        DecodePath r (path e) = Failed err ->
        extractAndProcess IsAdjacent m results effectivePrefix a w
        = (a, w, Failed (DecodingPath (name e) err))).
Proof.
intros Hm Hlen. destruct (constructed_ready _ _ _ _ _ Hm Hlen) as [Hready Hnames].
split; [|split].
- intros i col Hcol.
  destruct (ConstructionFacts.NewMerger_extractor _ _ _ _ _ _ Hm Hcol)
    as (e & rd & He & Hn & _ & Hp & _ & _ & Hidx & _ & Hdb).
  destruct (lookup_lt_is_Some_2 results (Z.to_nat (dbIndex e))) as [r Hr]; [lia|].
  exists e, (Z.to_nat (dbIndex e)), r. repeat split; try done. lia.
- intros Hnd Hdec. rewrite <- Hnames in Hnd.
  destruct (extractLoop_all_decoded results (extractors m) ∅ Hready Hnd Hdec)
    as (data & Hdata & Hes & Hother).
  exists data. unfold extractAndProcess. rewrite Hdata. split; [done|]. split.
  + intros e He. destruct (Hes e He) as (v & Hv & Hl).
    rewrite Hl. destruct v; [done|]. by rewrite lookup_empty.
  + intros k Hk. rewrite <- Hnames in Hk. rewrite Hother by done. apply lookup_empty.
- intros before e after r err Hsplit Hbefore Hr Herr.
  unfold extractAndProcess. rewrite Hsplit.
  rewrite (extractLoop_first_failure results before after e ∅ r (Failed err)); try done.
  rewrite Hsplit in Hready. apply Forall_app in Hready as [Hb Ha].
  apply Forall_cons in Ha as [He _]. apply Forall_app. split; [done|].
  by constructor.
Qed.

End Constructed.

Lemma extractAndProcess_decodes_columns_witness :
  let rs := <["city"%string := Examples.emptyReader 6]> Examples.twoReaders in
  let res := mkResult Examples.net_10_0_0_0_25 None (Done None) (fun _ => Done None) in
  exists m : Merger (list (call MapT)),
    NewMerger rs Examples.twoColumns rowRecorder = Done m
    /\ forall (i : nat) col, Columns Examples.twoColumns !! i = Some col ->
         exists e (k : nat) r, extractors m !! i = Some e
           /\ name e = Name col
           /\ normalizeSegments (Path col) = Done (path e)
           /\ dbIndex e = Z.of_nat k
           /\ dbNamesList m !! k = Some (Database col)
           /\ [res; res] !! k = Some r.
Proof.
intros rs res.
destruct (NewMerger (W := list (call MapT)) rs Examples.twoColumns rowRecorder)
  as [m|e|] eqn:E.
- exists m. split; [reflexivity|].
  assert (Hlen : length [res; res] = length (readersList m)).
  { vm_compute in E. injection E as <-. reflexivity. }
  exact (proj1 (extractAndProcess_decodes_columns Network005.IsAdjacent
                  rs Examples.twoColumns rowRecorder m [res; res]
                  Examples.net_10_0_0_0_25
                  (Accumulator.NewAccumulator rowRecorder false) [] E Hlen)).
- vm_compute in E. discriminate E.
- vm_compute in E. discriminate E.
Defined.

End ExtractFacts.

(** ** [internal/mmdb/extractor.go]: path normalisation *)

Module NormalizeFacts.
Import Errors Outcome Config Mmdb.
Local Open Scope Z_scope.

(** What a segment becomes. *)
Definition normalised (seg out : segment) : Prop :=
  match seg with
  | SegString s => out = SegString s
  | SegInt n => out = SegInt n
  | SegInt64 n => out = SegInt n /\ minInt <= n <= maxInt
  | SegOther _ => False
  end.

(** Why a segment is refused. *)
Definition refused (seg : segment) (e : error) : Prop :=
  match seg with
  | SegInt64 n => (n < minInt \/ maxInt < n) /\ e = PathIndexOutOfRange n
  | SegOther _ => e = UnsupportedPathSegment
  | _ => False
  end.

Lemma normalizeLoop_spec (path : list segment) :
  match normalizeLoop path with
  | Done out => Forall2 normalised path out
  | Failed e =>
    exists before seg after out, path = before ++ seg :: after
      /\ Forall2 normalised before out /\ refused seg e
  | Panicked => False
  end.
Proof.
induction path as [|seg path IH]; simpl; [constructor|].
assert (Hcons : forall o, normalised seg o ->
  match bind (normalizeLoop path) (fun r => Done (o :: r)) with
  | Done out => Forall2 normalised (seg :: path) out
  | Failed e =>
    exists before s after out, seg :: path = before ++ s :: after
      /\ Forall2 normalised before out /\ refused s e
  | Panicked => False
  end).
{ intros o Ho. destruct (normalizeLoop path) as [out|e|]; simpl; [|  |done].
  - by constructor.
  - destruct IH as (before & s & after & out & -> & Hb & Hs).
    exists (seg :: before), s, after, (o :: out). split; [done|]. split; [|done].
    by constructor. }
destruct seg as [s|n|n|t].
- by apply Hcons.
- by apply Hcons.
- destruct (Z.ltb_spec maxInt n); simpl.
  + exists [], (SegInt64 n), path, []. split; [done|]. split; [constructor|].
    split; [lia|done].
  + destruct (Z.ltb_spec n minInt); simpl.
    * exists [], (SegInt64 n), path, []. split; [done|]. split; [constructor|].
      split; [lia|done].
    * apply Hcons. simpl. split; [done|lia].
- exists [], (SegOther t), path, []. split; [done|]. split; [constructor|done].
Qed.

Lemma normalizeSegments_loop (path : list segment) :
  normalizeSegments path = normalizeLoop path.
Proof. by destruct path. Qed.

Lemma normalised_again (seg out : segment) :
  normalised seg out -> normalised out out.
Proof. destruct seg; simpl; [intros ->|intros ->|intros [-> _]|done]; done. Qed.

Lemma normalised_functional (seg o y : segment) :
  normalised seg o -> normalised seg y -> y = o.
Proof.
destruct seg; simpl; try done; try congruence.
by intros [-> _] [-> _].
Qed.

Lemma normalizeLoop_fixed (out : list segment) :
  Forall (fun o => normalised o o) out -> normalizeLoop out = Done out.
Proof.
induction 1 as [|o out Ho _ IH]; simpl; [done|].
rewrite IH. destruct o; simpl in *; try done. by destruct Ho.
Qed.

(** [normalizeSegments] keeps the length and the order of the path; a
    string and an [int] stay, an [int64] that fits becomes the [int] of the
    same value.  It fails at the first segment that is an [int64] out of
    the range of [int] or a value of another type, with the error of that
    segment; it does not panic.  A normalised path is normalised to
    itself, and an [int64] (a number from -2^63 to 2^63-1) is never out of
    range where [int] has 64 bits. *)
Theorem normalizeSegments_spec (path : list segment) :
  match normalizeSegments path with
  | Done out =>
    Forall2 normalised path out /\ length out = length path
    /\ normalizeSegments out = Done out
  | Failed e =>
    exists before seg after out, path = before ++ seg :: after
      /\ normalizeSegments before = Done out /\ refused seg e
  | Panicked => False
  end
  /\ (Forall (fun seg => forall n, seg = SegInt64 n -> - 2 ^ 63 <= n < 2 ^ 63) path ->
      forall n, normalizeSegments path <> Failed (PathIndexOutOfRange n)).
Proof.
rewrite normalizeSegments_loop. pose proof (normalizeLoop_spec path) as H. split.
- destruct (normalizeLoop path) as [out|e|]; [| |done].
  + split; [done|]. split; [symmetry; by eapply Forall2_length|].
    rewrite normalizeSegments_loop. apply normalizeLoop_fixed.
    clear -H. induction H; constructor; [by eapply normalised_again|done].
  + destruct H as (before & seg & after & out & -> & Hb & Hs).
    exists before, seg, after, out. split; [done|]. split; [|done].
    rewrite normalizeSegments_loop.
    pose proof (normalizeLoop_spec before) as Hbefore.
    destruct (normalizeLoop before) as [out'|e'|]; [| |done].
    * f_equal. clear -Hb Hbefore. revert out' Hbefore.
      induction Hb as [|s o b out Hs _ IH]; intros out' H'; inversion H'; subst; [done|].
      f_equal; [by eapply normalised_functional|by apply IH].
    * destruct Hbefore as (b1 & s & b2 & o1 & -> & Hb1 & Hs').
      apply Forall2_app_inv_l in Hb as (? & ? & _ & Hb & _).
      inversion Hb as [|? ? ? ? Hn]; subst.
      destruct s; simpl in *; try done. destruct Hn as [_ Hn], Hs' as [Hs' _]. lia.
- intros Hrange n Hf. rewrite Hf in H.
  destruct H as (before & seg & after & out & -> & _ & Hs).
  apply Forall_app in Hrange as [_ Hrange]. apply Forall_cons in Hrange as [Hseg _].
  destruct seg as [s|k|k|t]; simpl in Hs; try done.
  destruct Hs as [Hk _]. specialize (Hseg k eq_refl). unfold minInt, maxInt in Hk. lia.
Qed.

End NormalizeFacts.

(** ** [internal/network]: byte forms and the two revisions of adjacency *)

Module NetworkBytesFacts.
Import Netip AdjacencySpec NetworkBytes.
Local Open Scope Z_scope.

Lemma byte_of (x k : Z) : 0 <= k -> Z.land (Z.shiftr x k) 255 = (x / 2 ^ k) mod 256.
Proof.
intros Hk. rewrite Z.shiftr_div_pow2 by done.
change 255 with (Z.ones 8). by rewrite Z.land_ones.
Qed.

Lemma land_low_high (x y k : Z) :
  0 <= k -> 0 <= x < 2 ^ k -> Z.land x (y * 2 ^ k) = 0.
Proof.
intros Hk Hx. apply Z.bits_inj'. intros n Hn. rewrite Z.land_spec, Z.bits_0.
destruct (Z.lt_ge_cases n k).
- rewrite Z.mul_pow2_bits_low by lia. apply andb_false_r.
- by rewrite (PrefixesFacts.testbit_high x k) by lia.
Qed.

Lemma bigEndianBytes_4 (v : Z) :
  bigEndianBytes 4 v
  = [(v / 2 ^ 24) mod 256; (v / 2 ^ 16) mod 256; (v / 2 ^ 8) mod 256; v mod 256].
Proof.
unfold bigEndianBytes. simpl. rewrite !byte_of by lia.
by rewrite Z.pow_0_r, Z.div_1_r.
Qed.

Lemma bigEndianUint32_bytes (v : Z) :
  0 <= v < 2 ^ 32 -> bigEndianUint32 (bigEndianBytes 4 v) = v.
Proof.
intros Hv. rewrite bigEndianBytes_4. unfold bigEndianUint32.
rewrite !Z.shiftl_mul_pow2 by lia.
assert (H0 : 0 <= v mod 256 < 2 ^ 8) by (apply Z.mod_pos_bound; lia).
assert (H1 : 0 <= (v / 2 ^ 8) mod 256 < 2 ^ 8) by (apply Z.mod_pos_bound; lia).
assert (H2 : 0 <= (v / 2 ^ 16) mod 256 < 2 ^ 8) by (apply Z.mod_pos_bound; lia).
assert (H3 : 0 <= (v / 2 ^ 24) mod 256 < 2 ^ 8) by (apply Z.mod_pos_bound; lia).
set (b0 := v mod 256) in *. set (b1 := (v / 2 ^ 8) mod 256) in *.
set (b2 := (v / 2 ^ 16) mod 256) in *. set (b3 := (v / 2 ^ 24) mod 256) in *.
assert (Hsum : v = b0 + b1 * 2 ^ 8 + b2 * 2 ^ 16 + b3 * 2 ^ 24).
{ unfold b0, b1, b2, b3. clear -Hv.
  change (2 ^ 8) with 256. change (2 ^ 16) with 65536. change (2 ^ 24) with 16777216.
  change (2 ^ 32) with 4294967296 in Hv. Z.div_mod_to_equations. lia. }
assert (E1 : Z.lor b0 (b1 * 2 ^ 8) = b0 + b1 * 2 ^ 8).
{ symmetry. apply Z.add_nocarry_lor. apply land_low_high; lia. }
assert (E2 : Z.lor (b0 + b1 * 2 ^ 8) (b2 * 2 ^ 16) = b0 + b1 * 2 ^ 8 + b2 * 2 ^ 16).
{ symmetry. apply Z.add_nocarry_lor. apply land_low_high; lia. }
assert (E3 : Z.lor (b0 + b1 * 2 ^ 8 + b2 * 2 ^ 16) (b3 * 2 ^ 24)
             = b0 + b1 * 2 ^ 8 + b2 * 2 ^ 16 + b3 * 2 ^ 24).
{ symmetry. apply Z.add_nocarry_lor. apply land_low_high; lia. }
rewrite E1, E2, E3. lia.
Qed.

Lemma As4_Is4 (a : Addr) :
  Is4 a = true -> As4 a = Some (bigEndianBytes 4 (lo32 a)).
Proof. intros H. unfold As4. by rewrite H. Qed.

Lemma lo32_range (a : Addr) : 0 <= lo32 a < 2 ^ 32.
Proof. unfold lo32, two32. apply Z.mod_pos_bound. lia. Qed.

Lemma AddrFrom4_lo32 (a : Addr) :
  wfAddr a -> Is4 a = true -> AddrFrom4 (lo32 a) = a.
Proof.
intros Hwf H4. apply NetworkFacts.Is4_true in H4.
destruct (NetworkFacts.lo32_v4 a Hwf H4) as [Ha Hr].
destruct a as [x zz]. simpl in *. subst zz. unfold AddrFrom4. f_equal.
rewrite Ha at 2. symmetry. apply Z.add_nocarry_lor.
unfold v4base. change 281470681743360 with (65535 * 2 ^ 32).
rewrite Z.land_comm. apply land_low_high; [lia|]. unfold two32 in Hr. lia.
Qed.

(** [IPv4ToUint32] is the number of the IPv4 address: built from the four
    bytes of [As4] it is the low 32 bits of the stored number, it undoes
    [AddrFrom4] and [AddrFrom4] undoes it; it panics exactly on an address
    that is not IPv4 (an IPv4-mapped IPv6 address included). *)
Theorem IPv4ToUint32_round_trip (a : Addr) (v : Z) :
  IPv4ToUint32 a = (if Is4 a then Some (lo32 a) else None)
  /\ IPv4ToUint32 a = Network.IPv4ToUint32 a
  /\ (0 <= v < 2 ^ 32 -> IPv4ToUint32 (AddrFrom4 v) = Some v)
  /\ (wfAddr a -> Is4 a = true -> AddrFrom4 (lo32 a) = a)
  /\ (Is4In6 a = true -> IPv4ToUint32 a = None).
Proof.
assert (H : IPv4ToUint32 a = (if Is4 a then Some (lo32 a) else None)).
{ unfold IPv4ToUint32. destruct (Is4 a) eqn:E; [|done]. simpl.
  rewrite As4_Is4 by done. f_equal. apply bigEndianUint32_bytes, lo32_range. }
split; [done|]. split; [done|]. split; [|split].
- intros Hv. unfold IPv4ToUint32. simpl. f_equal.
  assert (Hlo : lo32 (AddrFrom4 v) = v).
  { unfold lo32, AddrFrom4, two32, v4base. simpl.
    rewrite <- Z.land_ones by lia. rewrite Z.land_lor_distr_l.
    change (Z.land 281470681743360 (Z.ones 32)) with 0. rewrite Z.lor_0_l.
    rewrite Z.land_ones by lia. apply Z.mod_small. lia. }
  rewrite Hlo. by apply bigEndianUint32_bytes.
- apply AddrFrom4_lo32.
- intros H6. rewrite H. apply SplitFacts.Is4In6_not_Is4 in H6. by rewrite H6.
Qed.

Lemma As16_mapped (v : Z) :
  0 <= v < 2 ^ 32 ->
  bigEndianBytes 16 (v4base + v)
  = replicate 10 0 ++ [255; 255] ++ bigEndianBytes 4 v.
Proof.
intros Hv. rewrite bigEndianBytes_4. unfold bigEndianBytes, v4base. simpl.
rewrite !byte_of by lia.
change (2 ^ 32) with 4294967296 in Hv.
repeat (f_equal; [simpl; Z.div_mod_to_equations; lia|]).
f_equal. simpl. Z.div_mod_to_equations. lia.
Qed.

(** [IPv4ToPaddedIPv6] gives the sixteen bytes of ::ffff:a.b.c.d: they are
    the bytes [As16] gives for the IPv4 address itself and the bytes
    [IPv6ToBytes] gives for the IPv4-mapped IPv6 address, which [Unmap]
    turns back into the IPv4 address; the last four are the bytes of
    [As4].  Both functions panic on an address of the other version. *)
Theorem IPv4ToPaddedIPv6_is_mapped (a : Addr) :
  wfAddr a -> Is4 a = true ->
  let mapped := mkAddr (addr a) z6noz in
  IPv4ToPaddedIPv6 a = Some (As16 a)
  /\ IPv4ToPaddedIPv6 a = IPv6ToBytes mapped
  /\ Is4In6 mapped = true /\ Unmap mapped = a
  /\ (exists bytes, As4 a = Some bytes /\ length bytes = 4%nat
        /\ IPv4ToPaddedIPv6 a = Some (replicate 10 0 ++ [255; 255] ++ bytes))
  /\ IPv6ToBytes a = None /\ IPv4ToPaddedIPv6 mapped = None.
Proof.
intros Hwf H4 mapped. pose proof H4 as Hz. apply NetworkFacts.Is4_true in Hz.
destruct (NetworkFacts.lo32_v4 a Hwf Hz) as [Ha Hr]. unfold two32 in Hr.
assert (Hp : IPv4ToPaddedIPv6 a
             = Some (replicate 10 0 ++ [255; 255] ++ bigEndianBytes 4 (lo32 a))).
{ unfold IPv4ToPaddedIPv6. rewrite H4. simpl negb. cbv iota.
  rewrite As4_Is4 by done. rewrite bigEndianBytes_4. reflexivity. }
assert (H16 : As16 a = replicate 10 0 ++ [255; 255] ++ bigEndianBytes 4 (lo32 a)).
{ unfold As16. rewrite Ha. by apply As16_mapped. }
assert (Hm : Is4In6 mapped = true).
{ unfold Is4In6, Is6, mapped. cbn [addr z].
  rewrite !bool_decide_eq_false_2 by done. cbn [negb andb]. rewrite Ha. apply Z.eqb_eq.
  rewrite Z.shiftr_div_pow2 by lia. unfold v4base.
  change (2 ^ 32) with 4294967296 in *. Z.div_mod_to_equations. lia. }
split; [by rewrite Hp, H16|]. split; [|split; [done|split; [|split; [|split]]]].
- rewrite Hp, <- H16. unfold IPv6ToBytes, Is6, mapped. cbn [z].
  rewrite !bool_decide_eq_false_2 by done. reflexivity.
- unfold Unmap. rewrite Hm. destruct a as [x zz]. simpl in *. by subst zz.
- exists (bigEndianBytes 4 (lo32 a)). split; [by apply As4_Is4|]. split; [|done].
  by rewrite bigEndianBytes_4.
- unfold IPv6ToBytes, Is6. by rewrite Hz.
- reflexivity.
Qed.

Lemma IPv4ToPaddedIPv6_is_mapped_witness :
  IPv4ToPaddedIPv6 (v4 10 0 0 1) = Some (As16 (v4 10 0 0 1))
  /\ IPv4ToPaddedIPv6 (v4 10 0 0 1)
     = Some [0; 0; 0; 0; 0; 0; 0; 0; 0; 0; 255; 255; 10; 0; 0; 1].
Proof.
destruct (IPv4ToPaddedIPv6_is_mapped (v4 10 0 0 1)) as (H1 & _).
- vm_compute. split; [discriminate|reflexivity].
- reflexivity.
- split; [exact H1|]. vm_compute. reflexivity.
Defined.

(** The two revisions of [IsAdjacent] in the tree give the same answer on
    every pair of addresses but one: the end 255.255.255.255 with the
    start 0.0.0.0, where the revision that adds one in [uint32] says yes
    and the revision that compares with [Addr.Next] says no.  On an end
    that is not IPv4 they are the same test. *)
Theorem IsAdjacent_revisions_differ_once (a b : Addr) :
  wfAddr a -> wfAddr b ->
  (Network.IsAdjacent a b <> Network005.IsAdjacent a b
   <-> a = AddrFrom4 (2 ^ 32 - 1) /\ b = AddrFrom4 0)
  /\ (Is4 a = false -> Network.IsAdjacent a b = Network005.IsAdjacent a b)
  /\ (Network005.IsAdjacent a b = true -> Network.IsAdjacent a b = true).
Proof.
intros Ha Hb.
assert (Hsame6 : Is4 a = false -> Network.IsAdjacent a b = Network005.IsAdjacent a b).
{ intros H. unfold Network.IsAdjacent, Network005.IsAdjacent. rewrite H.
  by destruct (negb _). }
assert (Hwrap : Network.IsAdjacent (AddrFrom4 (2 ^ 32 - 1)) (AddrFrom4 0) = true
                /\ Network005.IsAdjacent (AddrFrom4 (2 ^ 32 - 1)) (AddrFrom4 0) = false).
{ by vm_compute. }
destruct (Is4 a) eqn:E4a.
- destruct (Is4 b) eqn:E4b.
  + assert (Hva : IsValid a = true).
    { apply NetworkFacts.Is4_true in E4a. unfold IsValid. rewrite E4a. done. }
    assert (Hvb : IsValid b = true).
    { apply NetworkFacts.Is4_true in E4b. unfold IsValid. rewrite E4b. done. }
    pose proof (NetworkFacts.IsAdjacent_iff_or_wrap a b Ha Hb Hva Hvb) as H1.
    pose proof (NetworkFacts.IsAdjacent005_iff a b Ha Hva Hvb) as H5.
    split; [|split; [done|]].
    * split.
      -- intros Hne.
         destruct (Network.IsAdjacent a b) eqn:E1, (Network005.IsAdjacent a b) eqn:E5;
           try done.
         ++ destruct (proj1 H1 eq_refl) as [Hs|(_ & _ & Hmax & Hzero)].
            { apply H5 in Hs. done. }
            unfold value, maxValue, BitLen in *. rewrite E4a in Hmax. rewrite E4b in Hzero.
            apply NetworkFacts.Is4_true in E4a as Hza. rewrite Hza in Hmax.
            rewrite <- (AddrFrom4_lo32 a Ha E4a), <- (AddrFrom4_lo32 b Hb E4b).
            by rewrite Hmax, Hzero.
         ++ assert (false = true); [|done]. apply H1. left. by apply H5.
      -- intros [-> ->]. destruct Hwrap as [-> ->]. done.
    * intros H. apply H1. left. by apply H5.
  + assert (Network.IsAdjacent a b = false /\ Network005.IsAdjacent a b = false) as [-> ->].
    { unfold Network.IsAdjacent, Network005.IsAdjacent. by rewrite E4a, E4b. }
    split; [|done]. split; [done|]. intros [-> ->]. done.
- split; [|split; [done|]].
  + rewrite Hsame6 by done. split; [done|]. intros [-> _]. done.
  + intros H. by rewrite Hsame6.
Qed.

Lemma IsAdjacent_revisions_differ_once_witness :
  Network.IsAdjacent (v4 255 255 255 255) (v4 0 0 0 0)
  <> Network005.IsAdjacent (v4 255 255 255 255) (v4 0 0 0 0).
Proof.
destruct (IsAdjacent_revisions_differ_once (v4 255 255 255 255) (v4 0 0 0 0))
  as (H & _).
- vm_compute. split; [discriminate|reflexivity].
- vm_compute. split; [discriminate|reflexivity].
- apply H. split; reflexivity.
Defined.

End NetworkBytesFacts.

(** ** [accumulator.go]: what the emitted ranges cover *)

Module CoverageFacts.
Import Netip Errors Sink Accumulator AdjacencySpec CoalesceSpec.
Local Open Scope Z_scope.

(** A prefix as the readers give it: valid, of a well-formed address
    without zone. *)
Definition wfPrefix (p : Prefix) : Prop :=
  PrefixIsValid p = true /\ wfAddr (ip p) /\ (z (ip p) = z4 \/ z (ip p) = z6noz).

(** The address [x] lies between [s] and [e], in their address space. *)
Definition covers (s e x : Addr) : Prop :=
  z x = z s /\ addr s <= addr x <= addr e.

Lemma upper_multiple (lo k n : Z) :
  0 <= k <= n -> 0 <= lo < 2 ^ n -> lo - lo mod 2 ^ k + 2 ^ k <= 2 ^ n.
Proof.
intros Hk Hlo.
assert (Hpk : 0 < 2 ^ k) by (apply Z.pow_pos_nonneg; lia).
assert (Hsplit : 2 ^ n = 2 ^ k * 2 ^ (n - k)).
{ rewrite <- Z.pow_add_r by lia. f_equal. lia. }
assert (Hpn : 0 < 2 ^ (n - k)) by (apply Z.pow_pos_nonneg; lia).
pose proof (Z.div_mod lo (2 ^ k) ltac:(lia)) as Hdm.
pose proof (Z.mod_pos_bound lo (2 ^ k) Hpk) as Hm.
set (q := lo / 2 ^ k) in *. set (r := lo mod 2 ^ k) in *.
assert (Hq : q < 2 ^ (n - k)).
{ destruct (Z.lt_ge_cases q (2 ^ (n - k))) as [|Hge]; [done|].
  assert (2 ^ k * 2 ^ (n - k) <= 2 ^ k * q) by (apply Z.mul_le_mono_nonneg_l; lia).
  lia. }
assert (2 ^ k * (q + 1) <= 2 ^ k * 2 ^ (n - k)) by (apply Z.mul_le_mono_nonneg_l; lia).
lia.
Qed.

Lemma PrefixLastIP_facts (p : Prefix) :
  wfPrefix p ->
  z (PrefixLastIP p) = z (ip p)
  /\ addr (ip p) <= addr (PrefixLastIP p)
  /\ wfAddr (PrefixLastIP p)
  /\ IsValid (PrefixLastIP p) = true /\ IsValid (ip p) = true.
Proof.
intros (Hv & Hwf & Hz). unfold PrefixLastIP. rewrite Hv. cbn [negb].
unfold PrefixIsValid in Hv. apply andb_true_iff in Hv as [Hv Hb2].
apply andb_true_iff in Hv as [Hval Hb1].
apply Z.leb_le in Hb1, Hb2. unfold wfAddr in Hwf. unfold BitLen in Hb2.
destruct Hz as [Hz|Hz]; rewrite Hz in Hwf, Hb2.
- assert (H4 : Is4 (ip p) = true) by (by apply NetworkFacts.Is4_true).
  rewrite H4. unfold two32 in Hwf.
  set (k := 32 - bits p). assert (Hk : 0 <= k <= 32) by lia.
  assert (Hlor : Z.lor (addr (ip p)) (Z.ones k)
                 = addr (ip p) - addr (ip p) mod 2 ^ k + 2 ^ k - 1).
  { apply PrefixesFacts.lor_ones; unfold v4base in *; lia. }
  set (lo := addr (ip p) - v4base).
  assert (Hlo : 0 <= lo < 2 ^ 32) by (unfold lo; lia).
  assert (Hmod : addr (ip p) mod 2 ^ k = lo mod 2 ^ k).
  { replace (addr (ip p)) with (lo + 65535 * 2 ^ (32 - k) * 2 ^ k).
    - by rewrite Z.mod_add by (apply Z.pow_nonzero; lia).
    - rewrite <- Z.mul_assoc, <- Z.pow_add_r by lia.
      replace (32 - k + k) with 32 by lia. unfold lo, v4base. lia. }
  pose proof (upper_multiple lo k 32 Hk Hlo) as Hup.
  pose proof (Z.mod_pos_bound lo (2 ^ k) ltac:(apply Z.pow_pos_nonneg; lia)) as Hm.
  assert (Hr : v4base <= Z.lor (addr (ip p)) (Z.ones k) < v4base + 2 ^ 32
               /\ addr (ip p) <= Z.lor (addr (ip p)) (Z.ones k)).
  { rewrite Hlor, Hmod. unfold lo in *. lia. }
  destruct Hr as [Hr Hle].
  assert (H46 : Is4In6 (AddrFrom16 (Z.lor (addr (ip p)) (Z.ones k))) = true).
  { unfold Is4In6, Is6, AddrFrom16. cbn [addr z].
    rewrite !bool_decide_eq_false_2 by done. cbn [negb andb]. apply Z.eqb_eq.
    rewrite Z.shiftr_div_pow2 by lia. unfold v4base in Hr.
    symmetry. apply Z.div_unique with (r := Z.lor (addr (ip p)) (Z.ones k) - 65535 * 2 ^ 32); lia. }
  unfold Unmap. rewrite H46. cbn [addr z]. rewrite Hz.
  split; [done|]. split; [done|]. split; [|done].
  unfold wfAddr. cbn [z addr]. unfold two32. done.
- assert (H4 : Is4 (ip p) = false).
  { apply NetworkFacts.Is4_false. by rewrite Hz. }
  rewrite H4. unfold AddrFrom16. cbn [addr z]. rewrite Hz. unfold two128 in Hwf.
  set (k := 128 - bits p). assert (Hk : 0 <= k <= 128) by lia.
  rewrite PrefixesFacts.lor_ones by lia.
  pose proof (upper_multiple (addr (ip p)) k 128 Hk Hwf) as Hup.
  pose proof (Z.mod_pos_bound (addr (ip p)) (2 ^ k) ltac:(apply Z.pow_pos_nonneg; lia)) as Hm.
  split; [done|]. split; [lia|]. split; [|done].
  unfold wfAddr. cbn [z addr]. unfold two128. lia.
Qed.

Lemma adjacent_next (e s : Addr) :
  wfAddr e -> IsValid e = true -> IsValid s = true ->
  Network005.IsAdjacent e s = true ->
  z s = z e /\ addr s = addr e + 1.
Proof.
intros Hwf He Hs H. apply NetworkFacts.IsAdjacent005_iff in H; try done.
unfold successor in H. destruct (IsValid e && (value e <? maxValue e)); [|done].
by injection H as <-.
Qed.

Section Coverage.
Context {D : Type}.
Variable isEmpty0 : D -> bool.
Variable dataEq : D -> D -> bool.
Variable inc : bool.

Local Abbreviation range := (@CoalesceSpec.range D).
Local Abbreviation step := (CoalesceFacts.step isEmpty0 dataEq Network005.IsAdjacent).
Local Abbreviation pending := (@CoalesceFacts.pending D).

(** The data of a range and the data of a row merged into it: the very
    data of the row that opened the range, or data [dataEquals] accepts. *)
Definition sameData (d d' : D) : Prop := d = d' \/ dataEq d d' = true.

(** A row that [Process] does not skip. *)
Definition kept (d : D) : Prop := inc = true \/ isEmpty0 d = false.

Definition wfRange (r : range) : Prop :=
  z (fst (fst r)) = z (snd (fst r)) /\ addr (fst (fst r)) <= addr (snd (fst r))
  /\ wfAddr (snd (fst r)) /\ IsValid (snd (fst r)) = true.

Definition rangeOfRows (rows : list (Prefix * D)) (r : range) : Prop :=
  forall x, covers (fst (fst r)) (snd (fst r)) x ->
    exists p d', (p, d') ∈ rows /\ kept d'
      /\ covers (ip p) (PrefixLastIP p) x /\ sameData (snd r) d'.

Definition rowInRanges (S : list range) (row : Prefix * D) : Prop :=
  kept (snd row) ->
  forall x, covers (ip (fst row)) (PrefixLastIP (fst row)) x ->
    exists r, r ∈ S /\ covers (fst (fst r)) (snd (fst r)) x
      /\ sameData (snd r) (snd row).

Definition Inv (rows : list (Prefix * D)) (S : list range) : Prop :=
  Forall wfRange S /\ Forall (rangeOfRows rows) S /\ Forall (rowInRanges S) rows.

Lemma rangeOfRows_mono (rows : list (Prefix * D)) (row : Prefix * D) (r : range) :
  rangeOfRows rows r -> rangeOfRows (rows ++ [row]) r.
Proof.
intros H x Hx. destruct (H x Hx) as (p & d' & Hin & ?). exists p, d'.
split; [|done]. apply elem_of_app. by left.
Qed.

Lemma rowInRanges_mono (S : list range) (r : range) (row : Prefix * D) :
  rowInRanges S row -> rowInRanges (S ++ [r]) row.
Proof.
intros H Hk x Hx. destruct (H Hk x Hx) as (r0 & Hin & ?). exists r0.
split; [|done]. apply elem_of_app. by left.
Qed.

(** A row that is skipped. *)
Lemma Inv_skip (rows : list (Prefix * D)) (S : list range) (p : Prefix) (d : D) :
  Inv rows S -> ~ kept d -> Inv (rows ++ [(p, d)]) S.
Proof.
intros (Hw & Hr & Hc) Hn. split; [done|]. split.
- eapply Forall_impl; [exact Hr|]. intros r. apply rangeOfRows_mono.
- apply Forall_app. split; [done|]. constructor; [|constructor].
  intros Hk. by destruct Hn.
Qed.

(** A row that opens a range. *)
Lemma Inv_open (rows : list (Prefix * D)) (S : list range) (p : Prefix) (d : D) :
  Inv rows S -> kept d -> wfPrefix p ->
  Inv (rows ++ [(p, d)]) (S ++ [(PrefixAddr p, PrefixLastIP p, d)]).
Proof.
intros (Hw & Hr & Hc) Hk Hp.
destruct (PrefixLastIP_facts p Hp) as (Hz & Hle & Hwl & Hvl & Hvp).
split; [|split].
- apply Forall_app. split; [done|]. constructor; [|constructor].
  unfold wfRange, PrefixAddr. simpl. by rewrite Hz.
- apply Forall_app. split.
  + eapply Forall_impl; [exact Hr|]. intros r. apply rangeOfRows_mono.
  + constructor; [|constructor]. intros x Hx. exists p, d. simpl in *.
    split; [apply elem_of_app; right; left|]. split; [done|]. split; [done|by left].
- apply Forall_app. split.
  + eapply Forall_impl; [exact Hc|]. intros row. apply rowInRanges_mono.
  + constructor; [|constructor]. intros _ x Hx. eexists. split.
    * apply elem_of_app. right. left.
    * simpl. split; [done|by left].
Qed.

(** A row that extends the last range. *)
Lemma Inv_extend (rows : list (Prefix * D)) (S : list range) (s e : Addr)
    (dc d : D) (p : Prefix) :
  Inv rows (S ++ [(s, e, dc)]) -> kept d -> wfPrefix p ->
  Network005.IsAdjacent e (PrefixAddr p) = true -> dataEq dc d = true ->
  Inv (rows ++ [(p, d)]) (S ++ [(s, PrefixLastIP p, dc)]).
Proof.
intros (Hw & Hr & Hc) Hk Hp Hadj Heq.
destruct (PrefixLastIP_facts p Hp) as (Hz & Hle & Hwl & Hvl & Hvp).
apply Forall_app in Hw as [Hw Hwc]. apply Forall_cons in Hwc as [Hwc _].
destruct Hwc as (Hzc & Hlec & Hwe & Hve). simpl in *.
destruct (adjacent_next e (PrefixAddr p) Hwe Hve Hvp Hadj) as [Hzp Hnext].
unfold PrefixAddr in *.
apply Forall_app in Hr as [Hr Hrc]. apply Forall_cons in Hrc as [Hrc _].
split; [|split].
- apply Forall_app. split; [done|]. constructor; [|constructor].
  unfold wfRange. simpl. split; [congruence|]. split; [lia|done].
- apply Forall_app. split.
  + eapply Forall_impl; [exact Hr|]. intros r. apply rangeOfRows_mono.
  + constructor; [|constructor]. intros x [Hzx Hx]. simpl in *.
    destruct (Z.le_gt_cases (addr x) (addr e)) as [Hin|Hout].
    * destruct (Hrc x) as (p0 & d0 & Hin0 & ?); [split; simpl; [done|lia]|].
      exists p0, d0. split; [|done]. apply elem_of_app. by left.
    * exists p, d. split; [apply elem_of_app; right; left|]. split; [done|].
      split; [|by right]. split; [congruence|lia].
- apply Forall_app. split.
  + eapply Forall_impl; [exact Hc|]. intros row Hrow Hkr x Hx.
    destruct (Hrow Hkr x Hx) as (r & Hin & Hcov & Hsame).
    apply elem_of_app in Hin as [Hin|Hin].
    * exists r. split; [|done]. apply elem_of_app. by left.
    * apply list_elem_of_singleton in Hin as ->. simpl in *.
      eexists. split; [apply elem_of_app; right; left|]. simpl.
      split; [|done]. destruct Hcov as [? ?]. split; [done|lia].
  + constructor; [|constructor]. intros _ x [Hzx Hx]. simpl in *.
    eexists. split; [apply elem_of_app; right; left|]. simpl.
    split; [|by right]. split; [congruence|lia].
Qed.

Lemma kept_dec (d : D) : negb inc && isEmpty0 d = false <-> kept d.
Proof.
unfold kept. destruct inc, (isEmpty0 d); simpl; split; try done; try (by left);
  try (by right). intros [|]; done.
Qed.

Lemma step_Inv (rows : list (Prefix * D)) (ranges : list range)
    (cur : option (AccumulatedRange D)) (p : Prefix) (d : D) :
  wfPrefix p ->
  Inv rows (ranges ++ pending cur) ->
  Inv (rows ++ [(p, d)])
    ((ranges ++ snd (step cur inc p d)) ++ pending (fst (step cur inc p d))).
Proof.
intros Hp HI. unfold CoalesceFacts.step.
destruct (negb inc && isEmpty0 d) eqn:Ek.
- simpl. rewrite app_nil_r. apply Inv_skip; [done|].
  intros Hk. apply kept_dec in Hk. congruence.
- apply kept_dec in Ek. destruct cur as [c|].
  + destruct (Network005.IsAdjacent (EndIP c) (PrefixAddr p)) eqn:Hadj; simpl.
    * destruct (dataEq (Data c) d) eqn:Heq; simpl.
      -- rewrite app_nil_r. by apply Inv_extend with (e := EndIP c).
      -- by apply (Inv_open rows (ranges ++ [(StartIP c, EndIP c, Data c)])).
    * by apply (Inv_open rows (ranges ++ [(StartIP c, EndIP c, Data c)])).
  + simpl in *. rewrite !app_nil_r in *. by apply Inv_open.
Qed.

Lemma feed_Inv (done rows : list (Prefix * D)) (ranges : list range)
    (cur : option (AccumulatedRange D)) :
  Forall (fun row => wfPrefix (fst row)) rows ->
  Inv done (ranges ++ pending cur) ->
  exists cur' ranges',
    Accumulator.feed (W := list (call D)) (fun _ d => isEmpty0 d)
      (fun _ d1 d2 => dataEq d1 d2) Network005.IsAdjacent
      (mkAccumulator cur rangeRecorder inc) rows (rangeCalls ranges)
    = (mkAccumulator cur' rangeRecorder inc, rangeCalls ranges', None)
    /\ Inv (done ++ rows) (ranges' ++ pending cur').
Proof.
revert done ranges cur. induction rows as [|[p d] rows IH]; intros done ranges cur Hwf HI.
- exists cur, ranges. simpl. by rewrite app_nil_r.
- apply Forall_cons in Hwf as [Hp Hwf]. simpl in Hp.
  cbn [Accumulator.feed]. rewrite CoalesceFacts.Process_rangeRecorder.
  destruct (IH (done ++ [(p, d)]) (ranges ++ snd (step cur inc p d))
              (fst (step cur inc p d)) Hwf) as (cur' & ranges' & Hfeed & HI').
  { by apply step_Inv. }
  exists cur', ranges'. rewrite <- app_assoc in HI'. done.
Qed.

(** What the ranges a sink receives cover, with the adjacency test of
    [part_005], for any stream of valid prefixes, sorted or not.  Every
    range has its two ends in one address space, in order.  Nothing is
    invented: an address of an emitted range is an address of a row that
    was not skipped, and the data of the range is the data of that row or
    data [dataEquals] accepts for it.  Nothing is lost: every address of
    every row that was not skipped is in an emitted range, with such
    data. *)
Theorem emitted_ranges_cover_rows (rows : list (Prefix * D)) :
  Forall (fun row => wfPrefix (fst row)) rows ->
  exists ranges : list range,
    Accumulator.run (W := list (call D)) (fun _ d => isEmpty0 d)
      (fun _ d1 d2 => dataEq d1 d2) Network005.IsAdjacent
      (NewAccumulator rangeRecorder inc) rows []
    = (NewAccumulator rangeRecorder inc, rangeCalls ranges, None)
    /\ (forall s e d, (s, e, d) ∈ ranges ->
          z s = z e /\ Is4 s = Is4 e /\ addr s <= addr e /\ IsValid e = true)
    /\ (forall s e d x, (s, e, d) ∈ ranges -> covers s e x ->
          exists p d', (p, d') ∈ rows /\ kept d'
            /\ covers (PrefixAddr p) (PrefixLastIP p) x /\ sameData d d')
    /\ (forall p d' x, (p, d') ∈ rows -> kept d' ->
          covers (PrefixAddr p) (PrefixLastIP p) x ->
          exists s e d, (s, e, d) ∈ ranges /\ covers s e x /\ sameData d d').
Proof.
intros Hwf.
destruct (feed_Inv [] rows [] None Hwf) as (cur & ranges & Hfeed & Hw & Hr & Hc).
{ split; [constructor|]. split; constructor. }
exists (ranges ++ pending cur). split; [|split; [|split]].
- unfold Accumulator.run, NewAccumulator. change (@nil (call D)) with (rangeCalls (@nil range)).
  rewrite Hfeed. destruct cur as [c|].
  + rewrite AccumulatorFacts.Flush_rangeRecorder.
    unfold rangeCalls. rewrite fmap_app. done.
  + simpl. by rewrite app_nil_r.
- intros s e d Hin. rewrite Forall_forall in Hw.
  destruct (Hw _ Hin) as (Hz & Hle & _ & Hv). simpl in *.
  split; [done|]. split; [|done]. unfold Is4. by rewrite Hz.
- intros s e d x Hin Hx. rewrite Forall_forall in Hr. by apply (Hr _ Hin x).
- intros p d' x Hin Hk Hx. rewrite Forall_forall in Hc.
  destruct (Hc _ Hin Hk x Hx) as ([[s e] d] & ? & ? & ?). by exists s, e, d.
Qed.

(** Rows in ascending order: each starts after the last address of every
    row before it. *)
Fixpoint rowsAscending (rows : list (Prefix * D)) : Prop :=
  match rows with
  | [] => True
  | row :: rest =>
    Forall (fun row' => addr (PrefixLastIP (fst row)) < addr (ip (fst row'))) rest
    /\ rowsAscending rest
  end.

Fixpoint rangesAscending (S : list range) : Prop :=
  match S with
  | [] => True
  | r :: rest =>
    Forall (fun r' => addr (snd (fst r)) < addr (fst (fst r'))) rest
    /\ rangesAscending rest
  end.

Lemma rangesAscending_snoc (S : list range) (r : range) :
  rangesAscending S ->
  Forall (fun r0 => addr (snd (fst r0)) < addr (fst (fst r))) S ->
  rangesAscending (S ++ [r]).
Proof.
induction S as [|r0 S IH]; simpl; [done|].
intros [Hr0 HS] Hall. apply Forall_cons in Hall as [H0 Hall]. split; [|by apply IH].
apply Forall_app. split; [done|]. by constructor.
Qed.

Lemma rangesAscending_last (S : list range) (s e e' : Addr) (d : D) :
  rangesAscending (S ++ [(s, e, d)]) -> rangesAscending (S ++ [(s, e', d)]).
Proof.
induction S as [|r0 S IH]; simpl; [done|].
intros [Hr0 HS]. split; [|by apply IH].
apply Forall_app in Hr0 as [H1 H2]. apply Forall_app. split; [done|].
apply Forall_cons in H2 as [H2 _]. by constructor.
Qed.

Lemma rowsAscending_snoc_inv (rows : list (Prefix * D)) (row : Prefix * D) :
  rowsAscending (rows ++ [row]) ->
  rowsAscending rows
  /\ Forall (fun r0 => addr (PrefixLastIP (fst r0)) < addr (ip (fst row))) rows.
Proof.
induction rows as [|r0 rows IH]; simpl; [done|].
intros [H0 Hrest]. apply Forall_app in H0 as [H0 Hrow].
apply Forall_cons in Hrow as [Hrow _]. destruct (IH Hrest) as [? ?].
split; [done|]. by constructor.
Qed.

(** Every range ends where a row seen ends. *)
Definition endsAtRow (rows : list (Prefix * D)) (r : range) : Prop :=
  exists p d, (p, d) ∈ rows /\ snd (fst r) = PrefixLastIP p.

Definition Asc (rows : list (Prefix * D)) (S : list range) : Prop :=
  rangesAscending S /\ Forall (endsAtRow rows) S.

Lemma endsAtRow_mono (rows : list (Prefix * D)) (row : Prefix * D) (r : range) :
  endsAtRow rows r -> endsAtRow (rows ++ [row]) r.
Proof.
intros (p & d & Hin & ?). exists p, d. split; [|done]. apply elem_of_app. by left.
Qed.

Lemma step_Asc (rows : list (Prefix * D)) (ranges : list range)
    (cur : option (AccumulatedRange D)) (p : Prefix) (d : D) :
  Forall (fun r0 => addr (PrefixLastIP (fst r0)) < addr (ip p)) rows ->
  Asc rows (ranges ++ pending cur) ->
  Asc (rows ++ [(p, d)])
    ((ranges ++ snd (step cur inc p d)) ++ pending (fst (step cur inc p d))).
Proof.
intros Hlt [Ha He].
assert (Hmono : Forall (endsAtRow (rows ++ [(p, d)])) (ranges ++ pending cur)).
{ eapply Forall_impl; [exact He|]. intros r. apply endsAtRow_mono. }
assert (Hnew : forall s dd, endsAtRow (rows ++ [(p, d)]) (s, PrefixLastIP p, dd)).
{ intros s dd. exists p, d. split; [apply elem_of_app; right; left|done]. }
assert (Hopen : forall S, rangesAscending S -> Forall (endsAtRow rows) S ->
  rangesAscending (S ++ [(PrefixAddr p, PrefixLastIP p, d)])).
{ intros S HS HSe. apply rangesAscending_snoc; [done|].
  apply Forall_forall. intros r Hr.
  destruct (proj1 (Forall_forall _ _) HSe r Hr) as (p0 & d0 & Hin & ->). simpl.
  by apply (proj1 (Forall_forall _ _) Hlt (p0, d0)). }
unfold CoalesceFacts.step. destruct (negb inc && isEmpty0 d).
- simpl. rewrite app_nil_r. done.
- destruct cur as [c|].
  + destruct (Network005.IsAdjacent (EndIP c) (PrefixAddr p) && dataEq (Data c) d);
      simpl in *.
    * rewrite app_nil_r. split; [by eapply rangesAscending_last|].
      apply Forall_app in Hmono as [Hm _]. apply Forall_app. split; [done|].
      constructor; [apply Hnew|constructor].
    * split; [by apply Hopen|]. apply Forall_app. split; [done|].
      constructor; [apply Hnew|constructor].
  + simpl in *. rewrite !app_nil_r in *. split; [by apply Hopen|].
    apply Forall_app. split; [done|]. constructor; [apply Hnew|constructor].
Qed.

Lemma rowsAscending_before (pre post : list (Prefix * D)) (row : Prefix * D) :
  rowsAscending (pre ++ row :: post) ->
  Forall (fun r0 => addr (PrefixLastIP (fst r0)) < addr (ip (fst row))) pre.
Proof.
induction pre as [|r0 pre IH]; simpl; [constructor|].
intros [H0 Hrest]. constructor; [|by apply IH].
apply Forall_app in H0 as [_ H0]. by apply Forall_cons in H0 as [H0 _].
Qed.

Lemma feed_Inv_Asc (done rows : list (Prefix * D)) (ranges : list range)
    (cur : option (AccumulatedRange D)) :
  Forall (fun row => wfPrefix (fst row)) rows ->
  rowsAscending (done ++ rows) ->
  Inv done (ranges ++ pending cur) -> Asc done (ranges ++ pending cur) ->
  exists cur' ranges',
    Accumulator.feed (W := list (call D)) (fun _ d => isEmpty0 d)
      (fun _ d1 d2 => dataEq d1 d2) Network005.IsAdjacent
      (mkAccumulator cur rangeRecorder inc) rows (rangeCalls ranges)
    = (mkAccumulator cur' rangeRecorder inc, rangeCalls ranges', None)
    /\ Inv (done ++ rows) (ranges' ++ pending cur')
    /\ Asc (done ++ rows) (ranges' ++ pending cur').
Proof.
revert done ranges cur.
induction rows as [|[p d] rows IH]; intros done ranges cur Hwf Hasc HI HA.
- exists cur, ranges. simpl. by rewrite app_nil_r.
- apply Forall_cons in Hwf as [Hp Hwf]. simpl in Hp.
  cbn [Accumulator.feed]. rewrite CoalesceFacts.Process_rangeRecorder.
  pose proof (rowsAscending_before _ _ _ Hasc) as Hlt. simpl in Hlt.
  destruct (IH (done ++ [(p, d)]) (ranges ++ snd (step cur inc p d))
              (fst (step cur inc p d)) Hwf) as (cur' & ranges' & Hfeed & HI' & HA').
  { by rewrite <- app_assoc. }
  { by apply step_Inv. }
  { by apply step_Asc. }
  exists cur', ranges'. rewrite <- app_assoc in HI', HA'. done.
Qed.

(** Rows that come in ascending order leave in ascending order: with the
    adjacency test of [part_005], when every row starts after the last
    address of the rows before it, every emitted range starts after the
    end of the ranges emitted before it and ends no earlier than it
    starts, so the ranges do not overlap. *)
Theorem emitted_ranges_ascending (rows : list (Prefix * D)) :
  Forall (fun row => wfPrefix (fst row)) rows ->
  rowsAscending rows ->
  exists ranges : list range,
    Accumulator.run (W := list (call D)) (fun _ d => isEmpty0 d)
      (fun _ d1 d2 => dataEq d1 d2) Network005.IsAdjacent
      (NewAccumulator rangeRecorder inc) rows []
    = (NewAccumulator rangeRecorder inc, rangeCalls ranges, None)
    /\ (forall (i j : nat) s1 e1 d1 s2 e2 d2,
          (i < j)%nat -> ranges !! i = Some (s1, e1, d1) ->
          ranges !! j = Some (s2, e2, d2) ->
          addr s1 <= addr e1 /\ addr e1 < addr s2 /\ addr s2 <= addr e2).
Proof.
intros Hwf Hasc.
destruct (feed_Inv_Asc [] rows [] None Hwf Hasc)
  as (cur & ranges & Hfeed & (Hw & _ & _) & (Ha & _)).
{ split; [constructor|]. split; constructor. }
{ split; constructor. }
exists (ranges ++ pending cur). split.
- unfold Accumulator.run, NewAccumulator.
  change (@nil (call D)) with (rangeCalls (@nil range)).
  rewrite Hfeed. destruct cur as [c|].
  + rewrite AccumulatorFacts.Flush_rangeRecorder.
    unfold rangeCalls. rewrite fmap_app. done.
  + simpl. by rewrite app_nil_r.
- generalize dependent (ranges ++ pending cur). clear.
  intros S Hw Ha i. revert S Hw Ha.
  induction i as [|i IH]; intros [|r S] Hw Ha j s1 e1 d1 s2 e2 d2 Hij H1 H2;
    simpl in *; try done; destruct j as [|j]; try lia; simpl in H2;
    apply Forall_cons in Hw as [Hr Hw]; destruct Ha as [Hlt Ha].
  + injection H1 as ->.
    pose proof (proj1 (Forall_forall _ _) Hlt _ (list_elem_of_lookup_2 _ _ _ H2)) as H12.
    pose proof (proj1 (Forall_forall _ _) Hw _ (list_elem_of_lookup_2 _ _ _ H2)) as Hw2.
    destruct Hr as (_ & ? & _), Hw2 as (_ & ? & _). simpl in *. done.
  + apply (IH S Hw Ha j s1 e1 d1 s2 e2 d2); [lia|done|done].
Qed.

End Coverage.

Lemma emitted_ranges_ascending_witness :
  exists ranges : list (Addr * Addr * nat),
    Accumulator.run (W := list (call nat)) (fun _ _ => false)
      (fun _ d1 d2 => Nat.eqb d1 d2) Network005.IsAdjacent
      (NewAccumulator rangeRecorder false)
      [(Examples.net_10_0_0_0_25, 7%nat); (Examples.net_10_0_1_0_25, 7%nat)] []
    = (NewAccumulator rangeRecorder false, rangeCalls ranges, None)
    /\ forall (i j : nat) s1 e1 d1 s2 e2 d2,
         (i < j)%nat -> ranges !! i = Some (s1, e1, d1) ->
         ranges !! j = Some (s2, e2, d2) ->
         addr s1 <= addr e1 /\ addr e1 < addr s2 /\ addr s2 <= addr e2.
Proof.
apply (emitted_ranges_ascending (fun _ : nat => false) Nat.eqb false
         [(Examples.net_10_0_0_0_25, 7%nat); (Examples.net_10_0_1_0_25, 7%nat)]).
- repeat constructor; vm_compute; try reflexivity; try discriminate.
- repeat constructor; vm_compute; reflexivity.
Defined.

Lemma emitted_ranges_cover_rows_witness :
  exists ranges : list (Addr * Addr * nat),
    Accumulator.run (W := list (call nat)) (fun _ _ => false)
      (fun _ d1 d2 => Nat.eqb d1 d2) Network005.IsAdjacent
      (NewAccumulator rangeRecorder false)
      [(Examples.net_10_0_0_0_25, 7%nat); (Examples.net_10_0_0_128_25, 7%nat)] []
    = (NewAccumulator rangeRecorder false, rangeCalls ranges, None)
    /\ forall s e d, (s, e, d) ∈ ranges ->
         z s = z e /\ Is4 s = Is4 e /\ addr s <= addr e /\ IsValid e = true.
Proof.
destruct (emitted_ranges_cover_rows (fun _ : nat => false) Nat.eqb false
            [(Examples.net_10_0_0_0_25, 7%nat); (Examples.net_10_0_0_128_25, 7%nat)])
  as (ranges & H1 & H2 & _).
- repeat constructor; vm_compute; try reflexivity; try discriminate.
- exists ranges. split; [exact H1|exact H2].
Defined.

End CoverageFacts.

(** ** [internal/writer/mmdb.go]: merging maps *)

Module MergeFacts.
Import Errors Outcome Config Mmdbtype MMDBWriter MergeSpec.

(** The number of nodes of a value. *)
Fixpoint dsize (d : DataType) : nat :=
  match d with
  | Leaf _ => 1
  | Slice l => S (foldr (fun x acc => dsize x + acc) 0 l)
  | Map m => S (map_fold (fun _ v acc => dsize v + acc) 0 m)
  end.

Lemma dsize_lookup (m : MapT) (k : string) (v : DataType) :
  m !! k = Some v -> dsize v < dsize (Map m).
Proof.
intros Hk. simpl.
rewrite <- (insert_delete_id m k v Hk).
rewrite map_fold_insert_L.
- lia.
- intros. lia.
- apply lookup_delete_eq.
Qed.

Lemma bothMaps_dec (dv sv : DataType) : bothMaps dv sv \/ ~ bothMaps dv sv.
Proof.
destruct dv as [| |dm]; try (right; intros (? & ? & ? & ?); discriminate).
destruct sv as [| |sm]; try (right; intros (? & ? & ? & ?); discriminate).
left. by exists dm, sm.
Qed.

Lemma MergedAt_insert_other (d s r : MapT) (k key : string) (v v' : DataType) :
  key <> k ->
  MergedAt (<[key := v]> d !! k) (s !! k) (r !! k) ->
  MergedAt (d !! k) (<[key := v']> s !! k) (r !! k).
Proof. intros Hne. by rewrite !lookup_insert_ne. Qed.

(** A conflict with the map the loop has reached, over the entries still
    to come, is a conflict of the whole. *)
Lemma Conflict_shift (result source : MapT) (key : string) (v sv : DataType)
    (e : error) :
  source !! key = None ->
  Conflict (<[key := v]> result) source e ->
  Conflict result (<[key := sv]> source) e.
Proof.
intros Hnone Hc. inversion Hc as [? ? k dv sv' Hd Hs Hnb|? ? k dm sm ? Hd Hs Hsub]; subst.
- assert (k <> key) by (intros ->; congruence).
  rewrite lookup_insert_ne in Hd by done.
  apply Conflict_here; [done| |done]. by rewrite lookup_insert_ne.
- assert (k <> key) by (intros ->; congruence).
  rewrite lookup_insert_ne in Hd by done.
  eapply Conflict_below; [done| |done]. by rewrite lookup_insert_ne.
Qed.

Section Loop.
Variable rec : MapT -> MapT -> outcome MapT -> Prop.

(** What the recursive call is known to do on the maps of [l]. *)
Definition recSound (l : list (string * DataType)) : Prop :=
  forall key sm dm o, (key, Map sm) ∈ l -> rec dm sm o ->
    match o with
    | Done m => Merged dm sm m
    | Failed e => Conflict dm sm e
    | Panicked => False
    end.

Lemma Loop_sound (result : MapT) (l : list (string * DataType)) (o : outcome MapT) :
  Loop rec result l o -> NoDup l.*1 -> recSound l ->
  match o with
  | Done r => forall k, MergedAt (result !! k) (list_to_map (M := MapT) l !! k) (r !! k)
  | Failed e => Conflict result (list_to_map l) e
  | Panicked => False
  end.
Proof.
induction 1 as [result|result key sv l o Hnone Hloop IH
               |result key dm sm merged l o Hsome Hrec Hloop IH
               |result key dm sm l o Hsome Hrec Hstop
               |result key dv sv l Hsome Hnb]; intros Hnd Hsound.
- intros k. simpl. rewrite lookup_empty. destruct (result !! k); constructor.
- simpl in Hnd. apply NoDup_cons in Hnd as [Hfresh Hnd].
  assert (Hl : list_to_map (M := MapT) l !! key = None).
  { by apply not_elem_of_list_to_map_1. }
  assert (Hs' : recSound l).
  { intros k0 sm0 dm0 o0 Hin. apply (Hsound k0). by right. }
  specialize (IH Hnd Hs'). destruct o as [r|e|]; [| |done].
  + intros k. simpl. destruct (decide (k = key)) as [->|Hne].
    * specialize (IH key). rewrite lookup_insert_eq, Hl in IH.
      inversion IH; subst. rewrite Hnone, lookup_insert_eq. constructor.
    * specialize (IH k). rewrite lookup_insert_ne in IH by done.
      by rewrite lookup_insert_ne.
  + simpl. by eapply Conflict_shift.
- simpl in Hnd. apply NoDup_cons in Hnd as [Hfresh Hnd].
  assert (Hl : list_to_map (M := MapT) l !! key = None).
  { by apply not_elem_of_list_to_map_1. }
  assert (Hs' : recSound l).
  { intros k0 sm0 dm0 o0 Hin. apply (Hsound k0). by right. }
  pose proof (Hsound key sm dm (Done merged) ltac:(left) Hrec) as Hm. simpl in Hm.
  specialize (IH Hnd Hs'). destruct o as [r|e|]; [| |done].
  + intros k. simpl. destruct (decide (k = key)) as [->|Hne].
    * specialize (IH key). rewrite lookup_insert_eq, Hl in IH.
      inversion IH; subst. rewrite Hsome, lookup_insert_eq. by constructor.
    * specialize (IH k). rewrite lookup_insert_ne in IH by done.
      by rewrite lookup_insert_ne.
  + simpl. by eapply Conflict_shift.
- pose proof (Hsound key sm dm o ltac:(left) Hrec) as Hm.
  destruct o as [r|e|]; [by destruct (Hstop r)| |done].
  simpl. eapply Conflict_below; [done| |done]. apply lookup_insert_eq.
- simpl. apply Conflict_here; [done| |done]. apply lookup_insert_eq.
Qed.

End Loop.

Lemma Merged_lookup (dest source r : MapT) (k : string) :
  Merged dest source r -> MergedAt (dest !! k) (source !! k) (r !! k).
Proof. by inversion 1. Qed.

Lemma Merged_not_Conflict (dest source r : MapT) (e : error) :
  Conflict dest source e -> Merged dest source r -> False.
Proof.
intros Hc. revert r. induction Hc as [dest source k dv sv Hd Hs Hnb
                                     |dest source k dm sm e Hd Hs Hc IH]; intros r Hm.
- pose proof (Merged_lookup _ _ _ k Hm) as Hk. rewrite Hd, Hs in Hk.
  inversion Hk; subst. apply Hnb. by eexists _, _.
- pose proof (Merged_lookup _ _ _ k Hm) as Hk. rewrite Hd, Hs in Hk.
  inversion Hk; subst. by eapply IH.
Qed.

Lemma Merged_functional_below (n : nat) (dest source r1 r2 : MapT) :
  dsize (Map source) < n ->
  Merged dest source r1 -> Merged dest source r2 -> r1 = r2.
Proof.
revert dest source r1 r2. induction n as [|n IH]; intros dest source r1 r2 Hn H1 H2; [lia|].
apply map_eq. intros k.
pose proof (Merged_lookup _ _ _ k H1) as K1.
pose proof (Merged_lookup _ _ _ k H2) as K2.
destruct (dest !! k) as [dv|] eqn:Hd, (source !! k) as [sv|] eqn:Hs;
  inversion K1; inversion K2; subst; try congruence.
match goal with
| Ha : Map _ = Map ?a, Hb : Map _ = Map ?b |- _ => injection Ha as <-; injection Hb as <-
end.
f_equal. f_equal. eapply IH; [|done|done].
apply dsize_lookup in Hs. lia.
Qed.

Lemma Merged_functional (dest source r1 r2 : MapT) :
  Merged dest source r1 -> Merged dest source r2 -> r1 = r2.
Proof. apply (Merged_functional_below (S (dsize (Map source)))). lia. Qed.

Lemma Run_sound_below (n : nat) (dest source : MapT) (o : outcome MapT) :
  dsize (Map source) < n -> Run dest source o ->
  match o with
  | Done r => Merged dest source r
  | Failed e => Conflict dest source e
  | Panicked => False
  end.
Proof.
revert dest source o. induction n as [|n IH]; intros dest source o Hn Hrun; [lia|].
inversion Hrun as [? ? l ? Hperm Hloop]; subst.
assert (Hnd : NoDup l.*1).
{ rewrite Hperm. apply NoDup_fst_map_to_list. }
assert (Hl : list_to_map (M := MapT) l = source).
{ rewrite (list_to_map_proper l (map_to_list source)) by done.
  apply list_to_map_to_list. }
pose proof (Loop_sound Run dest l o Hloop Hnd) as Hs. rewrite Hl in Hs.
assert (Hrec : recSound Run l).
{ intros key sm dm o' Hin Hr. apply (IH dm sm o'); [|done].
  rewrite Hperm in Hin. apply elem_of_map_to_list in Hin.
  apply dsize_lookup in Hin. lia. }
specialize (Hs Hrec). destruct o as [r|e|]; [|done|done].
by constructor.
Qed.

Lemma Run_sound (dest source : MapT) (o : outcome MapT) :
  Run dest source o ->
  match o with
  | Done r => Merged dest source r
  | Failed e => Conflict dest source e
  | Panicked => False
  end.
Proof. apply (Run_sound_below (S (dsize (Map source)))). lia. Qed.

(** One turn of the loop of [mergeMaps], as the function has it. *)
Definition mergeKey (key : string) (sv : DataType) (acc : outcome MapT)
    : outcome MapT :=
  bind acc (fun result =>
    match result !! key with
    | Some destValue =>
      match destValue, sv with
      | Map destMap, Map _ =>
        bind (mergeValue destMap sv)
          (fun merged => Done (<[key := Map merged]> result))
      | _, _ => Failed (FieldConflict key (typeName destValue) (typeName sv))
      end
    | None => Done (<[key := sv]> result)
    end).

Lemma mergeMaps_fold (dest source : MapT) :
  mergeMaps dest source = map_fold mergeKey (Done dest) source.
Proof. reflexivity. Qed.

(** The loop on a list, the head first. *)
Fixpoint loopOver (l : list (string * DataType)) (acc : outcome MapT)
    : outcome MapT :=
  match l with
  | [] => acc
  | (key, sv) :: rest => loopOver rest (mergeKey key sv acc)
  end.

Lemma loopOver_app (l1 l2 : list (string * DataType)) (acc : outcome MapT) :
  loopOver (l1 ++ l2) acc = loopOver l2 (loopOver l1 acc).
Proof. revert acc. induction l1 as [|[k v] l1 IH]; intros acc; simpl; [done|apply IH]. Qed.

Lemma foldr_loopOver (l : list (string * DataType)) (acc : outcome MapT) :
  foldr (uncurry mergeKey) acc l = loopOver (reverse l) acc.
Proof.
induction l as [|[k v] l IH]; simpl; [done|].
rewrite reverse_cons, loopOver_app, <- IH. done.
Qed.

Lemma loopOver_stopped (l : list (string * DataType)) (o : outcome MapT) :
  (forall r, o <> Done r) -> loopOver l o = o.
Proof.
intros Hstop. induction l as [|[k v] l IH]; simpl; [done|].
destruct o as [r| |]; [by destruct (Hstop r)|done|done].
Qed.

Lemma loopOver_Loop (l : list (string * DataType)) (result : MapT) :
  (forall key sm dm, (key, Map sm) ∈ l -> Run dm sm (mergeMaps dm sm)) ->
  Loop Run result l (loopOver l (Done result)).
Proof.
revert result. induction l as [|[key sv] l IH]; intros result Hrec; simpl.
- constructor.
- assert (Hrec' : forall k sm dm, (k, Map sm) ∈ l -> Run dm sm (mergeMaps dm sm)).
  { intros k sm dm Hin. apply (Hrec k). by right. }
  destruct (result !! key) as [dv|] eqn:Hk.
  + destruct (bothMaps_dec dv sv) as [(dm & sm & -> & ->)|Hnb].
    * pose proof (Hrec key sm dm ltac:(left)) as Hrun.
      change (mergeValue dm (Map sm)) with (mergeMaps dm sm).
      destruct (mergeMaps dm sm) as [merged|e|] eqn:Hm; simpl.
      -- eapply Loop_merge; [done|done|]. by apply IH.
      -- rewrite loopOver_stopped by done. by eapply Loop_return.
      -- rewrite loopOver_stopped by done. by eapply Loop_return.
    * assert (Hf : match dv, sv with
                   | Map destMap, Map _ =>
                     bind (mergeValue destMap sv)
                       (fun merged => Done (<[key := Map merged]> result))
                   | _, _ => Failed (FieldConflict key (typeName dv) (typeName sv))
                   end = Failed (FieldConflict key (typeName dv) (typeName sv))).
      { destruct dv as [| |dm]; try done. destruct sv as [| |sm]; try done.
        destruct Hnb. by eexists _, _. }
      rewrite Hf. rewrite loopOver_stopped by done. by apply Loop_conflict.
  + apply Loop_add; [done|]. by apply IH.
Qed.

Lemma mergeMaps_Run_below (n : nat) (dest source : MapT) :
  dsize (Map source) < n -> Run dest source (mergeMaps dest source).
Proof.
revert dest source. induction n as [|n IH]; intros dest source Hn; [lia|].
rewrite mergeMaps_fold, map_fold_foldr, foldr_loopOver.
apply Run_intro with (l := reverse (map_to_list source)).
- apply reverse_Permutation.
- apply loopOver_Loop. intros key sm dm Hin. apply IH.
  apply elem_of_reverse, elem_of_map_to_list in Hin.
  apply dsize_lookup in Hin. lia.
Qed.

Lemma mergeMaps_Run (dest source : MapT) : Run dest source (mergeMaps dest source).
Proof. apply (mergeMaps_Run_below (S (dsize (Map source)))). lia. Qed.

Lemma mergeMaps_sound (dest source : MapT) :
  match mergeMaps dest source with
  | Done r => Merged dest source r
  | Failed e => Conflict dest source e
  | Panicked => False
  end.
Proof. apply Run_sound, mergeMaps_Run. Qed.

Lemma Merged_mergeMaps (dest source r : MapT) :
  Merged dest source r <-> mergeMaps dest source = Done r.
Proof.
pose proof (mergeMaps_sound dest source) as Hs. split.
- intros Hm. destruct (mergeMaps dest source) as [r'|e|]; [|exfalso|done].
  + f_equal. by eapply Merged_functional.
  + by eapply Merged_not_Conflict.
- intros Hr. by rewrite Hr in Hs.
Qed.

Lemma Conflict_mergeMaps (dest source : MapT) :
  (exists e, Conflict dest source e) <-> (exists e, mergeMaps dest source = Failed e).
Proof.
pose proof (mergeMaps_sound dest source) as Hs. split.
- intros [e Hc]. destruct (mergeMaps dest source) as [r|e'|]; [exfalso|by eexists|done].
  by eapply Merged_not_Conflict.
- intros [e He]. rewrite He in Hs. by exists e.
Qed.

(** [mergeMaps] is a deep merge.  When it returns a map, a key of one side
    only has the value of that side, and a key of both sides has maps on
    both sides and their merge as value.  It fails exactly when a key of
    both sides, at the top or below keys that hold maps on both sides, has
    values that are not both maps, and the error is the field conflict of
    such a key, with the two types.  It does not panic. *)
Theorem mergeMaps_deep_merge (dest source : MapT) :
  match mergeMaps dest source with
  | Done r =>
    forall k,
      match dest !! k, source !! k with
      | dv, None => r !! k = dv
      | None, Some sv => r !! k = Some sv
      | Some dv, Some sv =>
        exists dm sm m, dv = Map dm /\ sv = Map sm
          /\ mergeMaps dm sm = Done m /\ r !! k = Some (Map m)
      end
  | Failed e => Conflict dest source e
  | Panicked => False
  end
  /\ ((exists e, Conflict dest source e)
      <-> (exists e, mergeMaps dest source = Failed e))
  /\ (mergeMaps dest ∅ = Done dest /\ mergeMaps ∅ source = Done source).
Proof.
split; [|split; [apply Conflict_mergeMaps|]].
- pose proof (mergeMaps_sound dest source) as Hs.
  destruct (mergeMaps dest source) as [r|e|]; [|done|done].
  intros k. pose proof (Merged_lookup _ _ _ k Hs) as Hk.
  destruct (dest !! k) as [dv|], (source !! k) as [sv|]; inversion Hk; subst; try done.
  eexists _, _, _. split; [done|]. split; [done|]. split; [|done].
  by apply Merged_mergeMaps.
- split; apply Merged_mergeMaps; constructor; intros k; rewrite lookup_empty.
  + destruct (dest !! k); constructor.
  + destruct (source !! k); constructor.
Qed.

(** The order in which Go ranges over [source], here and in the recursive
    calls, does not change what [mergeMaps] does: a run in any order that
    returns a map returns the map the function returns; a run that fails
    fails with the error of a conflict, and then the function fails too;
    no run panics.  The function is the run in one of the orders. *)
Theorem mergeMaps_any_order (dest source : MapT) :
  Run dest source (mergeMaps dest source)
  /\ forall o, Run dest source o ->
       match o with
       | Done r => mergeMaps dest source = Done r
       | Failed e =>
         Conflict dest source e /\ exists e', mergeMaps dest source = Failed e'
       | Panicked => False
       end.
Proof.
split; [apply mergeMaps_Run|]. intros o Hrun.
pose proof (Run_sound _ _ _ Hrun) as Hs. destruct o as [r|e|]; [| |done].
- by apply Merged_mergeMaps.
- split; [done|]. apply Conflict_mergeMaps. by exists e.
Qed.

End MergeFacts.

(** ** [internal/writer/mmdb.go]: setting a value at a path *)

Module NestedFacts.
Import Errors Outcome Config Mmdbtype MMDBWriter MergeSpec.

(** The map one level down, where the loop of [mergeNestedValue] goes. *)
Definition descend (current : MapT) (key : string) : outcome MapT :=
  match current !! key with
  | Some (Map existingMap) => Done existingMap
  | Some existing => Failed (PathConflict key (typeName existing))
  | None => Done ∅
  end.

(** What the final key is set to. *)
Definition finalValue (current : MapT) (key : string) (value : DataType)
    : outcome DataType :=
  match value, current !! key with
  | Map valueMap, Some (Map existingMap) =>
    bind (mergeMaps existingMap valueMap) (fun merged => Done (Map merged))
  | Map _, Some existing => Failed (MergeMapIntoNonMap (typeName existing))
  | _, _ => Done value
  end.

Lemma setAt_final (current : MapT) (key : string) (value : DataType) :
  setAt current [SegString key] value
  = bind (finalValue current key value) (fun v => Done (<[key := v]> current)).
Proof.
unfold finalValue. simpl. destruct value as [s|l|vm]; try done.
destruct (current !! key) as [[s|l|em]|]; try done.
by destruct (mergeMaps em vm).
Qed.

Lemma setAt_step (current : MapT) (key : string) (seg : segment)
    (rest : list segment) (value : DataType) :
  setAt current (SegString key :: seg :: rest) value
  = bind (descend current key) (fun below =>
      bind (setAt below (seg :: rest) value) (fun next =>
        Done (<[key := Map next]> current))).
Proof.
unfold descend. cbn [setAt].
destruct (current !! key) as [[s|l|em]|]; done.
Qed.

Lemma setAt_insert (current next : MapT) (key : string) (rest : list segment)
    (value : DataType) :
  setAt current (SegString key :: rest) value = Done next ->
  exists v, next = <[key := v]> current.
Proof.
destruct rest as [|seg rest].
- rewrite setAt_final. destruct (finalValue current key value) as [v| |]; try done.
  simpl. intros [= <-]. by exists v.
- rewrite setAt_step. destruct (descend current key) as [below| |]; try done.
  cbn [bind]. destruct (setAt below (seg :: rest) value) as [nx| |]; try done.
  cbn [bind]. intros [= <-]. by eexists.
Qed.

Import Merger006.

Lemma walk_missing (i : nat) (key : string) (rest : list segment) :
  walk (Map ∅) i (SegString key :: rest) = Done None.
Proof. simpl. by rewrite lookup_empty. Qed.

(** What is found at the path after the call, given what was there. *)
Definition placed (old : option DataType) (value v : DataType) : Prop :=
  match value, old with
  | Map valueMap, Some (Map existingMap) =>
    exists merged, mergeMaps existingMap valueMap = Done merged /\ v = Map merged
  | Map _, Some _ => False
  | _, _ => v = value
  end.

Lemma finalValue_placed (current : MapT) (key : string) (value v : DataType) :
  finalValue current key value = Done v -> placed (current !! key) value v.
Proof.
unfold finalValue, placed.
destruct value as [s|l|vm]; [by intros [= <-]|by intros [= <-]|].
destruct (current !! key) as [[s|l|em]|]; try done; [|by intros [= <-]].
destruct (mergeMaps em vm) as [merged| |]; try done. cbn [bind].
intros [= <-]. by exists merged.
Qed.

Lemma setAt_walk (keys : list string) (current next : MapT) (value : DataType)
    (i : nat) :
  keys <> [] ->
  setAt current (SegString <$> keys) value = Done next ->
  exists old v,
    walk (Map current) i (SegString <$> keys) = Done old
    /\ walk (Map next) i (SegString <$> keys) = Done (Some v)
    /\ placed old value v.
Proof.
revert current next i. induction keys as [|k keys IH]; intros current next i Hne; [done|].
destruct keys as [|k2 keys].
- clear IH. cbn [fmap list_fmap]. rewrite setAt_final.
  destruct (finalValue current k value) as [v| |] eqn:Hv; try done. cbn [bind].
  intros [= <-]. exists (current !! k), v. split; [|split].
  + simpl. by destruct (current !! k).
  + simpl. by rewrite lookup_insert_eq.
  + by apply finalValue_placed.
- cbn [fmap list_fmap] in *. rewrite setAt_step.
  destruct (descend current k) as [below| |] eqn:Hd; try done. cbn [bind].
  destruct (setAt below _ value) as [nx| |] eqn:Hs; try done.
  cbn [bind]. intros [= <-].
  destruct (IH below nx (S i) ltac:(done) Hs) as (old & v & Hold & Hnew & Hp).
  unfold descend in Hd.
  destruct (current !! k) as [[s|l|em]|] eqn:Hk; try done.
  + injection Hd as ->. exists old, v. split; [|split; [|done]].
    * cbn [walk]. by rewrite Hk.
    * cbn [walk]. by rewrite lookup_insert_eq.
  + injection Hd as <-. rewrite walk_missing in Hold. injection Hold as <-.
    exists None, v. split; [|split; [|done]].
    * cbn [walk]. by rewrite Hk.
    * cbn [walk]. by rewrite lookup_insert_eq.
Qed.

(** A path that leaves the path written at the key [a]. *)
Lemma setAt_walk_other (common : list string) (a b : string)
    (prest qrest : list segment) (current next : MapT) (value : DataType)
    (i : nat) :
  a <> b ->
  setAt current ((SegString <$> common) ++ SegString b :: prest) value = Done next ->
  walk (Map next) i ((SegString <$> common) ++ SegString a :: qrest)
  = walk (Map current) i ((SegString <$> common) ++ SegString a :: qrest).
Proof.
intros Hab. revert current next i.
induction common as [|c common IH]; intros current next i; cbn [fmap list_fmap app].
- intros Hs. apply setAt_insert in Hs as [v ->].
  cbn [walk]. by rewrite lookup_insert_ne.
- assert (Hcons : exists seg rest,
    (SegString <$> common) ++ SegString b :: prest = seg :: rest).
  { destruct common; simpl; by eexists _, _. }
  destruct Hcons as (seg & rest & Hcons). rewrite Hcons, setAt_step, <- Hcons.
  destruct (descend current c) as [below| |] eqn:Hd; try done. cbn [bind].
  destruct (setAt below _ value) as [nx| |] eqn:Hs; try done. cbn [bind].
  intros [= <-]. cbn [walk]. rewrite lookup_insert_eq.
  rewrite (IH below nx (S i) Hs). unfold descend in Hd.
  destruct (current !! c) as [[s|l|em]|] eqn:Hk; try done.
  + by injection Hd as ->.
  + injection Hd as <-. destruct common; apply walk_missing.
Qed.

(** The errors of [mergeNestedValue]. *)
Definition nestedError (value : DataType) (e : error) : Prop :=
  e = NonStringKey \/ e = NonStringFinalKey
  \/ (exists key existing, e = PathConflict key existing)
  \/ (exists vm, value = Map vm
        /\ ((exists existing, e = MergeMapIntoNonMap existing)
            \/ exists em, Conflict em vm e)).

Lemma finalValue_fails (current : MapT) (key : string) (value : DataType) :
  match finalValue current key value with
  | Done _ => True
  | Failed e =>
    exists vm, value = Map vm
      /\ ((exists existing, e = MergeMapIntoNonMap existing)
          \/ exists em, Conflict em vm e)
  | Panicked => False
  end.
Proof.
unfold finalValue. destruct value as [s|l|vm]; try done.
destruct (current !! key) as [[s|l|em]|]; try done.
- exists vm. split; [done|]. left. by eexists.
- exists vm. split; [done|]. left. by eexists.
- pose proof (MergeFacts.mergeMaps_sound em vm) as Hs.
  destruct (mergeMaps em vm) as [merged|e|]; cbn [bind]; try done.
  exists vm. split; [done|]. right. by exists em.
Qed.

Lemma setAt_fails (path : list segment) (current : MapT) (value : DataType) :
  match setAt current path value with
  | Done _ => True
  | Failed e => nestedError value e
  | Panicked => False
  end.
Proof.
revert current. induction path as [|seg path IH]; intros current; [done|].
destruct seg as [key|n|n|t].
- destruct path as [|seg2 path].
  + rewrite setAt_final. pose proof (finalValue_fails current key value) as Hf.
    destruct (finalValue current key value) as [v|e|]; cbn [bind]; try done.
    right. right. by right.
  + rewrite setAt_step. unfold descend.
    destruct (current !! key) as [[s|l|em]|]; cbn [bind].
    * right. right. left. by eexists _, _.
    * right. right. left. by eexists _, _.
    * specialize (IH em). by destruct (setAt em (seg2 :: path) value).
    * specialize (IH ∅). by destruct (setAt ∅ (seg2 :: path) value).
- destruct path; simpl; [right; by left|by left].
- destruct path; simpl; [right; by left|by left].
- destruct path; simpl; [right; by left|by left].
Qed.

(** A value that is not a map, at a path of strings: only an existing
    value that is not a map, on the way, stops it. *)
Lemma setAt_scalar (keys : list string) (current : MapT) (value : DataType) :
  keys <> [] -> (forall vm, value <> Map vm) ->
  match setAt current (SegString <$> keys) value with
  | Done _ => True
  | Failed e =>
    exists (pre : list string) key existing node,
      e = PathConflict key (typeName existing)
      /\ (exists post, keys = pre ++ key :: post /\ post <> [])
      /\ walk (Map current) 0 (SegString <$> pre) = Done (Some (Map node))
      /\ node !! key = Some existing /\ forall m, existing <> Map m
  | Panicked => False
  end.
Proof.
intros Hne Hnm. revert current.
induction keys as [|k keys IH]; intros current; [done|].
destruct keys as [|k2 keys].
- cbn [fmap list_fmap]. rewrite setAt_final. unfold finalValue.
  destruct value as [s|l|vm]; try done. by destruct (Hnm vm).
- cbn [fmap list_fmap] in *. rewrite setAt_step. unfold descend.
  assert (Hstop : forall existing, current !! k = Some existing ->
    (forall m, existing <> Map m) ->
    exists (pre : list string) key ex node,
      PathConflict k (typeName existing) = PathConflict key (typeName ex)
      /\ (exists post, k :: k2 :: keys = pre ++ key :: post /\ post <> [])
      /\ walk (Map current) 0 (SegString <$> pre) = Done (Some (Map node))
      /\ node !! key = Some ex /\ forall m, ex <> Map m).
  { intros existing Hk Hex. exists [], k, existing, current.
    split; [done|]. split; [by exists (k2 :: keys)|]. done. }
  assert (Hdeep : forall below, (current !! k = Some (Map below) \/
                                 (current !! k = None /\ below = ∅)) ->
    match bind (setAt below (SegString k2 :: (SegString <$> keys)) value)
            (fun next => Done (<[k := Map next]> current)) with
    | Done _ => True
    | Failed e =>
      exists (pre : list string) key existing node,
        e = PathConflict key (typeName existing)
        /\ (exists post, k :: k2 :: keys = pre ++ key :: post /\ post <> [])
        /\ walk (Map current) 0 (SegString <$> pre) = Done (Some (Map node))
        /\ node !! key = Some existing /\ forall m, existing <> Map m
    | Panicked => False
    end).
  { intros below Hb. specialize (IH ltac:(done) below).
    destruct (setAt below _ value) as [nx|e|]; cbn [bind]; try done.
    destruct IH as (pre & key & existing & node & -> & (post & Hkeys & Hpost) & Hw & Hn & Hex).
    destruct Hb as [Hb|[Hb ->]].
    - exists (k :: pre), key, existing, node. split; [done|].
      split; [exists post; by rewrite Hkeys|].
      split; [|done]. cbn [fmap list_fmap walk]. rewrite Hb.
      rewrite <- (Nat.add_0_l 1) at 1.
      clear -Hw. revert Hw. generalize (Map below). generalize 0 at 1 3.
      induction pre as [|p pre IHp]; intros n d; cbn [fmap list_fmap walk]; [done|].
      destruct d as [| |m]; try done. destruct (m !! p); [|done]. apply IHp.
    - destruct pre as [|p pre].
      + simpl in Hw. injection Hw as <-. by rewrite lookup_empty in Hn.
      + cbn [fmap list_fmap walk] in Hw. by rewrite lookup_empty in Hw. }
  destruct (current !! k) as [[s|l|em]|] eqn:Hk; cbn [bind].
  + by apply Hstop.
  + by apply Hstop.
  + apply Hdeep. by left.
  + apply Hdeep. by right.
Qed.

(** After [mergeNestedValue] has set [value] at a path of keys, walking the
    result along the path finds it: the value itself, whatever was there,
    when it is not a map or nothing was there; the merge of the map that
    was there with the value when both are maps.  A path that leaves the
    path written, at any key, leads to what it led to before. *)
Theorem mergeNestedValue_places_value (root r : MapT) (keys : list string)
    (value : DataType) :
  keys <> [] ->
  mergeNestedValue root (SegString <$> keys) value = Done r ->
  (exists old v,
     walkPath root (SegString <$> keys) = Done old
     /\ walkPath r (SegString <$> keys) = Done (Some v)
     /\ match value, old with
        | Map valueMap, Some (Map existingMap) =>
          exists merged, mergeMaps existingMap valueMap = Done merged
            /\ v = Map merged
        | Map _, Some _ => False
        | _, _ => v = value
        end)
  /\ (forall (common : list string) a b prest qrest,
        a <> b ->
        SegString <$> keys = (SegString <$> common) ++ SegString b :: prest ->
        walkPath r ((SegString <$> common) ++ SegString a :: qrest)
        = walkPath root ((SegString <$> common) ++ SegString a :: qrest)).
Proof.
intros Hne Hm. destruct keys as [|k keys]; [done|].
cbn [fmap list_fmap] in *. unfold mergeNestedValue in Hm. split.
- destruct (setAt_walk (k :: keys) root r value 0 Hne Hm) as (old & v & H1 & H2 & H3).
  exists old, v. by unfold walkPath.
- intros common a b prest qrest Hab Hpath.
  change (SegString k :: (SegString <$> keys)) with (SegString <$> k :: keys) in Hm.
  cbn [fmap list_fmap] in Hm. rewrite Hpath in Hm.
  pose proof (setAt_walk_other common a b prest qrest root r value 0 Hab Hm) as Hw.
  unfold walkPath. by destruct common.
Qed.

Lemma mergeNestedValue_places_value_witness :
  exists r,
    mergeNestedValue ∅ [SegString "traits"; SegString "is_anonymous"]
      (Leaf (Bool true)) = Done r
    /\ walkPath r [SegString "traits"; SegString "is_anonymous"]
       = Done (Some (Leaf (Bool true))).
Proof.
destruct (mergeNestedValue ∅ [SegString "traits"; SegString "is_anonymous"]
            (Leaf (Bool true))) as [r|e|] eqn:E.
- exists r. split; [reflexivity|].
  destruct (mergeNestedValue_places_value ∅ r ["traits"; "is_anonymous"]%string
              (Leaf (Bool true)) ltac:(discriminate) E) as [(old & v & _ & Hw & Hv) _].
  simpl in Hv. subst v. exact Hw.
- vm_compute in E. discriminate E.
- vm_compute in E. discriminate E.
Defined.


(** [mergeNestedValue] does not panic, and its errors are these: with the
    empty path, a value that is not a map, or a field conflict between the
    root and the value; otherwise a key that is not a string, an existing
    value on the way that is not a map, a map to be merged into an
    existing value that is not a map, or a field conflict between an
    existing map and the value.  A value that is not a map, at a path of
    strings, overwrites what is there, and fails only when a key of the
    path before the last holds a value that is not a map. *)
Theorem mergeNestedValue_failures (root : MapT) (path : list segment)
    (value : DataType) :
  mergeNestedValue root path value <> Panicked
  /\ (forall e, mergeNestedValue root path value = Failed e ->
        match path with
        | [] =>
          ((forall vm, value <> Map vm) /\ e = NonMapAtRoot (typeName value))
          \/ (exists vm, value = Map vm /\ Conflict root vm e)
        | _ => nestedError value e
        end)
  /\ (forall keys : list string,
        keys <> [] -> path = SegString <$> keys -> (forall vm, value <> Map vm) ->
        match mergeNestedValue root path value with
        | Done r => walkPath r path = Done (Some value)
        | Failed e =>
          exists (pre : list string) key existing node,
            e = PathConflict key (typeName existing)
            /\ (exists post, keys = pre ++ key :: post /\ post <> [])
            /\ walkPath root (SegString <$> pre) = Done (Some (Map node))
            /\ node !! key = Some existing /\ forall m, existing <> Map m
        | Panicked => False
        end).
Proof.
split; [|split].
- destruct path as [|seg path]; unfold mergeNestedValue.
  + destruct value as [s|l|vm]; try done.
    pose proof (MergeFacts.mergeMaps_sound root vm). by destruct (mergeMaps root vm).
  + pose proof (setAt_fails (seg :: path) root value) as Hf.
    by destruct (setAt root (seg :: path) value).
- intros e. destruct path as [|seg path]; unfold mergeNestedValue.
  + destruct value as [s|l|vm]; try (intros [= <-]; by left).
    intros He. right. exists vm. split; [done|].
    pose proof (MergeFacts.mergeMaps_sound root vm) as Hs. by rewrite He in Hs.
  + intros He. pose proof (setAt_fails (seg :: path) root value) as Hf.
    by rewrite He in Hf.
- intros keys Hne -> Hnm. destruct keys as [|k keys]; [done|].
  pose proof (setAt_scalar (k :: keys) root value Hne Hnm) as Hs.
  cbn [fmap list_fmap] in *. unfold mergeNestedValue.
  destruct (setAt root _ value) as [r|e|] eqn:E; [| |done].
  + destruct (setAt_walk (k :: keys) root r value 0 Hne E) as (old & v & _ & Hw & Hp).
    unfold walkPath. cbn [fmap list_fmap] in Hw. rewrite Hw.
    unfold placed in Hp. destruct value as [s|l|vm]; try (by subst). by destruct (Hnm vm).
  + destruct Hs as (pre & key & existing & node & -> & Hpost & Hw & Hn & Hex).
    exists pre, key, existing, node. repeat split; try done.
    unfold walkPath. by destruct pre.
Qed.

End NestedFacts.

(** ** [internal/writer/mmdb.go]: the nested record of a row *)

Module BuildFacts.
Import Errors Outcome Config Mmdbtype MMDBWriter MergeSpec Merger006.






Lemma setAt_empty (keys : list string) (value : DataType) :
  keys <> [] -> exists r, setAt ∅ (SegString <$> keys) value = Done r.
Proof.
induction keys as [|k keys IH]; [done|]. intros _.
destruct keys as [|k2 keys].
- cbn [fmap list_fmap]. rewrite NestedFacts.setAt_final. unfold NestedFacts.finalValue.
  rewrite lookup_empty. destruct value; by eexists.
- cbn [fmap list_fmap] in *. rewrite NestedFacts.setAt_step. unfold NestedFacts.descend.
  rewrite lookup_empty. cbn [bind]. destruct IH as [r ->]; [done|]. by eexists.
Qed.

Lemma setAt_at_map (keys : list string) (current em vm : MapT) (i : nat) :
  keys <> [] ->
  walk (Map current) i (SegString <$> keys) = Done (Some (Map em)) ->
  match mergeMaps em vm with
  | Done merged => exists r, setAt current (SegString <$> keys) (Map vm) = Done r
  | other => setAt current (SegString <$> keys) (Map vm) = other
  end.
Proof.
revert current i. induction keys as [|k keys IH]; intros current i Hne; [done|].
destruct keys as [|k2 keys].
- cbn [fmap list_fmap walk]. rewrite NestedFacts.setAt_final. unfold NestedFacts.finalValue.
  destruct (current !! k) as [v|]; [|done]. intros [= ->].
  destruct (mergeMaps em vm); cbn [bind]; [by eexists|done|done].
- cbn [fmap list_fmap] in *. cbn [walk]. rewrite NestedFacts.setAt_step.
  unfold NestedFacts.descend.
  destruct (current !! k) as [[s|l|below]|]; try done. cbn [bind]. intros Hw.
  specialize (IH below (S i) ltac:(done) Hw).
  destruct (mergeMaps em vm) as [merged|e|].
  + destruct IH as [r ->]. by eexists.
  + by rewrite IH.
  + by rewrite IH.
Qed.

(** Two columns that write maps at the same output path.  The record
    holds at the path the merge of the two maps, when they can be merged;
    when a key of both, at any depth, has values that are not both maps,
    the row fails at the second column, with the field conflict of such a
    key wrapped with the name of that column. *)
Theorem two_columns_same_path (cfg : Config) (c1 c2 : Column)
    (keys : list string) (flatData m1 m2 : MapT) :
  Columns cfg = [c1; c2] ->
  keys <> [] ->
  OutputPath c1 = Some (SegString <$> keys) ->
  OutputPath c2 = Some (SegString <$> keys) ->
  flatData !! Name c1 = Some (Map m1) ->
  flatData !! Name c2 = Some (Map m2) ->
  match buildNestedData cfg flatData with
  | Done r =>
    exists merged, mergeMaps m1 m2 = Done merged
      /\ walkPath r (SegString <$> keys) = Done (Some (Map merged))
  | Failed e =>
    exists e', e = SettingColumn (Name c2) e' /\ Conflict m1 m2 e'
      /\ mergeMaps m1 m2 = Failed e'
  | Panicked => False
  end.
Proof.
intros Hcols Hne Hp1 Hp2 Hv1 Hv2. unfold buildNestedData. rewrite Hcols.
cbn [buildLoop]. rewrite Hv1, Hv2, Hp1, Hp2.
assert (Hpath : exists seg rest, SegString <$> keys = seg :: rest).
{ destruct keys; [done|]. by eexists _, _. }
destruct Hpath as (seg & rest & Hpath).
assert (Hm : forall root value,
  mergeNestedValue root (SegString <$> keys) value
  = setAt root (SegString <$> keys) value).
{ intros root value. rewrite Hpath. done. }
rewrite !Hm. destruct (setAt_empty keys (Map m1) Hne) as [r1 Hr1].
rewrite Hr1, Hm.
destruct (NestedFacts.setAt_walk keys ∅ r1 (Map m1) 0 Hne Hr1) as (old & v & Hold & Hw & Hpl).
assert (old = None) as ->.
{ destruct keys as [|k keys]; [done|]. cbn [fmap list_fmap] in Hold.
  rewrite NestedFacts.walk_missing in Hold. congruence. }
simpl in Hpl. subst v.
pose proof (setAt_at_map keys r1 m1 m2 0 Hne Hw) as Hsecond.
pose proof (MergeFacts.mergeMaps_sound m1 m2) as Hsound.
destruct (mergeMaps m1 m2) as [merged|e|] eqn:Hmerge; [| |done].
- destruct Hsecond as [r2 Hr2]. rewrite Hr2.
  destruct (NestedFacts.setAt_walk keys r1 r2 (Map m2) 0 Hne Hr2)
    as (old2 & v2 & Hold2 & Hw2 & Hpl2).
  rewrite Hw in Hold2. injection Hold2 as <-. simpl in Hpl2.
  destruct Hpl2 as (merged' & Hmm & ->). exists merged'. split; [congruence|].
  unfold walkPath. by rewrite Hpath, <- Hpath.
- rewrite Hsecond. by exists e.
Qed.

Lemma two_columns_same_path_witness :
  let c1 := mkColumn "anon_a" "a" [] (Some [SegString "traits"]) in
  let c2 := mkColumn "anon_b" "b" [] (Some [SegString "traits"]) in
  let cfg := mkConfig [c1; c2] None (mkMMDBOptions "Merged" (Some 28%Z) (Some false)) in
  let row : MapT :=
    {[ "anon_a"%string := Map {[ "is_anonymous"%string := Leaf (Bool true) ]};
       "anon_b"%string := Map {[ "is_anonymous"%string := Leaf (Bool false) ]} ]} in
  buildNestedData cfg row
  = Failed (SettingColumn "anon_b"
              (FieldConflict "is_anonymous" "mmdbtype.Bool" "mmdbtype.Bool")).
Proof.
intros c1 c2 cfg row.
pose proof (two_columns_same_path cfg c1 c2 ["traits"%string] row
  {[ "is_anonymous"%string := Leaf (Bool true) ]}
  {[ "is_anonymous"%string := Leaf (Bool false) ]}
  eq_refl ltac:(discriminate) eq_refl eq_refl
  ltac:(vm_compute; reflexivity) ltac:(vm_compute; reflexivity)) as H.
destruct (buildNestedData cfg row) as [r|e|].
- destruct H as (merged & Hm & _). vm_compute in Hm. discriminate Hm.
- destruct H as (e' & -> & _ & Hm). vm_compute in Hm. injection Hm as <-. reflexivity.
- destruct H.
Defined.

End BuildFacts.

(** ** The accumulator on [mmdbtype.Map] rows, with both revisions of
    [IsAdjacent] *)

Module StateMachineFacts.
Import Netip Errors Sink Accumulator AdjacencySpec CidrSpec Mmdbtype Examples.
Local Open Scope Z_scope.

(** [len(data) == 0] holds of the empty map only. *)
Lemma isEmpty_empty {W} (w : W) (data : MapT) :
  MapRows.isEmpty w data = true <-> data = ∅.
Proof.
unfold MapRows.isEmpty. rewrite bool_decide_eq_true. apply map_size_empty_iff.
Qed.

Lemma fold_and_true (f : string -> DataType -> bool) (a : MapT) :
  map_fold (fun k v acc => acc && f k v) true a = true
  <-> forall k v, a !! k = Some v -> f k v = true.
Proof.
induction a as [|k v a Hk IH] using map_ind.
- rewrite map_fold_empty. split; [|done]. intros _ k v. by rewrite lookup_empty.
- rewrite map_fold_insert_L; [| |done].
  + rewrite andb_true_iff, IH. split.
    * intros [Ha Hf] k' v'. destruct (decide (k' = k)) as [->|Hne].
      -- rewrite lookup_insert_eq. by intros [= <-].
      -- rewrite lookup_insert_ne by done. apply Ha.
    * intros H. split.
      -- intros k' v' Hl. apply H. rewrite lookup_insert_ne; [done|].
         intros <-. by rewrite Hk in Hl.
      -- apply H. by rewrite lookup_insert_eq.
  + intros j1 j2 z1 z2 y _ _ _.
    by rewrite <- !andb_assoc, (andb_comm (f j1 z1)).
Qed.

(** [Map.Equal]: the same number of keys, and every key of the receiver is
    in the other map with an equal value. *)
Lemma Equal_Map (a b : MapT) :
  Equal (Map a) (Map b) = true
  <-> size a = size b
      /\ forall k v, a !! k = Some v ->
           exists ov, b !! k = Some ov /\ Equal v ov = true.
Proof.
cbn [Equal]. rewrite andb_true_iff, bool_decide_eq_true.
rewrite (fold_and_true (fun k v => match b !! k with
                                   | Some ov => Equal v ov
                                   | None => false
                                   end)).
split; intros [Hs H]; (split; [done|]); intros k v Hl; specialize (H k v Hl).
- destruct (b !! k) as [ov|]; [|done]. by exists ov.
- destruct H as (ov & -> & H). done.
Qed.

Lemma kept_not_skipped {W} (a : Accumulator W MapT) (w : W) (data : MapT) :
  includeEmptyRows a = true \/ data <> ∅ ->
  negb (includeEmptyRows a) && MapRows.isEmpty w data = false.
Proof.
intros [->|Hne]; [done|]. apply andb_false_iff. right.
apply not_true_iff_false. by rewrite isEmpty_empty.
Qed.

(** C1.  [Process] and [Flush] of [accumulator.go] on [mmdbtype.Map] rows,
    with the adjacency test of either revision of [internal/network].  A row
    with the empty map is skipped when empty rows are not included; a row
    opens a range when none is open.  With [part_005]'s [IsAdjacent] an open
    range is extended exactly when the prefix starts at the successor of the
    open end and [Equal] accepts the data; otherwise the range is flushed
    and, when the sink took it, the row opens a new one.  With the
    [IsAdjacent] that follows [split.go] the range is extended in one more
    case, where the open end is 255.255.255.255 and the prefix starts at
    0.0.0.0, which is no successor: rows 0.0.0.0/0 and 0.0.0.0/8 with equal
    data leave as the single range 0.0.0.0 - 0.255.255.255.  [Flush] hands a
    sink with [WriteRange] the range, a sink without it the prefixes of the
    range, which are its canonical cover and the fewest blocks that tile
    it, and leaves no range open. *)
Theorem accumulator_extends_at_successor {W : Type} (a : Accumulator W MapT)
    (prefix : Prefix) (data : MapT) (w : W) :
  let start := PrefixAddr prefix in
  let last := PrefixLastIP prefix in
  let process := fun adj : Addr -> Addr -> bool =>
    Accumulator.Process MapRows.isEmpty MapRows.dataEquals adj a prefix data w in
  let opened := fun a0 : Accumulator W MapT =>
    setCurrent a0 (Some (mkRange start last data)) in
  let extended := fun cur : AccumulatedRange MapT =>
    (setCurrent a (Some (mkRange (StartIP cur) last (Data cur))), w,
     @None error) in
  let flushedThenOpened :=
    match Accumulator.Flush a w with
    | (a', w', None) => (opened a', w', None)
    | (a', w', Some err) => (a', w', Some err)
    end in
  let kept := includeEmptyRows a = true \/ data <> ∅ in
  let follows := fun cur : AccumulatedRange MapT =>
    successor (EndIP cur) = Some start
    /\ Equal (Map (Data cur)) (Map data) = true in
  let wraps := fun cur : AccumulatedRange MapT =>
    Is4 (EndIP cur) = true /\ Is4 start = true
    /\ value (EndIP cur) = maxValue (EndIP cur) /\ value start = 0
    /\ Equal (Map (Data cur)) (Map data) = true in
  (forall adj, includeEmptyRows a = false -> data = ∅ ->
     process adj = (a, w, None))
  /\ (forall adj, kept -> current a = None -> process adj = (opened a, w, None))
  /\ (forall cur, kept -> current a = Some cur ->
        wfAddr (EndIP cur) -> IsValid (EndIP cur) = true ->
        IsValid start = true ->
        (follows cur -> process Network005.IsAdjacent = extended cur)
        /\ (~ follows cur ->
            process Network005.IsAdjacent = flushedThenOpened))
  /\ (forall cur, kept -> current a = Some cur ->
        wfAddr (EndIP cur) -> IsValid (EndIP cur) = true ->
        wfAddr start -> IsValid start = true ->
        (follows cur \/ wraps cur -> process Network.IsAdjacent = extended cur)
        /\ (wraps cur -> successor (EndIP cur) = None)
        /\ (~ (follows cur \/ wraps cur) ->
            process Network.IsAdjacent = flushedThenOpened))
  /\ (forall a' w', Accumulator.Flush a w = (a', w', None) ->
        current a' = None /\ writer a' = writer a
        /\ includeEmptyRows a' = includeEmptyRows a)
  /\ (forall (cur : AccumulatedRange MapT) (inc : bool)
        (log : list (call MapT)),
        Accumulator.Flush (mkAccumulator (Some cur) rangeRecorder inc) log
        = (mkAccumulator None rangeRecorder inc,
           log ++ [CallWriteRange (StartIP cur) (EndIP cur) (Data cur)], None)
        /\ Accumulator.Flush (mkAccumulator (Some cur) rowRecorder inc) log
           = (mkAccumulator None rowRecorder inc,
              log ++ ((fun cidr => CallWriteRow cidr (Data cur))
                      <$> Prefixes (StartIP cur) (EndIP cur)), None))
  /\ (forall from to : Addr,
        wfAddr from -> wfAddr to -> IPRangeIsValid from to = true ->
        isCanonicalCover from to (Prefixes from to)
        /\ forall l, tiles (addr from) (addr to) l ->
             (length (Prefixes from to) <= length l)%nat)
  /\ (forall a0 b0 : MapT,
        Equal (Map a0) (Map b0) = true
        <-> size a0 = size b0
            /\ forall k v, a0 !! k = Some v ->
                 exists ov, b0 !! k = Some ov /\ Equal v ov = true)
  /\ (let rows := [(mkPrefix (v4 0 0 0 0) 0, rowUS);
                   (mkPrefix (v4 0 0 0 0) 8, rowUS)] in
      successor (PrefixLastIP (mkPrefix (v4 0 0 0 0) 0)) = None
      /\ Accumulator.run MapRows.isEmpty MapRows.dataEquals Network.IsAdjacent
           (NewAccumulator rangeRecorder false) rows []
         = (NewAccumulator rangeRecorder false,
            [CallWriteRange (v4 0 0 0 0) (v4 0 255 255 255) rowUS], None)
      /\ Accumulator.run MapRows.isEmpty MapRows.dataEquals Network.IsAdjacent
           (NewAccumulator rowRecorder false) rows []
         = (NewAccumulator rowRecorder false,
            [CallWriteRow (mkPrefix (v4 0 0 0 0) 8) rowUS], None)
      /\ Accumulator.run MapRows.isEmpty MapRows.dataEquals
           Network005.IsAdjacent (NewAccumulator rangeRecorder false) rows []
         = (NewAccumulator rangeRecorder false,
            [CallWriteRange (v4 0 0 0 0) (v4 255 255 255 255) rowUS;
             CallWriteRange (v4 0 0 0 0) (v4 0 255 255 255) rowUS], None)).
Proof.
intros start last process opened extended flushedThenOpened kept follows wraps.
assert (Hflush : forall adj cur, kept -> current a = Some cur ->
          adj (EndIP cur) start && Equal (Map (Data cur)) (Map data) = false ->
          process adj = flushedThenOpened).
{ intros adj cur Hk Hc Hf. unfold process, flushedThenOpened, Accumulator.Process.
  rewrite kept_not_skipped by done. rewrite Hc. fold start last.
  unfold MapRows.dataEquals, MapEqual. rewrite Hf.
  by destruct (Accumulator.Flush a w) as [[a' w'] [err|]]. }
assert (Hext : forall adj cur, kept -> current a = Some cur ->
          adj (EndIP cur) start = true ->
          Equal (Map (Data cur)) (Map data) = true ->
          process adj = extended cur).
{ intros adj cur Hk Hc Ha He. unfold process, extended, Accumulator.Process.
  rewrite kept_not_skipped by done. rewrite Hc. fold start last.
  unfold MapRows.dataEquals, MapEqual. by rewrite Ha, He. }
split; [|split; [|split; [|split; [|split; [|split; [|split; [|split]]]]]]].
- intros adj Hi He. unfold process, Accumulator.Process. rewrite Hi.
  by rewrite (proj2 (isEmpty_empty w data) He).
- intros adj Hk Hc. unfold process, Accumulator.Process.
  rewrite kept_not_skipped by done. by rewrite Hc.
- intros cur Hk Hc Hwf Hve Hvs. split.
  + intros [Hs He]. apply Hext; try done.
    by apply NetworkFacts.IsAdjacent005_iff.
  + intros Hn. apply (Hflush _ cur); try done.
    apply not_true_iff_false. intros [Ha He]%andb_true_iff. apply Hn.
    split; [|done]. by apply NetworkFacts.IsAdjacent005_iff.
- intros cur Hk Hc Hwf Hve Hws Hvs. repeat apply conj.
  + intros [[Hs He]|(H1 & H2 & H3 & H4 & He)]; apply Hext; try done;
      apply NetworkFacts.IsAdjacent_iff_or_wrap; try done; [by left|by right].
  + intros (_ & _ & H3 & _). unfold successor. rewrite H3.
    rewrite (proj2 (Z.ltb_ge _ _)) by lia. by rewrite andb_false_r.
  + intros Hn. apply (Hflush _ cur); try done.
    apply not_true_iff_false. intros [Ha He]%andb_true_iff. apply Hn.
    apply NetworkFacts.IsAdjacent_iff_or_wrap in Ha; try done.
    destruct Ha as [Ha|(H1 & H2 & H3 & H4)]; [by left|by right].
- intros a' w' Hf. unfold Accumulator.Flush in Hf.
  destruct (current a) as [cur|] eqn:Hc.
  + destruct (WriteRange (writer a)) as [wr|].
    * destruct (wr _ _ _ _) as [w1 [e|]]; [done|]. by injection Hf as <- <-.
    * destruct (writeRows _ _ _ _ _) as [w1 [e|]]; [done|].
      by injection Hf as <- <-.
  + by injection Hf as <- <-.
- intros cur inc log.
  split; [apply AccumulatorFacts.Flush_rangeRecorder
         |apply AccumulatorFacts.Flush_rowRecorder].
- intros from to Hf Ht Hv. split.
  + by apply PrefixesFacts.Prefixes_canonical.
  + intros l. by apply PrefixesFacts.Prefixes_minimal.
- apply Equal_Map.
- vm_compute. repeat split.
Qed.

End StateMachineFacts.

(** ** What leaves the accumulator: ranges that cannot be coalesced further *)

Module MaximalFacts.
Import Netip Errors Sink Accumulator AdjacencySpec CidrSpec CoalesceSpec.
Import Mmdbtype Examples.
Local Open Scope Z_scope.

Local Abbreviation wfPrefix := CoverageFacts.wfPrefix.

(** Rows in non-decreasing order of their first address: no row starts
    before a row of the same address space that comes earlier. *)
Fixpoint startsNonDecreasing {D} (rows : list (Prefix * D)) : Prop :=
  match rows with
  | [] => True
  | row :: rest =>
    Forall (fun row' =>
              z (PrefixAddr (fst row')) = z (PrefixAddr (fst row)) ->
              addr (PrefixAddr (fst row)) <= addr (PrefixAddr (fst row'))) rest
    /\ startsNonDecreasing rest
  end.

Lemma startsNonDecreasing_before {D} (pre post : list (Prefix * D))
    (row : Prefix * D) :
  startsNonDecreasing (pre ++ row :: post) ->
  Forall (fun r0 => z (PrefixAddr (fst row)) = z (PrefixAddr (fst r0)) ->
                    addr (PrefixAddr (fst r0)) <= addr (PrefixAddr (fst row))) pre.
Proof.
induction pre as [|r0 pre IH]; simpl; [constructor|].
intros [H0 Hrest]. constructor; [|by apply IH].
apply Forall_app in H0 as [_ H0]. by apply Forall_cons in H0 as [H0 _].
Qed.

Lemma tiles_last (a b : Z) (l : list (Z * Z)) (blk : Z * Z) :
  tiles a b l -> last l = Some blk -> blockLast blk = b.
Proof.
revert a. induction l as [|blk0 l IH]; intros a Ht Hl; [done|].
destruct Ht as (Hb & Hf & Hle & Ht). destruct l as [|blk1 l].
- injection Hl as <-. simpl in Ht. lia.
- by apply (IH (blockLast blk0 + 1)).
Qed.

Lemma noPair_lookup {D} (adj : Addr -> Addr -> bool) (dataEq : D -> D -> bool)
    (l : list (@range D)) (i : nat) (r1 r2 : @range D) :
  noCoalescablePair adj dataEq l ->
  l !! i = Some r1 -> l !! S i = Some r2 ->
  coalescable adj dataEq r1 r2 = false.
Proof.
revert i. induction l as [|r l IH]; intros i Hn H1 H2; [done|].
destruct Hn as [Hh Ht]. destruct i as [|i].
- injection H1 as ->. destruct l as [|r' l]; [done|]. by injection H2 as ->.
- by apply (IH i).
Qed.

Section Valid.
Context {D : Type}.
Variable isEmpty0 : D -> bool.
Variable dataEq : D -> D -> bool.
Variable adj : Addr -> Addr -> bool.
Variable inc : bool.
Hypothesis adj_zone : forall e s : Addr,
  wfAddr e -> IsValid e = true -> wfAddr s -> IsValid s = true ->
  adj e s = true -> z s = z e.

Local Abbreviation range := (@CoalesceSpec.range D).
Local Abbreviation step := (CoalesceFacts.step isEmpty0 dataEq adj).
Local Abbreviation pending := (@CoalesceFacts.pending D).
Local Abbreviation noPair := (noCoalescablePair adj dataEq).

(** A range that starts where a row seen starts and ends, in the same
    address space and not before its start, at a valid address. *)
Definition validRange (done : list (Prefix * D)) (r : range) : Prop :=
  (exists p d, (p, d) ∈ done /\ wfPrefix p /\ fst (fst r) = PrefixAddr p)
  /\ z (fst (fst r)) = z (snd (fst r))
  /\ addr (fst (fst r)) <= addr (snd (fst r))
  /\ wfAddr (snd (fst r)) /\ IsValid (snd (fst r)) = true.

Lemma validRange_mono (done : list (Prefix * D)) (row : Prefix * D) (r : range) :
  validRange done r -> validRange (done ++ [row]) r.
Proof.
intros ((p & d & Hin & Hp & Hs) & H). split; [|done].
exists p, d. split; [|done]. apply elem_of_app. by left.
Qed.

Lemma validRange_open (done : list (Prefix * D)) (p : Prefix) (d : D) :
  wfPrefix p ->
  validRange (done ++ [(p, d)]) (PrefixAddr p, PrefixLastIP p, d).
Proof.
intros Hp. destruct (CoverageFacts.PrefixLastIP_facts p Hp) as (Hz & Hle & Hwf & Hv & _).
split; [|done]. exists p, d. split; [|done]. apply elem_of_app. right. left.
Qed.

Lemma step_valid (done : list (Prefix * D)) (ranges : list range)
    (cur : option (AccumulatedRange D)) (p : Prefix) (d : D) :
  wfPrefix p ->
  Forall (fun r0 => z (PrefixAddr p) = z (PrefixAddr (fst r0)) ->
                    addr (PrefixAddr (fst r0)) <= addr (PrefixAddr p)) done ->
  Forall (validRange done) (ranges ++ pending cur) ->
  Forall (validRange (done ++ [(p, d)]))
    ((ranges ++ snd (step cur inc p d)) ++ pending (fst (step cur inc p d))).
Proof.
intros Hp Hord Hv.
assert (Hmono : Forall (validRange (done ++ [(p, d)])) (ranges ++ pending cur)).
{ eapply Forall_impl; [exact Hv|]. intros r. apply validRange_mono. }
unfold CoalesceFacts.step. destruct (negb inc && isEmpty0 d).
- cbn [fst snd]. by rewrite app_nil_r.
- destruct cur as [c|]; cbn [CoalesceFacts.pending] in *.
  + destruct (adj (EndIP c) (PrefixAddr p) && dataEq (Data c) d) eqn:Hext;
      cbn [fst snd CoalesceFacts.pending].
    * rewrite app_nil_r. apply Forall_app in Hmono as [Hm _].
      apply Forall_app. split; [done|]. constructor; [|constructor].
      apply Forall_app in Hv as [_ Hc]. apply Forall_cons in Hc as [Hc _].
      destruct Hc as ((p0 & d0 & Hin & Hp0 & Hs) & Hz & Hle & Hwf & Hval).
      cbn [fst snd] in *.
      apply andb_true_iff in Hext as [Hadj _].
      destruct (CoverageFacts.PrefixLastIP_facts p Hp) as (Hzl & Hlel & Hwfl & Hvl & Hvp).
      assert (Hzp : z (PrefixAddr p) = z (EndIP c)).
      { apply adj_zone; try done. by destruct Hp as (_ & ? & _). }
      unfold validRange. cbn [fst snd StartIP EndIP Data].
      split; [|split; [|split; [|done]]].
      -- exists p0, d0. split; [|done]. apply elem_of_app. by left.
      -- cbn [fst snd]. unfold PrefixAddr in *. congruence.
      -- cbn [fst snd].
         pose proof (proj1 (Forall_forall _ _) Hord (p0, d0) Hin) as Ho.
         cbn [fst] in Ho. unfold PrefixAddr in *.
         assert (addr (ip p0) <= addr (ip p)) by (apply Ho; congruence).
         rewrite Hs. lia.
    * apply Forall_app. split; [done|].
      constructor; [|constructor]. by apply validRange_open.
  + cbn [fst snd CoalesceFacts.pending]. rewrite !app_nil_r in *.
    apply Forall_app. split; [done|].
    constructor; [|constructor]. by apply validRange_open.
Qed.

Lemma step_noPair (ranges : list range) (cur : option (AccumulatedRange D))
    (p : Prefix) (d : D) :
  noPair (ranges ++ pending cur) -> (cur = None -> ranges = []) ->
  noPair ((ranges ++ snd (step cur inc p d)) ++ pending (fst (step cur inc p d)))
  /\ (fst (step cur inc p d) = None -> ranges ++ snd (step cur inc p d) = []).
Proof.
intros Hinv Hnone. unfold CoalesceFacts.step.
destruct (negb inc && isEmpty0 d); cbn [fst snd]; [by rewrite app_nil_r|].
destruct cur as [c|]; cbn [fst snd].
- destruct (adj _ _ && dataEq _ _) eqn:Hext; cbn [fst snd CoalesceFacts.pending].
  + split; [|done]. rewrite app_nil_r. cbn [CoalesceFacts.pending] in Hinv.
    by eapply CoalesceFacts.noPair_last_end.
  + split; [|done]. rewrite <- app_assoc. by apply CoalesceFacts.noPair_snoc.
- rewrite (Hnone eq_refl). done.
Qed.

Lemma feed_maximal (done rows : list (Prefix * D)) (ranges : list range)
    (cur : option (AccumulatedRange D)) :
  Forall (fun row => wfPrefix (fst row)) rows ->
  startsNonDecreasing (done ++ rows) ->
  noPair (ranges ++ pending cur) -> (cur = None -> ranges = []) ->
  Forall (validRange done) (ranges ++ pending cur) ->
  exists cur' ranges',
    Accumulator.feed (W := list (call D)) (fun _ d => isEmpty0 d)
      (fun _ d1 d2 => dataEq d1 d2) adj
      (mkAccumulator cur rangeRecorder inc) rows (rangeCalls ranges)
    = (mkAccumulator cur' rangeRecorder inc, rangeCalls ranges', None)
    /\ Accumulator.feed (W := list (call D)) (fun _ d => isEmpty0 d)
         (fun _ d1 d2 => dataEq d1 d2) adj
         (mkAccumulator cur rowRecorder inc) rows (rowCalls ranges)
       = (mkAccumulator cur' rowRecorder inc, rowCalls ranges', None)
    /\ noPair (ranges' ++ pending cur')
    /\ Forall (validRange (done ++ rows)) (ranges' ++ pending cur').
Proof.
revert done ranges cur.
induction rows as [|[p d] rows IH]; intros done ranges cur Hwf Hord Hn Hnone Hv.
- exists cur, ranges. cbn [Accumulator.feed]. by rewrite app_nil_r.
- apply Forall_cons in Hwf as [Hp Hwf]. cbn [fst] in Hp.
  cbn [Accumulator.feed].
  rewrite CoalesceFacts.Process_rangeRecorder, CoalesceFacts.Process_rowRecorder.
  pose proof (startsNonDecreasing_before _ _ _ Hord) as Hlt. cbn [fst] in Hlt.
  destruct (step_noPair ranges cur p d Hn Hnone) as [Hn' Hnone'].
  destruct (IH (done ++ [(p, d)]) (ranges ++ snd (step cur inc p d))
              (fst (step cur inc p d)) Hwf)
    as (cur' & ranges' & H1 & H2 & Hn2 & Hv2); try done.
  { by rewrite <- app_assoc. }
  { by apply step_valid. }
  exists cur', ranges'. rewrite <- app_assoc in Hv2. done.
Qed.

Lemma run_maximal (rows : list (Prefix * D)) :
  Forall (fun row => wfPrefix (fst row)) rows ->
  startsNonDecreasing rows ->
  exists ranges : list range,
    Accumulator.run (W := list (call D)) (fun _ d => isEmpty0 d)
      (fun _ d1 d2 => dataEq d1 d2) adj
      (NewAccumulator rangeRecorder inc) rows []
    = (NewAccumulator rangeRecorder inc, rangeCalls ranges, None)
    /\ Accumulator.run (W := list (call D)) (fun _ d => isEmpty0 d)
         (fun _ d1 d2 => dataEq d1 d2) adj
         (NewAccumulator rowRecorder inc) rows []
       = (NewAccumulator rowRecorder inc, rowCalls ranges, None)
    /\ noPair ranges
    /\ Forall (validRange rows) ranges.
Proof.
intros Hwf Hord.
destruct (feed_maximal [] rows [] None Hwf Hord)
  as (cur & ranges & H1 & H2 & Hn & Hv); try done.
exists (ranges ++ pending cur). unfold Accumulator.run, NewAccumulator.
change (@nil (call D)) with (rangeCalls (@nil range)) at 1.
rewrite H1.
change (@nil (call D)) with (rowCalls (@nil range)) at 1.
rewrite H2.
destruct cur as [c|]; cbn [CoalesceFacts.pending] in *.
- rewrite AccumulatorFacts.Flush_rangeRecorder, AccumulatorFacts.Flush_rowRecorder.
  by rewrite CoalesceFacts.rangeCalls_snoc, CoalesceFacts.rowCalls_snoc.
- rewrite !app_nil_r in *. done.
Qed.

End Valid.

Lemma IsAdjacent005_zone (e s : Addr) :
  wfAddr e -> IsValid e = true -> wfAddr s -> IsValid s = true ->
  Network005.IsAdjacent e s = true -> z s = z e.
Proof.
intros He Hve _ Hvs H. by destruct (CoverageFacts.adjacent_next e s He Hve Hvs H).
Qed.

Lemma IsAdjacent_zone (e s : Addr) :
  wfAddr e -> IsValid e = true -> wfAddr s -> IsValid s = true ->
  Network.IsAdjacent e s = true -> z s = z e.
Proof.
intros He Hve Hs Hvs H.
apply NetworkFacts.IsAdjacent_iff_or_wrap in H; try done.
destruct H as [H|(H1 & H2 & _)].
- unfold successor in H.
  destruct (IsValid e && (value e <? maxValue e)); [|done]. by injection H as <-.
- apply NetworkFacts.Is4_true in H1, H2. congruence.
Qed.

(** The prefixes of a range between two addresses of one address space. *)
Lemma Prefixes_of_valid_range (s e : Addr) :
  wfAddr s -> IsValid s = true -> z s = z4 \/ z s = z6noz ->
  z s = z e -> addr s <= addr e -> wfAddr e ->
  isCanonicalCover s e (Prefixes s e)
  /\ (forall l, tiles (addr s) (addr e) l ->
        (length (Prefixes s e) <= length l)%nat)
  /\ PrefixAddr <$> head (Prefixes s e) = Some s
  /\ PrefixLastIP <$> last (Prefixes s e) = Some e
  /\ forall (i : nat) (p1 p2 : Prefix),
       Prefixes s e !! i = Some p1 -> Prefixes s e !! S i = Some p2 ->
       successor (PrefixLastIP p1) = Some (PrefixAddr p2)
       /\ ~ mergeable (prefixBlock p1) (prefixBlock p2).
Proof.
intros Hws Hvs Hzs Hz Hle Hwe.
assert (Hv : IPRangeIsValid s e = true).
{ unfold IPRangeIsValid, BitLen, Zone. rewrite Hvs, <- Hz, Z.eqb_refl.
  rewrite bool_decide_eq_true_2 by done.
  by rewrite (proj2 (Z.ltb_ge _ _)) by lia. }
pose proof (PrefixesFacts.Prefixes_canonical s e Hws Hwe Hv) as Hcan.
assert (Hzone : (if Is4 s then z4 else z6noz) = z s).
{ destruct Hzs as [H4|H6].
  - by rewrite (proj2 (NetworkFacts.Is4_true s) H4).
  - rewrite (proj2 (NetworkFacts.Is4_false s)); [done|]. by rewrite H6. }
destruct Hcan as [[Htl Hmax] Hall]. rewrite Hzone in Hall.
rewrite Forall_forall in Hall.
split; [|split; [|split; [|split]]].
- pose proof (PrefixesFacts.Prefixes_canonical s e Hws Hwe Hv). done.
- intros l. by apply PrefixesFacts.Prefixes_minimal.
- destruct (Prefixes s e) as [|p ps] eqn:Hps.
  + simpl in Htl. lia.
  + cbn [head fmap option_fmap option_map]. f_equal.
    destruct (Hall p) as (_ & Hzp & _); [left|].
    cbn [fmap list_fmap tiles] in Htl. destruct Htl as (_ & Hf & _).
    unfold prefixBlock in Hf. cbn [fst] in Hf. unfold PrefixAddr.
    destruct (ip p), s. cbn [addr z] in *. congruence.
- destruct (last (Prefixes s e)) as [p|] eqn:Hl.
  + cbn [fmap option_fmap option_map]. f_equal.
    destruct (Hall p) as (_ & Hzp & _ & ->); [by apply last_Some_elem_of|].
    assert (Hb : last (prefixBlock <$> Prefixes s e) = Some (prefixBlock p)).
    { by rewrite fmap_last, Hl. }
    rewrite (tiles_last _ _ _ _ Htl Hb), Hzp.
    destruct e. cbn [addr z] in *. congruence.
  + apply last_None in Hl. rewrite Hl in Htl. simpl in Htl. lia.
- intros i p1 p2 H1 H2.
  assert (Hb1 : (prefixBlock <$> Prefixes s e) !! i = Some (prefixBlock p1))
    by (by rewrite list_lookup_fmap, H1).
  assert (Hb2 : (prefixBlock <$> Prefixes s e) !! S i = Some (prefixBlock p2))
    by (by rewrite list_lookup_fmap, H2).
  split; [|by eapply PrefixesFacts.canonical_not_mergeable].
  destruct (PrefixesFacts.tiles_lookup_next _ _ _ _ _ _ Htl Hb1 Hb2)
    as (_ & _ & Hlo & Hn & Hhi).
  destruct (Hall p1) as (_ & Hz1 & Hw1 & Hl1); [by eapply list_elem_of_lookup_2|].
  destruct (Hall p2) as (_ & Hz2 & Hw2 & _); [by eapply list_elem_of_lookup_2|].
  unfold prefixBlock in Hn, Hlo. cbn [fst] in Hn, Hlo.
  fold (prefixBlock p1) in Hn.
  rewrite Hl1. unfold successor, value, maxValue, BitLen, IsValid, Is4, PrefixAddr.
  cbn [z addr]. rewrite Hz1.
  destruct Hzs as [H4|H6].
  + rewrite H4. rewrite bool_decide_eq_false_2 by done.
    rewrite bool_decide_eq_true_2 by done. cbn [negb andb].
    unfold wfAddr in Hw2, Hw1. rewrite Hz2, H4 in Hw2. rewrite Hz1, H4 in Hw1.
    assert (Hwl : wfAddr (mkAddr (blockLast (prefixBlock p1)) z4)).
    { unfold wfAddr. cbn [z addr].
      assert (addr (ip p1) <= blockLast (prefixBlock p1)).
      { unfold blockLast, blockSize, prefixBlock. cbn [fst snd].
        assert (0 < 2 ^ (128 - (if Is4 (ip p1) then bits p1 + 96 else bits p1)));
          [|lia].
        destruct (PrefixesFacts.tiles_lookup_next _ _ _ _ _ _ Htl Hb1 Hb2)
          as ((Hr & _) & _). unfold prefixBlock in Hr. cbn [snd] in Hr.
        apply PrefixesFacts.pow2_pos. lia. }
      lia. }
    destruct (NetworkFacts.lo32_v4 _ Hwl eq_refl) as [Ha Hr]. cbn [addr] in Ha.
    rewrite (proj2 (Z.ltb_lt _ _)) by (unfold two32 in *; lia).
    f_equal. destruct (ip p2). cbn [addr z] in *. rewrite H4 in Hz2. congruence.
  + rewrite H6. rewrite !bool_decide_eq_false_2 by done. cbn [negb andb].
    unfold wfAddr in Hw2. rewrite Hz2, H6 in Hw2.
    rewrite (proj2 (Z.ltb_lt _ _)) by (unfold two128 in *; lia).
    f_equal. destruct (ip p2). cbn [addr z] in *. rewrite H6 in Hz2. congruence.
Qed.

(** What the accumulator emits for [rows] with the adjacency test [adj]:
    the ranges, as a sink with [WriteRange] and a sink without it see
    them. *)
Lemma run_maximal_Map (adj : Addr -> Addr -> bool) (inc : bool)
    (rows : list (Prefix * MapT)) :
  (forall e s : Addr,
     wfAddr e -> IsValid e = true -> wfAddr s -> IsValid s = true ->
     adj e s = true -> z s = z e) ->
  (forall e s : Addr,
     wfAddr e -> IsValid e = true -> wfAddr s -> IsValid s = true ->
     successor e = Some s -> adj e s = true) ->
  Forall (fun row => wfPrefix (fst row)) rows ->
  startsNonDecreasing rows ->
  exists ranges : list (Addr * Addr * MapT),
    Accumulator.run MapRows.isEmpty MapRows.dataEquals adj
      (NewAccumulator rangeRecorder inc) rows []
    = (NewAccumulator rangeRecorder inc, rangeCalls ranges, None)
    /\ Accumulator.run MapRows.isEmpty MapRows.dataEquals adj
         (NewAccumulator rowRecorder inc) rows []
       = (NewAccumulator rowRecorder inc, rowCalls ranges, None)
    /\ (forall (i : nat) s1 e1 d1 s2 e2 d2,
          ranges !! i = Some (s1, e1, d1) ->
          ranges !! S i = Some (s2, e2, d2) ->
          ~ (successor e1 = Some s2 /\ Equal (Map d1) (Map d2) = true))
    /\ (forall s e d, (s, e, d) ∈ ranges ->
          isCanonicalCover s e (Prefixes s e)
          /\ (forall l, tiles (addr s) (addr e) l ->
                (length (Prefixes s e) <= length l)%nat)
          /\ PrefixAddr <$> head (Prefixes s e) = Some s
          /\ PrefixLastIP <$> last (Prefixes s e) = Some e
          /\ forall (i : nat) (p1 p2 : Prefix),
               Prefixes s e !! i = Some p1 ->
               Prefixes s e !! S i = Some p2 ->
               successor (PrefixLastIP p1) = Some (PrefixAddr p2)
               /\ ~ mergeable (prefixBlock p1) (prefixBlock p2)).
Proof.
intros Hzone Hsucc Hwf Hord.
destruct (run_maximal (fun d : MapT => bool_decide (size d = 0%nat))
            MapEqual adj inc Hzone rows Hwf Hord)
  as (ranges & H1 & H2 & Hn & Hv).
exists ranges. split; [exact H1|]. split; [exact H2|].
rewrite Forall_forall in Hv.
assert (Hstart : forall s e d, (s, e, d) ∈ ranges ->
          wfAddr s /\ IsValid s = true /\ (z s = z4 \/ z s = z6noz)).
{ intros s e d Hin.
  destruct (Hv _ Hin) as ((p & d0 & _ & Hp & Hs) & _). cbn [fst snd] in Hs.
  subst s. destruct (CoverageFacts.PrefixLastIP_facts p Hp) as (_ & _ & _ & _ & Hvp).
  destruct Hp as (_ & Hw & Hz). done. }
split.
- intros i s1 e1 d1 s2 e2 d2 Hl1 Hl2 [Hs He].
  pose proof (noPair_lookup _ _ _ _ _ _ Hn Hl1 Hl2) as Hc.
  unfold coalescable in Hc. cbn [fst snd] in Hc.
  destruct (Hv _ (list_elem_of_lookup_2 _ _ _ Hl1)) as (_ & _ & _ & Hw1 & Hv1).
  destruct (Hstart _ _ _ (list_elem_of_lookup_2 _ _ _ Hl2)) as (Hw2 & Hv2 & _).
  cbn [fst snd] in *.
  rewrite (Hsucc e1 s2 Hw1 Hv1 Hw2 Hv2 Hs) in Hc.
  unfold MapEqual in Hc. by rewrite He in Hc.
- intros s e d Hin.
  destruct (Hstart _ _ _ Hin) as (Hws & Hvs & Hzs).
  destruct (Hv _ Hin) as (_ & Hz & Hle & Hwe & _). cbn [fst snd] in *.
  by apply Prefixes_of_valid_range.
Qed.

(** C2.  Rows with valid prefixes in non-decreasing order of their first
    address, fed to the accumulator of [accumulator.go] and flushed at the
    end, with the adjacency test of either revision of [internal/network]:
    a sink with [WriteRange] is handed ranges of which no two that follow
    each other are adjacent (the second starts at the successor of the end
    of the first) with equal data; a sink without [WriteRange] is handed,
    for the same ranges in the same order, the prefixes of each range.
    Those are the canonical cover of the range and the fewest blocks that
    tile it; the first starts at the start of the range and the last ends
    at its end; two that follow each other inside a range are adjacent, but
    no single CIDR block covers exactly the two. *)
Theorem coalescing_is_maximal (inc : bool) (rows : list (Prefix * MapT)) :
  Forall (fun row => wfPrefix (fst row)) rows ->
  startsNonDecreasing rows ->
  let emitted := fun adj : Addr -> Addr -> bool =>
    exists ranges : list (Addr * Addr * MapT),
      Accumulator.run MapRows.isEmpty MapRows.dataEquals adj
        (NewAccumulator rangeRecorder inc) rows []
      = (NewAccumulator rangeRecorder inc, rangeCalls ranges, None)
      /\ Accumulator.run MapRows.isEmpty MapRows.dataEquals adj
           (NewAccumulator rowRecorder inc) rows []
         = (NewAccumulator rowRecorder inc, rowCalls ranges, None)
      /\ (forall (i : nat) s1 e1 d1 s2 e2 d2,
            ranges !! i = Some (s1, e1, d1) ->
            ranges !! S i = Some (s2, e2, d2) ->
            ~ (successor e1 = Some s2 /\ Equal (Map d1) (Map d2) = true))
      /\ (forall s e d, (s, e, d) ∈ ranges ->
            isCanonicalCover s e (Prefixes s e)
            /\ (forall l, tiles (addr s) (addr e) l ->
                  (length (Prefixes s e) <= length l)%nat)
            /\ PrefixAddr <$> head (Prefixes s e) = Some s
            /\ PrefixLastIP <$> last (Prefixes s e) = Some e
            /\ forall (i : nat) (p1 p2 : Prefix),
                 Prefixes s e !! i = Some p1 ->
                 Prefixes s e !! S i = Some p2 ->
                 successor (PrefixLastIP p1) = Some (PrefixAddr p2)
                 /\ ~ mergeable (prefixBlock p1) (prefixBlock p2)) in
  emitted Network005.IsAdjacent /\ emitted Network.IsAdjacent.
Proof.
intros Hwf Hord emitted. split; apply run_maximal_Map; try done.
- apply IsAdjacent005_zone.
- intros e s He Hve Hs Hvs H.
  by destruct (NetworkFacts.successor_IsAdjacent e s He Hs Hve Hvs H).
- apply IsAdjacent_zone.
- intros e s He Hve Hs Hvs H.
  by destruct (NetworkFacts.successor_IsAdjacent e s He Hs Hve Hvs H).
Qed.

(** 10.0.0.1/32, 10.0.0.2/31 and 10.0.1.0/25 with the same data: the first
    two rows leave as one range. *)
Lemma coalescing_is_maximal_witness :
  exists ranges : list (Addr * Addr * MapT),
    Accumulator.run MapRows.isEmpty MapRows.dataEquals Network005.IsAdjacent
      (NewAccumulator rowRecorder false)
      [(net_10_0_0_1_32, rowUS); (net_10_0_0_2_31, rowUS);
       (net_10_0_1_0_25, rowUS)] []
    = (NewAccumulator rowRecorder false, rowCalls ranges, None)
    /\ ranges = [(v4 10 0 0 1, v4 10 0 0 3, rowUS);
                 (v4 10 0 1 0, v4 10 0 1 127, rowUS)]
    /\ forall (i : nat) s1 e1 d1 s2 e2 d2,
         ranges !! i = Some (s1, e1, d1) ->
         ranges !! S i = Some (s2, e2, d2) ->
         ~ (successor e1 = Some s2 /\ Equal (Map d1) (Map d2) = true).
Proof.
destruct (coalescing_is_maximal false
            [(net_10_0_0_1_32, rowUS); (net_10_0_0_2_31, rowUS);
             (net_10_0_1_0_25, rowUS)])
  as [(ranges & H1 & H2 & H3 & _) _].
- repeat constructor; vm_compute; try reflexivity; try discriminate.
- repeat constructor; vm_compute; intros; discriminate.
- exists ranges. split; [exact H2|]. split; [|exact H3].
  vm_compute in H1. injection H1 as H1.
  destruct ranges as [|[[s1 e1] d1] [|[[s2 e2] d2] [|r ranges]]]; try discriminate H1.
  cbn in H1. injection H1 as <- <- <- <- <- <-. vm_compute. reflexivity.
Defined.

End MaximalFacts.

(** ** [mergeMaps]: deep merge and field conflicts *)

Module ConflictFacts.
Import Netip Errors Outcome Config Mmdbtype MMDBWriter MergeSpec.
Local Open Scope Z_scope.

(** Two maps of one key each, whose values are not both maps: the one
    conflict is at that key. *)
Lemma mergeMaps_singletons (field : string) (v1 v2 : DataType) :
  ~ bothMaps v1 v2 ->
  mergeMaps {[ field := v1 ]} {[ field := v2 ]}
  = Failed (FieldConflict field (typeName v1) (typeName v2)).
Proof.
intros Hnb.
pose proof (MergeFacts.mergeMaps_sound {[ field := v1 ]} {[ field := v2 ]}) as Hs.
destruct (mergeMaps {[ field := v1 ]} {[ field := v2 ]}) as [r|e|] eqn:Hm; [|  |done].
- exfalso. pose proof (MergeFacts.Merged_lookup _ _ _ field Hs) as Hk.
  rewrite !lookup_singleton_eq in Hk. inversion Hk; subst. apply Hnb. by eexists _, _.
- f_equal. inversion Hs as [d s k dv sv Hd Hsv Hn|d s k dm sm e' Hd Hsv Hc]; subst.
  + destruct (decide (k = field)) as [->|Hne].
    * rewrite lookup_singleton_eq in Hd, Hsv. congruence.
    * by rewrite lookup_singleton_ne in Hd.
  + exfalso. destruct (decide (k = field)) as [->|Hne].
    * rewrite lookup_singleton_eq in Hd, Hsv. apply Hnb. exists dm, sm. split; congruence.
    * by rewrite lookup_singleton_ne in Hd.
Qed.

(** C6.  [mergeMaps] on every pair of maps: when it succeeds, the result
    has the keys of both sides, a key of one side with its value and a key
    of both sides, whose values are then maps, with their merge; when it
    fails, the error is the field conflict that names a key of both sides,
    here or below keys that are maps on both sides, whose values are not
    both maps; it succeeds exactly when there is no such key.  Two columns
    with the same one-key output path whose values are maps with one common
    key and values that are not both maps (scenario 5: [traits],
    [is_anonymous] true and false): [buildNestedData] fails at the second
    column with the field conflict that names the key, so [WriteRow] fails
    and inserts nothing, while [NewMMDBWriter], which does not look at the
    columns, succeeds. *)
Theorem deep_merge_field_conflict (dest source : MapT) :
  (forall r, mergeMaps dest source = Done r ->
     forall k,
       match dest !! k, source !! k with
       | dv, None => r !! k = dv
       | None, Some sv => r !! k = Some sv
       | Some dv, Some sv =>
         exists dm sm m, dv = Map dm /\ sv = Map sm
           /\ mergeMaps dm sm = Done m /\ r !! k = Some (Map m)
       end)
  /\ (forall e, mergeMaps dest source = Failed e -> Conflict dest source e)
  /\ mergeMaps dest source <> Panicked
  /\ ((exists r, mergeMaps dest source = Done r)
      <-> ~ exists e, Conflict dest source e)
  /\ (forall k dv sv,
        dest !! k = Some dv -> source !! k = Some sv -> ~ bothMaps dv sv ->
        exists e, mergeMaps dest source = Failed e /\ Conflict dest source e)
  /\ (forall (cfg : Config) (c1 c2 : Column) (flatData : MapT)
        (outer field : string) (v1 v2 : DataType),
        Columns cfg = [c1; c2] ->
        OutputPath c1 = Some [SegString outer] ->
        OutputPath c2 = Some [SegString outer] ->
        flatData !! Name c1 = Some (Map {[ field := v1 ]}) ->
        flatData !! Name c2 = Some (Map {[ field := v2 ]}) ->
        ~ bothMaps v1 v2 ->
        let conflict := FieldConflict field (typeName v1) (typeName v2) in
        buildNestedData cfg flatData
        = Failed (SettingColumn (Name c2) conflict)
        /\ (forall (Tree : Type)
              (treeInsert : Prefix -> MapT -> Tree -> Tree * option error)
              (w : MMDBWriter (Tree := Tree)) (prefix : Prefix),
              config w = cfg ->
              WriteRow treeInsert w prefix flatData
              = (w, Failed (BuildingNestedData
                              (SettingColumn (Name c2) conflict))))
        /\ (forall (Tree : Type) (newTree : MMDBOptions -> Z -> outcome Tree)
              (outputPath : string) (ipVersion : Z) (t : Tree) size reserved,
              ipVersion = 4 \/ ipVersion = 6 ->
              RecordSize (MMDB cfg) = Some size ->
              IncludeReservedNetworks (MMDB cfg) = Some reserved ->
              newTree (MMDB cfg) ipVersion = Done t ->
              NewMMDBWriter newTree outputPath cfg ipVersion
              = Done (mkMMDBWriter t cfg outputPath)))
  /\ (let c1 := mkColumn "anon_a" "a" [] (Some [SegString "traits"]) in
      let c2 := mkColumn "anon_b" "b" [] (Some [SegString "traits"]) in
      let cfg := mkConfig [c1; c2] None
                   (mkMMDBOptions "Merged" (Some 28) (Some false)) in
      let row : MapT :=
        {[ "anon_a"%string := Map {[ "is_anonymous"%string := Leaf (Bool true) ]};
           "anon_b"%string := Map {[ "is_anonymous"%string := Leaf (Bool false) ]} ]} in
      NewMMDBWriter (fun _ _ => Done tt) "out.mmdb" cfg 6
      = Done (mkMMDBWriter tt cfg "out.mmdb")
      /\ WriteRow (fun _ _ t => (t, None)) (mkMMDBWriter tt cfg "out.mmdb")
           (mkPrefix (AddrFrom16 0) 0) row
         = (mkMMDBWriter tt cfg "out.mmdb",
            Failed (BuildingNestedData
                      (SettingColumn "anon_b"
                         (FieldConflict "is_anonymous" "mmdbtype.Bool"
                            "mmdbtype.Bool"))))).
Proof.
pose proof (MergeFacts.mergeMaps_sound dest source) as Hs.
split; [|split; [|split; [|split; [|split; [|split]]]]].
- intros r Hr. rewrite Hr in Hs. intros k.
  pose proof (MergeFacts.Merged_lookup _ _ _ k Hs) as Hk.
  destruct (dest !! k) as [dv|], (source !! k) as [sv|]; inversion Hk; subst; try done.
  eexists _, _, _. split; [done|]. split; [done|]. split; [|done].
  by apply MergeFacts.Merged_mergeMaps.
- intros e He. by rewrite He in Hs.
- intros Hp. by rewrite Hp in Hs.
- split.
  + intros [r Hr] [e He]. rewrite Hr in Hs.
    by apply (MergeFacts.Merged_not_Conflict _ _ _ _ He Hs).
  + intros Hn. destruct (mergeMaps dest source) as [r|e|]; [by exists r| |done].
    exfalso. apply Hn. by exists e.
- intros k dv sv Hd Hsv Hnb.
  destruct (proj1 (MergeFacts.Conflict_mergeMaps dest source)) as [e He].
  { eexists. by eapply Conflict_here. }
  exists e. split; [done|]. by rewrite He in Hs.
- intros cfg c1 c2 flatData outer field v1 v2 Hcols Hp1 Hp2 Hv1 Hv2 Hnb conflict.
  assert (Hb : buildNestedData cfg flatData
               = Failed (SettingColumn (Name c2) conflict)).
  { unfold buildNestedData. rewrite Hcols. cbn [buildLoop].
    rewrite Hv1, Hv2, Hp1, Hp2. unfold mergeNestedValue. cbn [setAt].
    rewrite lookup_empty, lookup_insert_eq.
    by rewrite mergeMaps_singletons. }
  split; [done|]. split.
  + intros Tree treeInsert w prefix Hw. unfold WriteRow. by rewrite Hw, Hb.
  + intros Tree newTree outputPath ipVersion t size reserved Hv Hsz Hres Hnew.
    unfold NewMMDBWriter. rewrite Hsz, Hres, Hnew.
    by destruct Hv as [-> | ->].
- vm_compute. split; reflexivity.
Qed.

End ConflictFacts.
